(** * Run persistence and snapshot sync: a shallow embedding

    The development follows [pipeline/ingredients.py],
    [pipeline/mysql_writer.py] and the chunk loop and control flow of
    [pipeline.py].

    - Python [str] values are lists of characters; a character is a
      code point below 256 (Latin-1), on which [str.isspace],
      [str.lower] and the regular-expression class [\s] are modelled
      exactly.  [str.title] can leave Latin-1, so a display name is a
      list of code points.
    - A [float] is an exact rational, an infinity or a NaN; [float()]
      of an [int] or of a [str] rounds to the nearest double.  [int()]
      and [float()] of a [str] skip their own set of whitespace, which
      is smaller than the one of [str.strip].
    - The six tables are lists of rows in insertion order; a statement
      is a function on the tables.
    - [write_run] is a computation on a connection, in a monad of state
      and exceptions; the connection tells which statements the store
      refuses, so that a failure can strike at any step.
    - In [main], the loader, the extraction service and the opening of
      the connection are outcomes given from outside. *)

From Stdlib Require Import ZArith QArith List String Ascii Bool Lia.
Import ListNotations.

Local Open Scope Z_scope.

#[local] Set Warnings "-register-all".

(** ** Python strings *)

Module PyStr.

Definition str := list ascii.

Definition lit (s : string) : str := list_ascii_of_string s.

Definition ord (c : ascii) : Z := Z.of_N (N_of_ascii c).

Definition chr (z : Z) : ascii := ascii_of_N (Z.to_N z).

Definition between (lo hi : Z) (c : ascii) : bool :=
  (lo <=? ord c) && (ord c <=? hi).

(** [str.isspace] for one character, which is also what [\s] matches
    in a [str] pattern: TAB..CR, FS..US, space, NEL and NBSP. *)
Definition isspace (c : ascii) : bool :=
  between 9 13 c || between 28 32 c || (ord c =? 133) || (ord c =? 160).

Definition isupper (c : ascii) : bool :=
  between 65 90 c || (between 192 222 c && negb (ord c =? 215)).

(** [str.lower] on one character. *)
Definition lower_char (c : ascii) : ascii :=
  if isupper c then chr (ord c + 32) else c.

Definition lower (s : str) : str := map lower_char s.

Fixpoint lstrip (s : str) : str :=
  match s with
  | [] => []
  | c :: r => if isspace c then lstrip r else s
  end.

Definition rstrip (s : str) : str := rev (lstrip (rev s)).

(** [str.strip()] with no argument. *)
Definition strip (s : str) : str := rstrip (lstrip s).

(** Letters that [str.upper] keeps inside Latin-1. *)
Definition islower_ascii (c : ascii) : bool :=
  between 97 122 c || (between 224 254 c && negb (ord c =? 247)).

Definition upper_char (c : ascii) : ascii :=
  if islower_ascii c then chr (ord c - 32) else c.

(** Cased characters of Latin-1 (feminine and masculine ordinal, micro
    sign, sharp s and y with diaeresis are cased, too). *)
Definition iscased (c : ascii) : bool :=
  isupper c || islower_ascii c || (ord c =? 170) || (ord c =? 181)
  || (ord c =? 186) || (ord c =? 223) || (ord c =? 255).

(** A string that may leave Latin-1, as the list of its code
    points. *)
Definition wstr := list Z.

Definition widen (s : str) : wstr := map ord s.

(** The title-case form of one character: its upper-case letter,
    except that the sharp s gives [Ss], the micro sign U+039C and the
    y with diaeresis U+0178. *)
Definition title_char (c : ascii) : wstr :=
  if ord c =? 223 then [83; 115]
  else if ord c =? 181 then [924]
  else if ord c =? 255 then [376]
  else [ord (upper_char c)].

(** [str.title()]: a character takes its title-case form when the
    previous character is not cased and is lower-cased otherwise. *)
Fixpoint title_from (prev_cased : bool) (s : str) : wstr :=
  match s with
  | [] => []
  | c :: r =>
      (if prev_cased then [ord (lower_char c)] else title_char c)
        ++ title_from (iscased c) r
  end.

Definition title (s : str) : wstr := title_from false s.

Definition is_empty (s : str) : bool :=
  match s with [] => true | _ => false end.

Fixpoint eqb (a b : str) : bool :=
  match a, b with
  | [], [] => true
  | x :: a', y :: b' => Ascii.eqb x y && eqb a' b'
  | _, _ => false
  end.

End PyStr.

Import PyStr.

(** ** Regular expressions used by the canonicalizer *)

Module Re.

(** [re.sub(r"\s+", " ", s)]: every maximal run of whitespace becomes
    one space.  [in_run] tells that the previous character belonged to
    a run already replaced. *)
Fixpoint sub_ws_from (in_run : bool) (s : str) : str :=
  match s with
  | [] => []
  | c :: r =>
      if isspace c
      then (if in_run then sub_ws_from true r
            else " "%char :: sub_ws_from true r)
      else c :: sub_ws_from false r
  end.

Definition sub_ws (s : str) : str := sub_ws_from false s.

(** The class [[.,;:!?]]. *)
Definition is_punct (c : ascii) : bool :=
  (ord c =? 46) || (ord c =? 44) || (ord c =? 59) || (ord c =? 58)
  || (ord c =? 33) || (ord c =? 63).

(** Removal of the run of [[.,;:!?]] that ends the string. *)
Fixpoint drop_punct_head (s : str) : str :=
  match s with
  | [] => []
  | c :: r => if is_punct c then drop_punct_head r else s
  end.

Definition rstrip_punct (s : str) : str := rev (drop_punct_head (rev s)).

(** [re.sub(r"[.,;:!?]+$", "", s)].  Without [re.MULTILINE], [$]
    matches at the end of the string and also just before a line feed
    that ends the string. *)
Definition sub_trailing_punct (s : str) : str :=
  match rev s with
  | c :: r =>
      if (ord c =? 10)
      then rev (drop_punct_head r) ++ [c]
      else rstrip_punct s
  | [] => []
  end.

End Re.

Import Re.

(** ** Python values *)

(** A [float] is a rational (every finite double is one), an infinity
    or a NaN. *)
Inductive pyfloat : Type :=
| FFin (q : Q)
| FInf (negative : bool)
| FNaN.

Inductive pyval : Type :=
| VNone
| VBool (b : bool)
| VInt (z : Z)
| VFloat (f : pyfloat)
| VStr (s : str)
| VList (l : list pyval)
| VDict (d : list (str * pyval)).

(** A [dict] with [str] keys, read by first match. *)
Definition dict := list (str * pyval).

Inductive exn : Type :=
| KeyError (key : str)
| TypeError
| ValueError
| OverflowError
| AttributeError
| RuntimeError (canonical : str)
| IntegrityError
| DatabaseError (code : Z).

Inductive result (A : Type) : Type :=
| Ok (a : A)
| Raise (e : exn).

Arguments Ok {A} a.
Arguments Raise {A} e.

Module Py.

(** Truth value of an object, as [not], [or] and [if] test it. *)
Definition truthy (v : pyval) : bool :=
  match v with
  | VNone => false
  | VBool b => b
  | VInt z => negb (z =? 0)
  | VFloat (FFin q) => negb (Qnum q =? 0)
  | VFloat _ => true
  | VStr s => negb (is_empty s)
  | VList l => match l with [] => false | _ => true end
  | VDict d => match d with [] => false | _ => true end
  end.

(** [a or b]. *)
Definition or_else (a b : pyval) : pyval := if truthy a then a else b.

Fixpoint lookup (d : dict) (k : str) : option pyval :=
  match d with
  | [] => None
  | (k', v) :: r => if PyStr.eqb k' k then Some v else lookup r k
  end.

(** [d[k]]. *)
Definition getitem (d : dict) (k : str) : result pyval :=
  match lookup d k with
  | Some v => Ok v
  | None => Raise (KeyError k)
  end.

(** [d.get(k, default)]; [d.get(k)] is [get d k VNone]. *)
Definition get (d : dict) (k : str) (default : pyval) : pyval :=
  match lookup d k with
  | Some v => v
  | None => default
  end.

(** Iteration of a [for] loop over an object. *)
Definition iter (v : pyval) : result (list pyval) :=
  match v with
  | VList l => Ok l
  | VStr s => Ok (map (fun c => VStr [c]) s)
  | VDict d => Ok (map (fun kv => VStr (fst kv)) d)
  | _ => Raise TypeError
  end.

(** ** Numbers *)

(** Nearest integer to [n / d], ties to even; [d] is positive. *)
Definition round_half_even (n d : Z) : Z :=
  let f := n / d in
  let r := n mod d in
  if 2 * r <? d then f
  else if d <? 2 * r then f + 1
  else if Z.even f then f else f + 1.

Definition pow2 (e : Z) : Z := 2 ^ e.

(** Round-to-nearest-even conversion of a rational to binary64: the
    result is again a rational, or an infinity on overflow. *)
Definition to_double (q : Q) : pyfloat :=
  let n := Z.abs (Qnum q) in
  let d := Zpos (Qden q) in
  if n =? 0 then FFin 0
  else
    let e0 := Z.log2 n - Z.log2 d in
    let e := if d * pow2 (Z.max 0 e0) <=? n * pow2 (Z.max 0 (- e0))
             then e0 else e0 - 1 in
    let t := Z.max (e - 52) (-1074) in
    let m := round_half_even (n * pow2 (Z.max 0 (- t)))
                             (d * pow2 (Z.max 0 t)) in
    if (0 <=? t) && (1024 <=? Z.log2 m + t)
    then FInf (Qnum q <? 0)
    else
      let s := if Qnum q <? 0 then - m else m in
      if 0 <=? t then FFin (inject_Z (s * pow2 t))
      else FFin (Qmake s (Z.to_pos (pow2 (- t)))).

Definition is_digit (c : ascii) : bool := between 48 57 c.

Definition digits_value (ds : str) : Z :=
  fold_left (fun a c => 10 * a + (ord c - 48)) ds 0.

Fixpoint span_digits (s : str) : str * str :=
  match s with
  | [] => ([], [])
  | c :: r =>
      if is_digit c
      then let (ds, rest) := span_digits r in (c :: ds, rest)
      else ([], s)
  end.

Definition is_underscore (c : ascii) : bool := ord c =? 95.

(** Underscores of a numeric literal: each one stands between two
    digits; they are removed. *)
Fixpoint strip_underscores (prev : option ascii) (s : str) : option str :=
  match s with
  | [] =>
      match prev with
      | Some p => if is_underscore p then None else Some []
      | None => Some []
      end
  | c :: r =>
      if is_underscore c
      then match prev with
           | Some p => if is_digit p then strip_underscores (Some c) r
                       else None
           | None => None
           end
      else
        let after_us := match prev with
                        | Some p => is_underscore p
                        | None => false
                        end in
        if after_us && negb (is_digit c) then None
        else option_map (cons c) (strip_underscores (Some c) r)
  end.

(** The whitespace that [int()] and [float()] skip around a literal:
    TAB..CR and the space, and NEL and NBSP, which the conversion
    first turns into spaces.  FS..US are not skipped, although
    [str.strip()] removes them. *)
Definition is_literal_space (c : ascii) : bool :=
  between 9 13 c || (ord c =? 32) || (ord c =? 133) || (ord c =? 160).

Fixpoint skip_literal_space (s : str) : str :=
  match s with
  | [] => []
  | c :: r => if is_literal_space c then skip_literal_space r else s
  end.

Definition trim_literal (s : str) : str :=
  rev (skip_literal_space (rev (skip_literal_space s))).

(** [sys.get_int_max_str_digits()], as it is by default. *)
Definition max_str_digits : Z := 4300.

(** An optional sign; [true] stands for minus. *)
Definition split_sign (s : str) : bool * str :=
  match s with
  | c :: r =>
      if ord c =? 45 then (true, r)
      else if ord c =? 43 then (false, r)
      else (false, s)
  | [] => (false, [])
  end.

(** [int(s)] for a [str] in base ten; a literal of more digits than
    the limit is refused. *)
Definition int_of_str (s : str) : option Z :=
  match strip_underscores None (trim_literal s) with
  | None => None
  | Some t =>
      let (neg, body) := split_sign t in
      let (ds, rest) := span_digits body in
      if is_empty ds || negb (is_empty rest)
         || (max_str_digits <? Z.of_nat (List.length ds))
      then None
      else Some (if neg then - digits_value ds else digits_value ds)
  end.

(** The decimal literal [mantissa * 10 ^ exponent]. *)
Definition decimal (mantissa exponent : Z) : Q :=
  if 0 <=? exponent then inject_Z (mantissa * 10 ^ exponent)
  else Qmake mantissa (Z.to_pos (10 ^ (- exponent))).

Definition is_e (c : ascii) : bool := (ord c =? 101) || (ord c =? 69).

Definition float_body (s : str) : option (Z * Z) :=
  let (ip, r1) := span_digits s in
  let (fp, r2) :=
    match r1 with
    | c :: r => if ord c =? 46 then span_digits r else ([], r1)
    | [] => ([], [])
    end in
  if is_empty ip && is_empty fp then None
  else
    let mant := digits_value (ip ++ fp) in
    let e0 := - Z.of_nat (List.length fp) in
    match r2 with
    | [] => Some (mant, e0)
    | c :: r =>
        if is_e c then
          let (neg, r') := split_sign r in
          let (ed, r3) := span_digits r' in
          if is_empty ed || negb (is_empty r3) then None
          else Some (mant, e0 + (if neg then - digits_value ed
                                 else digits_value ed))
        else None
    end.

(** [float(s)] for a [str]. *)
Definition float_of_str (s : str) : option pyfloat :=
  match strip_underscores None (trim_literal s) with
  | None => None
  | Some t =>
      let (neg, body) := split_sign t in
      let word := lower body in
      if PyStr.eqb word (lit "inf") || PyStr.eqb word (lit "infinity")
      then Some (FInf neg)
      else if PyStr.eqb word (lit "nan") then Some FNaN
      else
        match float_body body with
        | None => None
        | Some (mant, e) =>
            Some (to_double (decimal (if neg then - mant else mant) e))
        end
  end.

(** [int(v)]. *)
Definition int (v : pyval) : result Z :=
  match v with
  | VBool b => Ok (if b then 1 else 0)
  | VInt z => Ok z
  | VFloat (FFin q) => Ok (Z.quot (Qnum q) (Zpos (Qden q)))
  | VFloat (FInf _) => Raise OverflowError
  | VFloat FNaN => Raise ValueError
  | VStr s => match int_of_str s with
              | Some z => Ok z
              | None => Raise ValueError
              end
  | VNone | VList _ | VDict _ => Raise TypeError
  end.

(** [float(v)]; an [int] too large for a double raises. *)
Definition float (v : pyval) : result pyfloat :=
  match v with
  | VBool b => Ok (FFin (if b then 1 else 0))
  | VInt z => match to_double (inject_Z z) with
              | FInf _ => Raise OverflowError
              | f => Ok f
              end
  | VFloat f => Ok f
  | VStr s => match float_of_str s with
              | Some f => Ok f
              | None => Raise ValueError
              end
  | VNone | VList _ | VDict _ => Raise TypeError
  end.

(** [a < b] on floats; false as soon as a NaN is involved. *)
Definition flt (a b : pyfloat) : bool :=
  match a, b with
  | FNaN, _ | _, FNaN => false
  | FFin x, FFin y => Qle_bool x y && negb (Qle_bool y x)
  | FFin _, FInf neg => negb neg
  | FInf neg, FFin _ => neg
  | FInf n1, FInf n2 => n1 && negb n2
  end.

(** [min(a, b)] and [max(a, b)]: the first argument is kept unless
    the second is strictly smaller (resp. greater). *)
Definition min (a b : pyfloat) : pyfloat := if flt b a then b else a.
Definition max (a b : pyfloat) : pyfloat := if flt a b then b else a.

(** [round(x, 3)]: the multiple of 1/1000 nearest to [x], ties to
    even.  The double that stands for it prints as that decimal, which
    is what reaches the server. *)
Definition round3 (x : pyfloat) : pyfloat :=
  match x with
  | FFin q => FFin (Qmake (round_half_even (1000 * Qnum q) (Zpos (Qden q)))
                          1000)
  | _ => x
  end.

End Py.

(** ** ingredients.py *)

Module Ingredients.

(** The body of [canonicalize_ingredient] for a [str]. *)
Definition canonical_of_str (name : str) : str :=
  let s := lower (strip name) in
  let s := sub_ws s in
  strip (sub_trailing_punct s).

(** [canonicalize_ingredient(name)]: a falsy or non-[str] argument
    gives the empty string. *)
Definition canonicalize_ingredient (name : pyval) : str :=
  match name with
  | VStr s => if is_empty s then [] else canonical_of_str s
  | _ => []
  end.

(** [display_name_for_ingredient(name)]. *)
Definition display_name_for_ingredient (name : pyval) : wstr :=
  match name with
  | VStr s => if is_empty s then [] else title (strip s)
  | _ => []
  end.

End Ingredients.

Import Ingredients.

(** ** The relational store *)

(** Modelled from the spec: the table declarations (the schema is not
    among the sources).  Columns and keys are those of the data model:
    [run_id] and [ingredient_id] are generated, [restaurant_id] and
    [item_id] are external keys, [canonical_name] is unique, an
    observation is unique per (run, item, ingredient) and a current link
    per (item, ingredient).  Names are compared character by character.
    Timestamps are readings of the server clock. *)
Module Store.

Record extraction_run : Type := {
  run_id : Z;
  model_name : option str;
  prompt_version : option str;
  pipeline_version : option str;
  run_created_at : Z }.

Record restaurant : Type := {
  restaurant_id : Z;
  name : option str;
  restaurant_updated_at : Z }.

Record menu_item : Type := {
  item_id : Z;
  item_restaurant_id : Z;
  item_name : pyval;
  reasoning : pyval;
  item_updated_at : Z }.

Record ingredient : Type := {
  ingredient_id : Z;
  canonical_name : str;
  display_name : wstr }.

Record observation : Type := {
  obs_run_id : Z;
  obs_item_id : Z;
  obs_ingredient_id : Z;
  obs_confidence : pyfloat;
  obs_created_at : Z }.

Record link : Type := {
  link_item_id : Z;
  link_ingredient_id : Z;
  link_confidence : pyfloat }.

Record tables : Type := {
  extraction_runs : list extraction_run;
  restaurants : list restaurant;
  menu_items : list menu_item;
  ingredients : list ingredient;
  menu_item_ingredient_observations : list observation;
  menu_item_ingredients : list link }.

Definition set_extraction_runs (t : tables) (l : list extraction_run) :=
  {| extraction_runs := l;
     restaurants := restaurants t;
     menu_items := menu_items t;
     ingredients := ingredients t;
     menu_item_ingredient_observations := menu_item_ingredient_observations t;
     menu_item_ingredients := menu_item_ingredients t |}.

Definition set_restaurants (t : tables) (l : list restaurant) :=
  {| extraction_runs := extraction_runs t;
     restaurants := l;
     menu_items := menu_items t;
     ingredients := ingredients t;
     menu_item_ingredient_observations := menu_item_ingredient_observations t;
     menu_item_ingredients := menu_item_ingredients t |}.

Definition set_menu_items (t : tables) (l : list menu_item) :=
  {| extraction_runs := extraction_runs t;
     restaurants := restaurants t;
     menu_items := l;
     ingredients := ingredients t;
     menu_item_ingredient_observations := menu_item_ingredient_observations t;
     menu_item_ingredients := menu_item_ingredients t |}.

Definition set_ingredients (t : tables) (l : list ingredient) :=
  {| extraction_runs := extraction_runs t;
     restaurants := restaurants t;
     menu_items := menu_items t;
     ingredients := l;
     menu_item_ingredient_observations := menu_item_ingredient_observations t;
     menu_item_ingredients := menu_item_ingredients t |}.

Definition set_observations (t : tables) (l : list observation) :=
  {| extraction_runs := extraction_runs t;
     restaurants := restaurants t;
     menu_items := menu_items t;
     ingredients := ingredients t;
     menu_item_ingredient_observations := l;
     menu_item_ingredients := menu_item_ingredients t |}.

Definition set_links (t : tables) (l : list link) :=
  {| extraction_runs := extraction_runs t;
     restaurants := restaurants t;
     menu_items := menu_items t;
     ingredients := ingredients t;
     menu_item_ingredient_observations := menu_item_ingredient_observations t;
     menu_item_ingredients := l |}.

(** [INSERT ... ON DUPLICATE KEY UPDATE ...] on one table: the row
    with the same key is updated in place, otherwise the new row is
    appended. *)
Fixpoint upsert {A : Type} (same_key : A -> bool) (update : A -> A)
         (fresh : A) (rows : list A) : list A :=
  match rows with
  | [] => [fresh]
  | r :: rest =>
      if same_key r then update r :: rest
      else r :: upsert same_key update fresh rest
  end.

(** [INSERT INTO extraction_runs (model_name, prompt_version,
    pipeline_version) VALUES (%s, %s, %s)] with the generated key. *)
Definition insert_run (now id : Z) (m p v : option str) (t : tables)
  : tables :=
  set_extraction_runs t
    (extraction_runs t ++
       [{| run_id := id; model_name := m; prompt_version := p;
           pipeline_version := v; run_created_at := now |}]).

(** [INSERT INTO restaurants (restaurant_id, name) VALUES (%s, NULL)
    ON DUPLICATE KEY UPDATE updated_at = CURRENT_TIMESTAMP]. *)
Definition upsert_restaurant (now rid : Z) (t : tables) : tables :=
  set_restaurants t
    (upsert (fun r => restaurant_id r =? rid)
            (fun r => {| restaurant_id := restaurant_id r;
                         name := name r;
                         restaurant_updated_at := now |})
            {| restaurant_id := rid; name := None;
               restaurant_updated_at := now |}
            (restaurants t)).

(** [INSERT INTO menu_items (item_id, restaurant_id, item_name,
    reasoning) VALUES ... ON DUPLICATE KEY UPDATE] of the three value
    columns and of [updated_at]. *)
Definition upsert_menu_item (now iid rid : Z) (nm rs : pyval)
           (t : tables) : tables :=
  let row := {| item_id := iid; item_restaurant_id := rid;
                item_name := nm; reasoning := rs;
                item_updated_at := now |} in
  set_menu_items t
    (upsert (fun r => item_id r =? iid) (fun _ => row) row (menu_items t)).

Definition has_canonical (c : str) (r : ingredient) : bool :=
  PyStr.eqb (canonical_name r) c.

Definition ingredient_exists (c : str) (t : tables) : bool :=
  existsb (has_canonical c) (ingredients t).

(** [INSERT INTO ingredients (canonical_name, display_name) VALUES
    (%s, %s) ON DUPLICATE KEY UPDATE display_name =
    VALUES(display_name)]; [id] is the key generated for a new row. *)
Definition upsert_ingredient (id : Z) (c : str) (d : wstr) (t : tables)
  : tables :=
  set_ingredients t
    (upsert (has_canonical c)
            (fun r => {| ingredient_id := ingredient_id r;
                         canonical_name := canonical_name r;
                         display_name := d |})
            {| ingredient_id := id; canonical_name := c;
               display_name := d |}
            (ingredients t)).

(** [SELECT ingredient_id FROM ingredients WHERE canonical_name = %s]
    followed by [fetchone()]. *)
Definition select_ingredient_id (c : str) (t : tables) : option Z :=
  option_map ingredient_id (find (has_canonical c) (ingredients t)).

Definition same_observation (run item ing : Z) (o : observation) : bool :=
  (obs_run_id o =? run) && (obs_item_id o =? item)
  && (obs_ingredient_id o =? ing).

(** [INSERT INTO menu_item_ingredient_observations ... ON DUPLICATE
    KEY UPDATE confidence = VALUES(confidence), created_at =
    CURRENT_TIMESTAMP]. *)
Definition upsert_observation (now run item ing : Z) (conf : pyfloat)
           (t : tables) : tables :=
  let row := {| obs_run_id := run; obs_item_id := item;
                obs_ingredient_id := ing; obs_confidence := conf;
                obs_created_at := now |} in
  set_observations t
    (upsert (same_observation run item ing) (fun _ => row) row
            (menu_item_ingredient_observations t)).

Definition links_of (item : Z) (rows : list link) : list link :=
  filter (fun l => link_item_id l =? item) rows.

(** [DELETE FROM menu_item_ingredients WHERE item_id = %s]. *)
Definition delete_links (item : Z) (t : tables) : tables :=
  set_links t
    (filter (fun l => negb (link_item_id l =? item))
            (menu_item_ingredients t)).

Definition same_link (item ing : Z) (l : link) : bool :=
  (link_item_id l =? item) && (link_ingredient_id l =? ing).

(** [INSERT INTO menu_item_ingredients (item_id, ingredient_id,
    confidence) VALUES (%s, %s, %s)]: a plain insert, refused when the
    key is already there. *)
Definition insert_link (item ing : Z) (conf : pyfloat) (t : tables)
  : option tables :=
  if existsb (same_link item ing) (menu_item_ingredients t) then None
  else Some (set_links t
               (menu_item_ingredients t ++
                  [{| link_item_id := item; link_ingredient_id := ing;
                      link_confidence := conf |}])).

Definition empty : tables :=
  {| extraction_runs := []; restaurants := []; menu_items := [];
     ingredients := []; menu_item_ingredient_observations := [];
     menu_item_ingredients := [] |}.

End Store.

Import Store.

(** ** mysql_writer.py *)

Module Writer.

(** What [import config] finds: no module ([ImportError]) or a module
    whose [PROMPT_VERSION] and [PIPELINE_VERSION] attributes may be
    missing. *)
Inductive config_module : Type :=
| NoConfig
| Config (PROMPT_VERSION PIPELINE_VERSION : option str).

(** [_get_pipeline_config()]. *)
Definition _get_pipeline_config (cfg : config_module)
  : option str * option str :=
  match cfg with
  | Config pv pipv => (pv, pipv)
  | NoConfig => (None, None)
  end.

(** A session on the server.  [committed] is what the server shows
    to other sessions, [working] is the view of the session itself;
    the statements of [write_run] act on [working], and
    [run_with_transaction] tells when [committed] follows ([commit],
    or at once when the session was opened with [autocommit] on).
    [faults] tells which command, counted from the opening of the
    connection, the driver or the server refuses, and with what
    error; [clock] is the value of [CURRENT_TIMESTAMP] at each
    command. *)
Record conn : Type := {
  committed : tables;
  working : tables;
  auto_run : Z;
  auto_ingredient : Z;
  last_insert_id : Z;
  executed : nat;
  faults : nat -> option exn;
  clock : nat -> Z;
  is_open : bool }.

Definition set_working (c : conn) (t : tables) : conn :=
  {| committed := committed c; working := t; auto_run := auto_run c;
     auto_ingredient := auto_ingredient c;
     last_insert_id := last_insert_id c; executed := executed c;
     faults := faults c; clock := clock c; is_open := is_open c |}.

Definition set_committed (c : conn) (t : tables) : conn :=
  {| committed := t; working := working c; auto_run := auto_run c;
     auto_ingredient := auto_ingredient c;
     last_insert_id := last_insert_id c; executed := executed c;
     faults := faults c; clock := clock c; is_open := is_open c |}.

Definition generated_run (c : conn) (id : Z) : conn :=
  {| committed := committed c; working := working c; auto_run := id + 1;
     auto_ingredient := auto_ingredient c;
     last_insert_id := id; executed := executed c;
     faults := faults c; clock := clock c; is_open := is_open c |}.

Definition generated_ingredient (c : conn) (id : Z) : conn :=
  {| committed := committed c; working := working c;
     auto_run := auto_run c; auto_ingredient := id + 1;
     last_insert_id := id; executed := executed c;
     faults := faults c; clock := clock c; is_open := is_open c |}.

Definition tick (c : conn) : conn :=
  {| committed := committed c; working := working c;
     auto_run := auto_run c; auto_ingredient := auto_ingredient c;
     last_insert_id := last_insert_id c; executed := S (executed c);
     faults := faults c; clock := clock c; is_open := is_open c |}.

Definition set_open (c : conn) (b : bool) : conn :=
  {| committed := committed c; working := working c;
     auto_run := auto_run c; auto_ingredient := auto_ingredient c;
     last_insert_id := last_insert_id c; executed := executed c;
     faults := faults c; clock := clock c; is_open := b |}.

(** Computations on a connection that may raise. *)
Definition M (A : Type) : Type := conn -> result A * conn.

Definition ret {A : Type} (a : A) : M A := fun c => (Ok a, c).

Definition raise {A : Type} (e : exn) : M A := fun c => (Raise e, c).

Definition bind {A B : Type} (m : M A) (k : A -> M B) : M B :=
  fun c =>
    match m c with
    | (Ok a, c') => k a c'
    | (Raise e, c') => (Raise e, c')
    end.

Definition lift {A : Type} (r : result A) : M A := fun c => (r, c).

Declare Scope run_scope.
Delimit Scope run_scope with run.
Notation "x <- m ;; k" := (bind m (fun x => k))
  (at level 100, m at next level, right associativity) : run_scope.
Notation "m ;; k" := (bind m (fun _ => k))
  (at level 100, right associativity) : run_scope.
Local Open Scope run_scope.

(** [cursor.execute(...)]: the statement runs unless it is refused. *)
Definition execute {A : Type} (stmt : Z -> conn -> A * conn) : M A :=
  fun c =>
    let n := executed c in
    let c := tick c in
    match faults c n with
    | Some e => (Raise e, c)
    | None => let (a, c') := stmt (clock c n) c in (Ok a, c')
    end.

(** A statement that only rewrites the tables. *)
Definition update (f : Z -> tables -> tables) : M unit :=
  execute (fun now c => (tt, set_working c (f now (working c)))).

(** The insert into [extraction_runs]; the result is
    [cursor.lastrowid]. *)
Definition execute_insert_run (m p v : option str) : M Z :=
  execute (fun now c =>
             let id := auto_run c in
             (id, generated_run
                    (set_working c (insert_run now id m p v (working c)))
                    id)).

(** [SELECT LAST_INSERT_ID()] and [fetchone()[0]]. *)
Definition execute_last_insert_id : M Z :=
  execute (fun _ c => (last_insert_id c, c)).

Definition execute_upsert_ingredient (canonical : str) (display : wstr)
  : M unit :=
  execute (fun _ c =>
             let id := auto_ingredient c in
             let t := upsert_ingredient id canonical display (working c) in
             if ingredient_exists canonical (working c)
             then (tt, set_working c t)
             else (tt, generated_ingredient (set_working c t) id)).

Definition execute_select_ingredient (canonical : str) : M (option Z) :=
  execute (fun _ c => (select_ingredient_id canonical (working c), c)).

(** The plain insert into [menu_item_ingredients]. *)
Definition execute_insert_link (item ing : Z) (conf : pyfloat) : M unit :=
  fun c =>
    let n := executed c in
    let c := tick c in
    match faults c n with
    | Some e => (Raise e, c)
    | None =>
        match insert_link item ing conf (working c) with
        | Some t => (Ok tt, set_working c t)
        | None => (Raise IntegrityError, c)
        end
    end.

(** A [for] loop whose body threads a value. *)
Fixpoint for_each {A S : Type} (body : S -> A -> M S) (l : list A) (s : S)
  : M S :=
  match l with
  | [] => ret s
  | x :: r => s' <- body s x ;; for_each body r s'
  end.

(** [ing.get]: only a [dict] has the method. *)
Definition as_dict (v : pyval) : result dict :=
  match v with
  | VDict d => Ok d
  | _ => Raise AttributeError
  end.

(** [v.strip()]: only a [str] has the method. *)
Definition str_strip (v : pyval) : result str :=
  match v with
  | VStr s => Ok (strip s)
  | _ => Raise AttributeError
  end.

(** [max(0.0, min(1.0, conf))]. *)
Definition clamp (conf : pyfloat) : pyfloat :=
  Py.max (FFin 0) (Py.min (FFin 1) conf).

(** The body of [for ing in ingredient_rows]; [seen] is
    [seen_ingredient_ids]. *)
Definition ingredient_step (run item : Z) (seen : list (Z * pyfloat))
           (ing : pyval) : M (list (Z * pyfloat)) :=
  d <- lift (as_dict ing) ;;
  name <- lift (str_strip (Py.or_else (Py.get d (lit "name") VNone)
                                      (VStr []))) ;;
  if is_empty name then ret seen
  else
    conf <- lift (Py.float (Py.get d (lit "confidence") (VInt 0))) ;;
    let conf := clamp conf in
    let canonical := canonicalize_ingredient (VStr name) in
    let display := display_name_for_ingredient (VStr name) in
    if is_empty canonical then ret seen
    else
      execute_upsert_ingredient canonical display ;;
      row <- execute_select_ingredient canonical ;;
      match row with
      | None => raise (RuntimeError canonical)
      | Some ingredient_id =>
          let seen := seen ++ [(ingredient_id, conf)] in
          update (fun now =>
                    upsert_observation now run item ingredient_id
                                       (Py.round3 conf)) ;;
          ret seen
      end.

(** [int(item[key])]. *)
Definition int_field (item : dict) (key : str) : result Z :=
  match Py.getitem item key with
  | Ok v => Py.int v
  | Raise e => Raise e
  end.

(** The body of [for ing_id, conf in seen_ingredient_ids]. *)
Definition link_step (item : Z) (_ : unit) (p : Z * pyfloat) : M unit :=
  execute_insert_link item (fst p) (Py.round3 (snd p)).

(** The body of [for item in results]. *)
Definition item_step (run : Z) (_ : unit) (item : dict) : M unit :=
  item_id <- lift (int_field item (lit "item_id")) ;;
  restaurant_id <- lift (int_field item (lit "restaurant_id")) ;;
  let item_name := Py.or_else (Py.get item (lit "item_name") VNone)
                              (VStr []) in
  let reasoning := Py.get item (lit "reasoning") VNone in
  update (fun now => upsert_restaurant now restaurant_id) ;;
  update (fun now =>
            upsert_menu_item now item_id restaurant_id item_name
                             reasoning) ;;
  let ingredient_rows := Py.or_else (Py.get item (lit "ingredients") VNone)
                                    (VList []) in
  rows <- lift (Py.iter ingredient_rows) ;;
  seen_ingredient_ids <- for_each (ingredient_step run item_id) rows [] ;;
  update (fun _ => delete_links item_id) ;;
  for_each (link_step item_id) seen_ingredient_ids tt.

(** The versions written with the run: an argument that is [None] is
    read from the configuration module. *)
Definition resolve_versions (cfg : config_module)
           (prompt_version pipeline_version : option str)
  : option str * option str :=
  match prompt_version, pipeline_version with
  | Some _, Some _ => (prompt_version, pipeline_version)
  | _, _ =>
      let (pv, pipv) := _get_pipeline_config cfg in
      (match prompt_version with None => pv | Some _ => prompt_version end,
       match pipeline_version with
       | None => pipv
       | Some _ => pipeline_version
       end)
  end.

(** [write_run(conn, results, model_name=..., prompt_version=...,
    pipeline_version=...)]; [cfg] is the process-wide configuration
    module that the function may import. *)
Definition write_run (cfg : config_module) (results : list dict)
           (model_name prompt_version pipeline_version : option str)
  : M Z :=
  let (prompt_version, pipeline_version) :=
    resolve_versions cfg prompt_version pipeline_version in
  run_id <- execute_insert_run model_name prompt_version
                               pipeline_version ;;
  run_id <- (if run_id =? 0 then execute_last_insert_id else ret run_id) ;;
  for_each (item_step run_id) results tt ;;
  ret run_id.

(** [conn.commit()], itself a step that can be refused. *)
Definition commit : M unit :=
  execute (fun _ c => (tt, set_committed c (working c))).

(** [conn.rollback()]: a command like the others, which can be
    refused as well, for instance when the connection is lost; when
    it is accepted the open transaction is undone. *)
Definition rollback : M unit :=
  execute (fun _ c => (tt, set_working c (committed c))).

(** [conn.close()]: the driver ignores the errors of the quit command;
    what the session has not committed is gone with it. *)
Definition close (c : conn) : conn :=
  set_open (set_working c (committed c)) false.

(** The connection arguments, as far as the transaction depends on
    them; without the key, [autocommit] is off. *)
Record mysql_config : Type := { autocommit : bool }.

(** [get_mysql_config()] asks for [autocommit] off. *)
Definition get_mysql_config : mysql_config := {| autocommit := false |}.

(** [config or get_mysql_config()]. *)
Definition connection_config (config : option mysql_config)
  : mysql_config :=
  match config with
  | Some k => k
  | None => get_mysql_config
  end.

(** In a session opened with [autocommit] on, what a statement wrote
    is committed as soon as the statement is accepted: when the [try]
    block is left the committed tables are the working ones. *)
Definition settle (k : mysql_config) (c : conn) : conn :=
  if autocommit k then set_committed c (working c) else c.

(** The [except] block: roll back and raise [e] again, unless the
    rollback raises itself. *)
Definition roll_back_and_raise (e : exn) (c : conn) : result Z * conn :=
  match rollback c with
  | (Ok _, c') => (Raise e, c')
  | (Raise e', c') => (Raise e', c')
  end.

(** [run_with_transaction(results, ..., config=...)] on the session
    that [mysql.connector.connect] opens: [try] the run and the
    commit, roll back in [except] and raise again, close in
    [finally]. *)
Definition run_with_transaction (cfg : config_module) (results : list dict)
           (model_name prompt_version pipeline_version : option str)
           (config : option mysql_config) (c : conn) : result Z * conn :=
  let k := connection_config config in
  let (r, c') :=
    match (run_id <- write_run cfg results model_name prompt_version
                               pipeline_version ;;
           commit ;;
           ret run_id) c with
    | (Ok run_id, c') => (Ok run_id, settle k c')
    | (Raise e, c') => roll_back_and_raise e (settle k c')
    end in
  (r, close c').

(** A freshly opened connection to a server that holds [t]. *)
Definition connect (t : tables) (next_run next_ingredient : Z)
           (fl : nat -> option exn) (clk : nat -> Z) : conn :=
  {| committed := t; working := t; auto_run := next_run;
     auto_ingredient := next_ingredient; last_insert_id := 0;
     executed := 0%nat; faults := fl; clock := clk; is_open := true |}.

Definition no_fault : nat -> option exn := fun _ => None.

End Writer.

Import Writer.
Local Open Scope run_scope.

(** ** Views of the input used in the statements *)

Module Batch.

(** What one ingredient entry contributes before any statement is
    issued: an error, nothing (the entry is skipped), or the canonical
    name, the display name and the clamped confidence. *)
Definition entry_of (ing : pyval)
  : result (option (str * wstr * pyfloat)) :=
  match as_dict ing with
  | Raise e => Raise e
  | Ok d =>
      match str_strip (Py.or_else (Py.get d (lit "name") VNone) (VStr []))
      with
      | Raise e => Raise e
      | Ok name =>
          if is_empty name then Ok None
          else
            match Py.float (Py.get d (lit "confidence") (VInt 0)) with
            | Raise e => Raise e
            | Ok conf =>
                let canonical := canonicalize_ingredient (VStr name) in
                if is_empty canonical then Ok None
                else Ok (Some (canonical,
                               display_name_for_ingredient (VStr name),
                               clamp conf))
            end
      end
  end.

(** The entries of a list that are kept, in order; [None] when one of
    them raises. *)
Fixpoint kept_entries (rows : list pyval)
  : option (list (str * wstr * pyfloat)) :=
  match rows with
  | [] => Some []
  | ing :: rest =>
      match entry_of ing, kept_entries rest with
      | Ok (Some e), Some es => Some (e :: es)
      | Ok None, Some es => Some es
      | _, _ => None
      end
  end.

(** [item.get("ingredients") or []], iterated. *)
Definition ingredient_rows (item : dict) : result (list pyval) :=
  Py.iter (Py.or_else (Py.get item (lit "ingredients") VNone) (VList [])).

Definition item_id_of (item : dict) : result Z :=
  int_field item (lit "item_id").

Definition restaurant_id_of (item : dict) : result Z :=
  int_field item (lit "restaurant_id").

(** The current-link row that an accumulated pair becomes. *)
Definition link_of (item : Z) (p : Z * pyfloat) : link :=
  {| link_item_id := item; link_ingredient_id := fst p;
     link_confidence := Py.round3 (snd p) |}.

(** A kept entry [e] and the accumulated pair [p] it gives once its
    name is resolved in the tables [t]. *)
Definition resolved (t : tables) (e : str * wstr * pyfloat)
           (p : Z * pyfloat) : Prop :=
  select_ingredient_id (fst (fst e)) t = Some (fst p) /\ snd p = snd e.

(** [acc] is what [seen_ingredient_ids] holds for [item], with the
    identifiers that [t] gives to the names. *)
Definition accumulated (t : tables) (item : dict)
           (acc : list (Z * pyfloat)) : Prop :=
  exists rows es,
    ingredient_rows item = Ok rows /\ kept_entries rows = Some es
    /\ Forall2 (resolved t) es acc.

End Batch.

Import Batch.

(** ** Relations between the tables before and after a step *)

Module Frame.

(** A stored confidence: the rounding of the clamping of a value of
    the set [X]. *)
Definition stored (X : pyfloat -> Prop) (f : pyfloat) : Prop :=
  exists x, X x /\ f = Py.round3 (clamp x).

Definition same_name (r r' : restaurant) : Prop :=
  restaurant_id r' = restaurant_id r /\ name r' = name r.

Definition other_run (run : Z) (o : observation) : bool :=
  negb (obs_run_id o =? run).

(** What the statements issued for the items of run [run] may do to the
    tables. *)
Record grows (X : pyfloat -> Prop) (run : Z) (t t' : tables) : Prop := {
  grows_ids :
    forall n id, select_ingredient_id n t = Some id ->
                 select_ingredient_id n t' = Some id;
  grows_obs_keys :
    forall a b c,
      existsb (same_observation a b c)
              (menu_item_ingredient_observations t) = true ->
      existsb (same_observation a b c)
              (menu_item_ingredient_observations t') = true;
  grows_other_runs :
    filter (other_run run) (menu_item_ingredient_observations t')
    = filter (other_run run) (menu_item_ingredient_observations t);
  grows_obs_conf :
    forall o, In o (menu_item_ingredient_observations t') ->
              In o (menu_item_ingredient_observations t)
              \/ stored X (obs_confidence o);
  grows_link_conf :
    forall l, In l (menu_item_ingredients t') ->
              In l (menu_item_ingredients t)
              \/ stored X (link_confidence l);
  grows_restaurants :
    forall k r, nth_error (restaurants t) k = Some r ->
                exists r', nth_error (restaurants t') k = Some r'
                           /\ same_name r r';
  grows_runs : extraction_runs t' = extraction_runs t }.

(** The same for the connection: only the working tables and the
    counters move. *)
Record evolves (X : pyfloat -> Prop) (run : Z) (c c' : conn) : Prop := {
  evolves_committed : committed c' = committed c;
  evolves_faults : faults c' = faults c;
  evolves_clock : clock c' = clock c;
  evolves_open : is_open c' = is_open c;
  evolves_auto_run : auto_run c' = auto_run c;
  evolves_tables : grows X run (working c) (working c') }.

(** The confidences that the batch carries, after [float]. *)
Definition input_confidence (results : list dict) (x : pyfloat) : Prop :=
  exists item rows ing d,
    In item results /\ ingredient_rows item = Ok rows /\ In ing rows
    /\ as_dict ing = Ok d
    /\ Py.float (Py.get d (lit "confidence") (VInt 0)) = Ok x.

End Frame.

Import Frame.

(** ** The head of a run *)

Module Head.

(** The connection once the insert into [extraction_runs] is done. *)
Definition after_insert_run (c : conn) (m pv pipv : option str) : conn :=
  generated_run
    (set_working (tick c)
       (insert_run (clock c (executed c)) (auto_run c) m pv pipv
                   (working c)))
    (auto_run c).

(** The row of [extraction_runs] that a run started on [c] writes. *)
Definition run_row (cfg : config_module) (c : conn)
           (m p v : option str) : extraction_run :=
  {| run_id := auto_run c; model_name := m;
     prompt_version := fst (resolve_versions cfg p v);
     pipeline_version := snd (resolve_versions cfg p v);
     run_created_at := clock c (executed c) |}.

End Head.

Import Head.

(** ** Statements issued and refused *)

Module Audit.

(** Between [c] and [c'] the statements numbered from [executed c] up
    to [executed c'] were issued, and none was refused. *)
Definition issued_clean (c c' : conn) : Prop :=
  faults c' = faults c
  /\ (executed c <= executed c')%nat
  /\ forall n, (executed c <= n < executed c')%nat -> faults c n = None.

(** From [c] on, no statement is refused. *)
Definition quiet (c : conn) : Prop :=
  forall n, (executed c <= n)%nat -> faults c n = None.


End Audit.

Import Audit.

(** ** The snapshot that a batch leaves *)

Module Snapshot.

(** The reconciliation of one item: its rows go, the accumulated pairs
    come. *)
Definition relink (rows : list link) (p : Z * list (Z * pyfloat))
  : list link :=
  filter (fun l => negb (link_item_id l =? fst p)) rows
  ++ map (link_of (fst p)) (snd p).

Definition links_after (rows : list link)
           (plan : list (Z * list (Z * pyfloat))) : list link :=
  fold_left relink plan rows.

(** [p] holds the identifier of [item] and its accumulated pairs, whose
    ingredients are pairwise distinct; the restaurant identifier of
    [item] parses, too. *)
Definition planned (t : tables) (item : dict)
           (p : Z * list (Z * pyfloat)) : Prop :=
  item_id_of item = Ok (fst p) /\ accumulated t item (snd p)
  /\ NoDup (map fst (snd p))
  /\ exists rid, restaurant_id_of item = Ok rid.

(** The row belongs to an item of the plan. *)
Definition touched (plan : list (Z * list (Z * pyfloat))) (l : link) : bool :=
  existsb (fun p => link_item_id l =? fst p) plan.

Definition has_observation (run item ing : Z) (t : tables) : Prop :=
  existsb (same_observation run item ing)
          (menu_item_ingredient_observations t) = true.

End Snapshot.

Import Snapshot.

(** ** Sample inputs *)

Module Sample.

(** An ingredient entry with a name and a confidence. *)
Definition entry (n : string) (conf : Q) : pyval :=
  VDict [(lit "name", VStr (lit n));
         (lit "confidence", VFloat (FFin conf))].

(** The result of the end-to-end scenario. *)
Definition pizza : dict :=
  [(lit "item_id", VInt 1);
   (lit "restaurant_id", VInt 10);
   (lit "item_name", VStr (lit "Margherita Pizza"));
   (lit "ingredients",
    VList [entry "Tomato Sauce" (95 # 100); entry "mozzarella." (8 # 10)]);
   (lit "reasoning", VStr (lit "classic"))].

(** The same item with the list reduced to one ingredient. *)
Definition pizza_reduced : dict :=
  [(lit "item_id", VInt 1);
   (lit "restaurant_id", VInt 10);
   (lit "item_name", VStr (lit "Margherita Pizza"));
   (lit "ingredients", VList [entry "mozzarella." (8 # 10)]);
   (lit "reasoning", VStr (lit "classic"))].

(** A result that names one ingredient twice. *)
Definition twice_tomato : dict :=
  [(lit "item_id", VInt 1);
   (lit "restaurant_id", VInt 10);
   (lit "item_name", VStr (lit "Salad"));
   (lit "ingredients",
    VList [entry "tomato" (9 # 10); entry "Tomato." (5 # 10)]);
   (lit "reasoning", VStr (lit "fresh"))].

(** A result whose item identifier is not a number. *)
Definition bad_id : dict :=
  [(lit "item_id", VStr (lit "abc"));
   (lit "restaurant_id", VInt 10);
   (lit "ingredients", VList [entry "salt" (1 # 2)])].

(** An entry whose name is only punctuation and whose confidence is not
    a number. *)
Definition dots_bad_confidence : pyval :=
  VDict [(lit "name", VStr (lit "..."));
         (lit "confidence", VStr (lit "high"))].

Definition dots_item : dict :=
  [(lit "item_id", VInt 2);
   (lit "restaurant_id", VInt 10);
   (lit "ingredients", VList [dots_bad_confidence])].

(** An entry with a name and no confidence. *)
Definition no_confidence : pyval := VDict [(lit "name", VStr (lit "basil"))].

Definition basil_item : dict :=
  [(lit "item_id", VInt 3);
   (lit "restaurant_id", VInt 10);
   (lit "ingredients", VList [no_confidence])].

(** An empty store behind a fresh connection that refuses nothing. *)
Definition fresh_conn : conn :=
  connect Store.empty 1 1 no_fault (fun n => Z.of_nat n).

Definition gpt : option str := Some (lit "gpt-4o").

End Sample.

(** ** Entries without a canonical key *)

Module Skip.

(** The name of the entry strips to a string whose canonical key is
    empty. *)
Definition empty_key (ing : pyval) : Prop :=
  exists d s,
    as_dict ing = Ok d
    /\ str_strip (Py.or_else (Py.get d (lit "name") VNone) (VStr [])) = Ok s
    /\ canonicalize_ingredient (VStr s) = [].

(** The next three statements on [c] are not refused. *)
Definition accepts3 (c : conn) : Prop :=
  faults c (executed c) = None
  /\ faults c (S (executed c)) = None
  /\ faults c (S (S (executed c))) = None.

End Skip.

Import Skip.

(** ** The canonicalization policy in the words of the specification *)

Module Policy.

(** Collapse any run of whitespace to a single space: a whitespace
    character is dropped when another one follows it and becomes a
    space otherwise. *)
Fixpoint collapse (s : str) : str :=
  match s with
  | [] => []
  | c :: r =>
      if isspace c
      then match r with
           | c' :: _ => if isspace c' then collapse r
                        else " "%char :: collapse r
           | [] => [" "%char]
           end
      else c :: collapse r
  end.

(** Trim, lowercase, collapse, strip the trailing punctuation, trim
    again. *)
Definition canonicalize (raw : str) : str :=
  strip (rstrip_punct (collapse (lower (strip raw)))).

Definition all_space (w : str) : Prop := forallb isspace w = true.

Definition all_punct (p : str) : Prop := forallb is_punct p = true.

(** The string ends with punctuation followed by whitespace. *)
Definition punct_then_space (s : str) : bool :=
  match rev s with
  | c :: _ =>
      isspace c && match lstrip (rev s) with
                   | q :: _ => is_punct q
                   | [] => false
                   end
  | [] => false
  end.

(** Raw strings that differ only in case, in surrounding whitespace, in
    the length or kind of a whitespace run, or in trailing punctuation;
    [attach] tells to which strings punctuation may be appended. *)
Inductive differ_only (attach : str -> Prop) : str -> str -> Prop :=
| differ_case s s' :
    lower s = lower s' -> differ_only attach s s'
| differ_around w1 s w2 :
    all_space w1 -> all_space w2 -> differ_only attach s (w1 ++ s ++ w2)
| differ_run u w1 w2 v :
    all_space w1 -> all_space w2 -> w1 <> [] -> w2 <> [] ->
    differ_only attach (u ++ w1 ++ v) (u ++ w2 ++ v)
| differ_punct s p :
    all_punct p -> attach s -> differ_only attach s (s ++ p)
| differ_refl s : differ_only attach s s
| differ_sym s s' : differ_only attach s s' -> differ_only attach s' s
| differ_trans s1 s2 s3 :
    differ_only attach s1 s2 -> differ_only attach s2 s3 ->
    differ_only attach s1 s3.

(** Punctuation may be appended anywhere. *)
Definition anywhere : str -> Prop := fun _ => True.

(** Punctuation may be appended unless the string already ends with
    punctuation followed by whitespace. *)
Definition attached : str -> Prop := fun s => punct_then_space s = false.

End Policy.

Import Policy.

(** ** Properties of computations on a connection *)

Module Steps.

(** Every outcome of [m] relates the connection before and after
    by [P]. *)
Definition preserves (P : conn -> conn -> Prop) {A : Type} (m : M A)
  : Prop :=
  forall c r c', m c = (r, c') -> P c c'.

(** The same for the outcomes that are not a raise. *)
Definition completes (P : conn -> conn -> Prop) {A : Type} (m : M A)
  : Prop :=
  forall c a c', m c = (Ok a, c') -> P c c'.

(** An accumulated pair whose confidence is the clamping of a value
    of [X]. *)
Definition clamped (X : pyfloat -> Prop) (p : Z * pyfloat) : Prop :=
  exists x, X x /\ snd p = clamp x.

Definition any_confidence : pyfloat -> Prop := fun _ => True.

End Steps.

Import Steps.

(** ** The shape of keys and display names *)

Module Shape.

(** Every whitespace character of the string is a space that no
    whitespace follows. *)
Fixpoint spaced_once (s : str) : bool :=
  match s with
  | [] => true
  | c :: r =>
      (negb (isspace c)
       || (Ascii.eqb c " "%char
           && match r with
              | d :: _ => negb (isspace d)
              | [] => true
              end))
      && spaced_once r
  end.

(** The string ends with one of [. , ; : ! ?]. *)
Definition ends_with_punct (s : str) : bool :=
  match rev s with
  | c :: _ => is_punct c
  | [] => false
  end.

(** None of the three letters whose title case is not one Latin-1
    character: the micro sign, the sharp s and the y with
    diaeresis. *)
Definition titles_in_latin1 (s : str) : bool :=
  forallb (fun c => negb ((ord c =? 181) || (ord c =? 223) || (ord c =? 255)))
          s.

End Shape.

Import Shape.

(** ** Keys and references of the tables *)

Module Integrity.

Definition observation_key (o : observation) : Z * Z * Z :=
  (obs_run_id o, obs_item_id o, obs_ingredient_id o).

Definition link_key (l : link) : Z * Z :=
  (link_item_id l, link_ingredient_id l).

(** No table holds two rows with the same key. *)
Record keyed (t : tables) : Prop := {
  keyed_runs : NoDup (map run_id (extraction_runs t));
  keyed_restaurants : NoDup (map restaurant_id (restaurants t));
  keyed_items : NoDup (map item_id (menu_items t));
  keyed_names : NoDup (map canonical_name (ingredients t));
  keyed_ingredients : NoDup (map ingredient_id (ingredients t));
  keyed_observations :
    NoDup (map observation_key (menu_item_ingredient_observations t));
  keyed_links : NoDup (map link_key (menu_item_ingredients t)) }.

(** Every identifier that a row mentions is the key of a row of the
    table it points to. *)
Record referenced (t : tables) : Prop := {
  item_restaurant :
    forall r, In r (menu_items t) ->
              In (item_restaurant_id r) (map restaurant_id (restaurants t));
  observation_run :
    forall o, In o (menu_item_ingredient_observations t) ->
              In (obs_run_id o) (map run_id (extraction_runs t));
  observation_item :
    forall o, In o (menu_item_ingredient_observations t) ->
              In (obs_item_id o) (map item_id (menu_items t));
  observation_ingredient :
    forall o, In o (menu_item_ingredient_observations t) ->
              In (obs_ingredient_id o) (map ingredient_id (ingredients t));
  link_item :
    forall l, In l (menu_item_ingredients t) ->
              In (link_item_id l) (map item_id (menu_items t));
  link_ingredient :
    forall l, In l (menu_item_ingredients t) ->
              In (link_ingredient_id l) (map ingredient_id (ingredients t)) }.

(** The generated keys of [t] are below the counters of [c]. *)
Record numbered (t : tables) (c : conn) : Prop := {
  numbered_runs :
    Forall (fun r => run_id r < auto_run c) (extraction_runs t);
  numbered_ingredients :
    Forall (fun r => ingredient_id r < auto_ingredient c) (ingredients t) }.

Definition intact (t : tables) (c : conn) : Prop :=
  keyed t /\ referenced t /\ numbered t c.

(** Both the open transaction and the committed tables are intact. *)
Definition sound (c : conn) : Prop :=
  intact (working c) c /\ intact (committed c) c.

(** Every key of [t] is a key of [t']. *)
Record widens (t t' : tables) : Prop := {
  widens_runs :
    incl (map run_id (extraction_runs t)) (map run_id (extraction_runs t'));
  widens_restaurants :
    incl (map restaurant_id (restaurants t))
         (map restaurant_id (restaurants t'));
  widens_items :
    incl (map item_id (menu_items t)) (map item_id (menu_items t'));
  widens_ingredients :
    incl (map ingredient_id (ingredients t))
         (map ingredient_id (ingredients t')) }.

(** The runs [rs], restaurants [qs], items [ms] and ingredients [gs]
    have a row in [t]. *)
Record known (rs qs ms gs : list Z) (t : tables) : Prop := {
  known_runs : incl rs (map run_id (extraction_runs t));
  known_restaurants : incl qs (map restaurant_id (restaurants t));
  known_items : incl ms (map item_id (menu_items t));
  known_ingredients : incl gs (map ingredient_id (ingredients t)) }.

(** The open transaction is intact and holds the rows that the
    statements to come refer to. *)
Definition ready (rs qs ms gs : list Z) (c : conn) : Prop :=
  intact (working c) c /\ known rs qs ms gs (working c).

(** From a connection that satisfies [Pre], [m] returns [a] on a
    connection that satisfies [Post a], or raises on one that satisfies
    [Exc]. *)
Definition hoare {A : Type} (Pre : conn -> Prop) (m : M A)
           (Post : A -> conn -> Prop) (Exc : conn -> Prop) : Prop :=
  forall c, Pre c ->
            match m c with
            | (Ok a, c') => Post a c'
            | (Raise _, c') => Exc c'
            end.

(** The counters do not go back and the committed tables stay. *)
Definition advances (c c' : conn) : Prop :=
  committed c' = committed c
  /\ auto_run c <= auto_run c'
  /\ auto_ingredient c <= auto_ingredient c'.

(** The menu item that a result writes at time [now]. *)
Definition item_row (item : dict) (iid rid now : Z) : menu_item :=
  {| item_id := iid; item_restaurant_id := rid;
     item_name := Py.or_else (Py.get item (lit "item_name") VNone)
                             (VStr []);
     reasoning := Py.get item (lit "reasoning") VNone;
     item_updated_at := now |}.

Definition find_item (iid : Z) (t : tables) : option menu_item :=
  find (fun r => item_id r =? iid) (menu_items t).

(** A result that a run can store: its two identifiers parse, its
    ingredient entries convert, and no two of the entries that are
    kept have the same canonical name. *)
Definition storable (item : dict) : Prop :=
  (exists iid, item_id_of item = Ok iid)
  /\ (exists rid, restaurant_id_of item = Ok rid)
  /\ exists rows es,
      ingredient_rows item = Ok rows /\ kept_entries rows = Some es
      /\ NoDup (map (fun e => fst (fst e)) es).

End Integrity.

Import Integrity.

(** ** pipeline.py *)

Module Pipeline.

(** [range(start, stop, step)] for a positive [step], produced as the
    loop consumes it; [stop] iterations are enough. *)
Fixpoint range_from (fuel start stop step : nat) : list nat :=
  match fuel with
  | O => []
  | S fuel' =>
      if (start <? stop)%nat
      then start :: range_from fuel' (start + step) stop step
      else []
  end.

Definition range (stop step : nat) : list nat :=
  range_from stop 0 stop step.

(** [l[lo:hi]] for bounds that are not negative. *)
Definition slice {A : Type} (l : list A) (lo hi : nat) : list A :=
  firstn (hi - lo) (skipn lo l).

(** The chunks that the loop of [main] cuts the batch into:
    [chunk_size = max(1, args.chunk_size)] and
    [batch[start : start + chunk_size]] for
    [start in range(0, len(batch), chunk_size)]. *)
Definition chunks {A : Type} (chunk_size : Z) (batch : list A)
  : list (list A) :=
  let chunk_size := Z.to_nat (Z.max 1 chunk_size) in
  map (fun start => slice batch start (start + chunk_size))
      (range (List.length batch) chunk_size).

(** The arguments of the command line that [main] uses after
    parsing. *)
Record args : Type := {
  chunk_size : Z;
  model : str;
  arg_prompt_version : option str;
  arg_pipeline_version : option str }.

Section Main.

(** A row of the menu table. *)
Variable row : Type.

(** [extract_ingredients(build_menu_items_text(chunk), model=...)] at
    the call of the given number: what the service answers, with
    objects as items, or the error raised. *)
Variable extract_ingredients : nat -> list row -> result (list dict).

(** The loop over the chunks; [results] is the list extended so far
    and [n] the number of calls made. *)
Fixpoint extract_chunks (n : nat) (cs : list (list row))
         (results : list dict) : result (list dict) :=
  match cs with
  | [] => Ok results
  | chunk :: rest =>
      match extract_ingredients n chunk with
      | Ok chunk_results =>
          extract_chunks (S n) rest (results ++ chunk_results)
      | Raise e => Raise e
      end
  end.

(** [main()] after the parsing of the arguments: the exit code and,
    when a connection was opened, the connection as it is left.
    [is_file] tells whether the SQLite file exists, [batch] is what
    [load_menu_batch] returns or raises, [connection] what
    [mysql.connector.connect] does. *)
Definition main (cfg : config_module) (a : args) (is_file : bool)
           (batch : result (list row)) (connection : result conn)
  : Z * option conn :=
  if negb is_file then (1, None)
  else
    match batch with
    | Raise _ => (1, None)
    | Ok batch =>
        match batch with
        | [] => (0, None)
        | _ :: _ =>
            match extract_chunks 0 (chunks (chunk_size a) batch) [] with
            | Raise _ => (1, None)
            | Ok results =>
                match connection with
                | Raise _ => (1, None)
                | Ok c =>
                    match run_with_transaction
                            cfg results (Some (model a))
                            (arg_prompt_version a) (arg_pipeline_version a)
                            None c
                    with
                    | (Ok _, c') => (0, Some c')
                    | (Raise _, c') => (1, Some c')
                    end
                end
            end
        end
    end.

End Main.

End Pipeline.

(** ** Sample runs of the pipeline *)

Module Trial.

(** A service that answers the first call with the pizza and the later
    ones with the basil item. *)
Definition answers (n : nat) (chunk : list nat) : result (list dict) :=
  Ok (if (n =? 0)%nat then [Sample.pizza] else [Sample.basil_item]).

(** A service that fails at its second call. *)
Definition fails_second (n : nat) (chunk : list nat) : result (list dict) :=
  if (n =? 1)%nat then Raise ValueError else Ok [Sample.pizza].

(** One item per call. *)
Definition one_by_one : Pipeline.args :=
  {| Pipeline.chunk_size := 1;
     Pipeline.model := lit "gpt-4o";
     Pipeline.arg_prompt_version := None;
     Pipeline.arg_pipeline_version := None |}.


(** The connection that the pizza run leaves. *)
Definition after_pizza : conn :=
  snd (write_run NoConfig [Sample.pizza] Sample.gpt None None
                 Sample.fresh_conn).

End Trial.

(** * Properties *)

(** ** Reasoning about computations on a connection *)

Lemma bind_ok {A B : Type} (m : M A) (k : A -> M B) c b c' :
  bind m k c = (Ok b, c') ->
  exists a c1, m c = (Ok a, c1) /\ k a c1 = (Ok b, c').
Proof.
  unfold bind. destruct (m c) as [[a|e] c1]; intros H.
  - exists a, c1. split; [reflexivity | exact H].
  - discriminate H.
Qed.

Lemma lift_ok {A : Type} (r : result A) c a c' :
  lift r c = (Ok a, c') -> r = Ok a /\ c' = c.
Proof. unfold lift. intros H. inversion H. split; reflexivity. Qed.

Lemma execute_ok {A : Type} (stmt : Z -> conn -> A * conn) c a c' :
  execute stmt c = (Ok a, c') ->
  faults c (executed c) = None
  /\ stmt (clock c (executed c)) (tick c) = (a, c').
Proof.
  unfold execute. cbn.
  destruct (faults c (executed c)) as [e|]; [discriminate|].
  destruct (stmt _ _) as [a0 c0]. intros H. inversion H. auto.
Qed.

Lemma update_ok (f : Z -> tables -> tables) c u c' :
  update f c = (Ok u, c') ->
  faults c (executed c) = None
  /\ c' = set_working (tick c) (f (clock c (executed c)) (working c)).
Proof.
  unfold update. intros H. apply execute_ok in H. destruct H as [H1 H2].
  split; [exact H1|]. inversion H2. reflexivity.
Qed.

(** A relation between the connection before and after that every step
    of a computation respects. *)
Section Preserved.

Variable P : conn -> conn -> Prop.
Hypothesis P_refl : forall c, P c c.
Hypothesis P_trans : forall a b c, P a b -> P b c -> P a c.

Lemma preserves_ret {A : Type} (a : A) : preserves P (ret a).
Proof. intros c r c' H. inversion H. apply P_refl. Qed.

Lemma preserves_raise {A : Type} (e : exn) : preserves P (@raise A e).
Proof. intros c r c' H. inversion H. apply P_refl. Qed.

Lemma preserves_lift {A : Type} (x : result A) : preserves P (lift x).
Proof. intros c r c' H. inversion H. apply P_refl. Qed.

Lemma preserves_bind {A B : Type} (m : M A) (k : A -> M B) :
  preserves P m -> (forall a, preserves P (k a)) -> preserves P (bind m k).
Proof.
  intros Hm Hk c r c'. unfold bind.
  destruct (m c) as [[a|e] c1] eqn:E; intros H.
  - eapply P_trans; [eapply Hm; exact E | eapply Hk; exact H].
  - inversion H. subst. eapply Hm. exact E.
Qed.

Lemma preserves_for_each {A S : Type} (body : S -> A -> M S) l :
  (forall s x, In x l -> preserves P (body s x)) ->
  forall s, preserves P (for_each body l s).
Proof.
  induction l as [|x l IH]; intros Hb s; cbn [for_each].
  - apply preserves_ret.
  - apply preserves_bind.
    + apply Hb. left. reflexivity.
    + intros s'. apply IH. intros s0 y Hy. apply Hb. right. exact Hy.
Qed.

Lemma preserves_execute {A : Type} (stmt : Z -> conn -> A * conn) :
  (forall c, P c (tick c)) ->
  (forall now c, P c (snd (stmt now c))) ->
  preserves P (execute stmt).
Proof.
  intros Ht Hs c r c'. unfold execute. cbn.
  destruct (faults c (executed c)) as [e|].
  - intros H. inversion H. apply Ht.
  - destruct (stmt _ _) as [a c0] eqn:E. intros H. inversion H. subst.
    eapply P_trans; [apply Ht|].
    specialize (Hs (clock c (executed c)) (tick c)). rewrite E in Hs.
    exact Hs.
Qed.

Lemma preserves_insert_link item ing conf :
  (forall c, P c (tick c)) ->
  (forall c t, insert_link item ing conf (working c) = Some t ->
               P c (set_working c t)) ->
  preserves P (execute_insert_link item ing conf).
Proof.
  intros Ht Hs c r c'. unfold execute_insert_link. cbn.
  destruct (faults c (executed c)) as [e|].
  - intros H. inversion H. apply Ht.
  - destruct (insert_link _ _ _ _) as [t|] eqn:E; intros H; inversion H.
    + eapply P_trans; [apply Ht|]. apply (Hs (tick c)). exact E.
    + apply Ht.
Qed.

End Preserved.

(** ** Strings: equality test *)

Lemma str_eqb_eq (a b : str) : PyStr.eqb a b = true <-> a = b.
Proof.
  revert b. induction a as [|x a IH]; intros [|y b]; cbn; split;
    try discriminate; try reflexivity.
  - intros H. apply andb_true_iff in H. destruct H as [H1 H2].
    apply Ascii.eqb_eq in H1. apply IH in H2. subst. reflexivity.
  - intros H. inversion H. subst. apply andb_true_iff. split.
    + apply Ascii.eqb_refl.
    + apply IH. reflexivity.
Qed.

Lemma str_eqb_refl (a : str) : PyStr.eqb a a = true.
Proof. apply str_eqb_eq. reflexivity. Qed.

(** ** The statements, one table at a time *)

Section UpsertFacts.

Context {A : Type}.
Variables (same_key : A -> bool) (change : A -> A) (fresh : A).

Lemma upsert_in x rows :
  In x (upsert same_key change fresh rows) ->
  In x rows \/ x = fresh
  \/ exists r, In r rows /\ same_key r = true /\ x = change r.
Proof.
  induction rows as [|r rows IH]; cbn.
  - intros [H|[]]. right. left. symmetry. exact H.
  - destruct (same_key r) eqn:E; cbn.
    + intros [H|H].
      * right. right. exists r. auto.
      * left. right. exact H.
    + intros [H|H].
      * left. left. exact H.
      * destruct (IH H) as [H1|[H1|[r0 [H1 [H2 H3]]]]].
        -- left. right. exact H1.
        -- right. left. exact H1.
        -- right. right. exists r0. auto.
Qed.

Lemma upsert_absent rows :
  existsb same_key rows = false ->
  upsert same_key change fresh rows = rows ++ [fresh].
Proof.
  induction rows as [|r rows IH]; cbn; [reflexivity|].
  destruct (same_key r); cbn; [discriminate|].
  intros H. rewrite IH by exact H. reflexivity.
Qed.

Lemma upsert_present rows :
  existsb same_key rows = true ->
  List.length (upsert same_key change fresh rows) = List.length rows.
Proof.
  induction rows as [|r rows IH]; cbn; [discriminate|].
  destruct (same_key r); cbn; [reflexivity|].
  intros H. rewrite IH by exact H. reflexivity.
Qed.

(** A test that the change of a row does not affect keeps its first
    match, up to that change. *)
Lemma upsert_find (q : A -> bool) rows r :
  (forall x, same_key x = true -> q (change x) = q x) ->
  find q rows = Some r ->
  exists r', find q (upsert same_key change fresh rows) = Some r'
             /\ (r' = r \/ (same_key r = true /\ r' = change r)).
Proof.
  intros Hq. induction rows as [|x rows IH]; cbn; [discriminate|].
  destruct (same_key x) eqn:Ek; cbn.
  - rewrite (Hq x Ek). destruct (q x) eqn:Eq.
    + intros H. inversion H. subst. exists (change r). auto.
    + intros H. exists r. auto.
  - destruct (q x) eqn:Eq.
    + intros H. inversion H. subst. exists r. auto.
    + exact IH.
Qed.

Lemma upsert_existsb (q : A -> bool) rows :
  (forall x, same_key x = true -> q (change x) = q x) ->
  existsb q rows = true ->
  existsb q (upsert same_key change fresh rows) = true.
Proof.
  intros Hq. induction rows as [|x rows IH]; cbn; [discriminate|].
  destruct (same_key x) eqn:Ek; cbn.
  - rewrite (Hq x Ek). auto.
  - destruct (q x); cbn; auto.
Qed.

Lemma upsert_existsb_self (q : A -> bool) rows :
  q fresh = true ->
  (forall x, same_key x = true -> q (change x) = true) ->
  existsb q (upsert same_key change fresh rows) = true.
Proof.
  intros Hf Hq. induction rows as [|x rows IH]; cbn.
  - rewrite Hf. reflexivity.
  - destruct (same_key x) eqn:Ek; cbn.
    + rewrite (Hq x Ek). reflexivity.
    + rewrite IH. apply orb_true_r.
Qed.

(** Rows that a filter lets through and that the upsert cannot touch. *)
Lemma upsert_filter_out (q : A -> bool) rows :
  q fresh = false ->
  (forall x, same_key x = true -> q x = false /\ q (change x) = false) ->
  filter q (upsert same_key change fresh rows) = filter q rows.
Proof.
  intros Hf Hq. induction rows as [|x rows IH]; cbn.
  - rewrite Hf. reflexivity.
  - destruct (same_key x) eqn:Ek; cbn.
    + destruct (Hq x Ek) as [H1 H2]. rewrite H1, H2. reflexivity.
    + rewrite IH. reflexivity.
Qed.

Lemma upsert_nth (R : A -> A -> Prop) rows :
  (forall x, R x x) ->
  (forall x, same_key x = true -> R x (change x)) ->
  forall k r, nth_error rows k = Some r ->
  exists r', nth_error (upsert same_key change fresh rows) k = Some r'
             /\ R r r'.
Proof.
  intros Hr Hc. induction rows as [|x rows IH]; intros k r.
  - destruct k; discriminate.
  - cbn. destruct (same_key x) eqn:Ek.
    + destruct k; cbn.
      * intros H. inversion H. subst. exists (change r). auto.
      * intros H. exists r. auto.
    + destruct k; cbn.
      * intros H. inversion H. subst. exists r. auto.
      * apply IH.
Qed.

End UpsertFacts.

(** ** What each statement does to the tables *)

Section Grows.

Variable X : pyfloat -> Prop.
Variable run : Z.

Lemma grows_refl t : grows X run t t.
Proof.
  constructor; auto.
  intros k r H. exists r. split; [exact H | split; reflexivity].
Qed.

Lemma grows_trans t1 t2 t3 :
  grows X run t1 t2 -> grows X run t2 t3 -> grows X run t1 t3.
Proof.
  intros [a1 b1 c1 d1 e1 f1 g1] [a2 b2 c2 d2 e2 f2 g2]. constructor.
  - auto.
  - auto.
  - congruence.
  - intros o H. destruct (d2 o H) as [H1|H1]; auto.
  - intros l H. destruct (e2 l H) as [H1|H1]; auto.
  - intros k r H. destruct (f1 k r H) as [r1 [H1 [Ha Hb]]].
    destruct (f2 k r1 H1) as [r2 [H2 [Hc Hd]]].
    exists r2. split; [exact H2|]. split; congruence.
  - congruence.
Qed.

Lemma evolves_refl c : evolves X run c c.
Proof. constructor; auto using grows_refl. Qed.

Lemma evolves_trans c1 c2 c3 :
  evolves X run c1 c2 -> evolves X run c2 c3 -> evolves X run c1 c3.
Proof.
  intros [a1 b1 d1 e1 f1 g1] [a2 b2 d2 e2 f2 g2].
  constructor; try congruence. eapply grows_trans; eassumption.
Qed.

Lemma evolves_tick c : evolves X run c (tick c).
Proof. constructor; auto using grows_refl. Qed.

Lemma evolves_set_working c t :
  grows X run (working c) t -> evolves X run c (set_working c t).
Proof. intros H. constructor; auto. Qed.

Lemma grows_upsert_restaurant now rid t :
  grows X run t (upsert_restaurant now rid t).
Proof.
  destruct t as [rs re mi ig ob lk].
  constructor; cbn; auto.
  intros k r H.
  eapply upsert_nth with (R := same_name); [ | | exact H].
  - intros x. split; reflexivity.
  - intros x _. split; reflexivity.
Qed.

Lemma grows_upsert_menu_item now iid rid nm rs t :
  grows X run t (upsert_menu_item now iid rid nm rs t).
Proof.
  destruct t as [ru re mi ig ob lk].
  constructor; cbn; auto.
  intros k r H. exists r. split; [exact H | split; reflexivity].
Qed.

Lemma select_upsert_ingredient_stable id0 c d t n id :
  select_ingredient_id n t = Some id ->
  select_ingredient_id n (upsert_ingredient id0 c d t) = Some id.
Proof.
  destruct t as [ru re mi ig ob lk]. unfold select_ingredient_id. cbn.
  destruct (find (has_canonical n) ig) as [r|] eqn:E; [|discriminate].
  cbn. intros H. inversion H. subst.
  eapply upsert_find in E.
  - destruct E as [r' [E1 E2]]. rewrite E1. cbn.
    destruct E2 as [E2|[_ E2]]; subst; reflexivity.
  - intros x _. reflexivity.
Qed.

Lemma grows_upsert_ingredient id0 c d t :
  grows X run t (upsert_ingredient id0 c d t).
Proof.
  constructor; try (destruct t; cbn; auto; fail).
  - intros n id. apply select_upsert_ingredient_stable.
  - destruct t. cbn. intros k r H. exists r.
    split; [exact H | split; reflexivity].
Qed.

Lemma grows_upsert_observation now item ing x t :
  X x ->
  grows X run t (upsert_observation now run item ing (Py.round3 (clamp x)) t).
Proof.
  intros HX. destruct t as [ru re mi ig ob lk].
  constructor; cbn; auto.
  - intros a b c. apply upsert_existsb.
    intros o Ho. unfold same_observation in *. cbn.
    apply andb_true_iff in Ho. destruct Ho as [Ho H3].
    apply andb_true_iff in Ho. destruct Ho as [H1 H2].
    apply Z.eqb_eq in H1, H2, H3. rewrite H1, H2, H3. reflexivity.
  - apply upsert_filter_out.
    + unfold other_run. cbn. rewrite Z.eqb_refl. reflexivity.
    + intros o Ho. unfold same_observation in Ho. unfold other_run. cbn.
      apply andb_true_iff in Ho. destruct Ho as [Ho _].
      apply andb_true_iff in Ho. destruct Ho as [H1 _].
      rewrite H1, Z.eqb_refl. auto.
  - intros o H. apply upsert_in in H.
    destruct H as [H|[H|[r [_ [_ H]]]]].
    + left. exact H.
    + right. subst o. cbn. exists x. auto.
    + right. subst o. cbn. exists x. auto.
  - intros k r H. exists r. split; [exact H | split; reflexivity].
Qed.

Lemma grows_delete_links item t : grows X run t (delete_links item t).
Proof.
  destruct t as [ru re mi ig ob lk].
  constructor; cbn; auto.
  - intros l H. apply filter_In in H. left. apply H.
  - intros k r H. exists r. split; [exact H | split; reflexivity].
Qed.

Lemma grows_insert_link item ing x t t' :
  X x ->
  insert_link item ing (Py.round3 (clamp x)) t = Some t' ->
  grows X run t t'.
Proof.
  intros HX. destruct t as [ru re mi ig ob lk]. unfold insert_link. cbn.
  destruct (existsb _ lk); [discriminate|]. intros H. inversion H. subst.
  constructor; cbn; auto.
  - intros l Hl. apply in_app_or in Hl. destruct Hl as [Hl|[Hl|[]]].
    + left. exact Hl.
    + right. subst l. cbn. exists x. auto.
  - intros k r Hk. exists r. split; [exact Hk | split; reflexivity].
Qed.

End Grows.

(** ** The steps of a run respect the frame *)

Section PreservedPost.

Variable P : conn -> conn -> Prop.
Hypothesis P_refl : forall c, P c c.
Hypothesis P_trans : forall a b c, P a b -> P b c -> P a c.

Lemma preserves_bind_post {A B : Type} (Q : A -> Prop) (m : M A)
      (k : A -> M B) :
  preserves P m ->
  (forall c a c', m c = (Ok a, c') -> Q a) ->
  (forall a, Q a -> preserves P (k a)) ->
  preserves P (bind m k).
Proof.
  intros Hm HQ Hk c r c'. unfold bind.
  destruct (m c) as [[a|e] c1] eqn:E; intros H.
  - eapply P_trans; [eapply Hm; exact E|].
    eapply Hk; [eapply HQ; exact E | exact H].
  - inversion H. subst. eapply Hm. exact E.
Qed.

End PreservedPost.

Lemma for_each_post {A S : Type} (body : S -> A -> M S) (Inv : S -> Prop) l :
  (forall s x c s' c',
      In x l -> Inv s -> body s x c = (Ok s', c') -> Inv s') ->
  forall s c s' c',
    Inv s -> for_each body l s c = (Ok s', c') -> Inv s'.
Proof.
  induction l as [|x l IH]; intros Hb s c s' c' Hs; cbn [for_each].
  - intros H. inversion H. subst. exact Hs.
  - intros H. apply bind_ok in H. destruct H as [s1 [c1 [H1 H2]]].
    eapply IH; [ | | exact H2].
    + intros s0 y c0 s0' c0' Hy. apply Hb. right. exact Hy.
    + eapply Hb; [left; reflexivity | exact Hs | exact H1].
Qed.

Section Evolves.

Variable X : pyfloat -> Prop.
Variable run : Z.

Let E := evolves X run.

Lemma evolves_update (f : Z -> tables -> tables) :
  (forall now t, grows X run t (f now t)) -> preserves E (update f).
Proof.
  intros Hf. unfold update.
  apply preserves_execute.
  - apply evolves_trans.
  - apply evolves_tick.
  - intros now c. cbn. apply evolves_set_working. apply Hf.
Qed.

Lemma evolves_upsert_ingredient canonical display :
  preserves E (execute_upsert_ingredient canonical display).
Proof.
  unfold execute_upsert_ingredient. apply preserves_execute.
  - apply evolves_trans.
  - apply evolves_tick.
  - intros now c. destruct (ingredient_exists canonical (working c)); cbn.
    + apply evolves_set_working. apply grows_upsert_ingredient.
    + constructor; cbn; auto. apply grows_upsert_ingredient.
Qed.

Lemma evolves_select_ingredient canonical :
  preserves E (execute_select_ingredient canonical).
Proof.
  unfold execute_select_ingredient. apply preserves_execute.
  - apply evolves_trans.
  - apply evolves_tick.
  - intros now c. cbn. apply evolves_refl.
Qed.

Lemma evolves_ingredient_step item seen ing :
  (forall d x, as_dict ing = Ok d ->
               Py.float (Py.get d (lit "confidence") (VInt 0)) = Ok x ->
               X x) ->
  preserves E (ingredient_step run item seen ing).
Proof.
  intros HX. unfold ingredient_step.
  apply preserves_bind_post with (Q := fun d => as_dict ing = Ok d).
  - apply evolves_trans.
  - apply preserves_lift. apply evolves_refl.
  - intros c d c' H. apply lift_ok in H. apply H.
  - intros d Hd. apply preserves_bind.
    + apply evolves_trans.
    + apply preserves_lift. apply evolves_refl.
    + intros nm. destruct (is_empty nm).
      * apply preserves_ret. apply evolves_refl.
      * apply preserves_bind_post
          with (Q := fun x => Py.float (Py.get d (lit "confidence") (VInt 0))
                              = Ok x).
        -- apply evolves_trans.
        -- apply preserves_lift. apply evolves_refl.
        -- intros c x c' H. apply lift_ok in H. apply H.
        -- intros x Hx.
           destruct (is_empty (canonicalize_ingredient (VStr nm))).
           ++ apply preserves_ret. apply evolves_refl.
           ++ apply preserves_bind; [apply evolves_trans | | ].
              ** apply evolves_upsert_ingredient.
              ** intros _. apply preserves_bind; [apply evolves_trans | | ].
                 --- apply evolves_select_ingredient.
                 --- intros [id|].
                     +++ apply preserves_bind; [apply evolves_trans | | ].
                         *** apply evolves_update. intros now t.
                             apply grows_upsert_observation.
                             eapply HX; eassumption.
                         *** intros _. apply preserves_ret.
                             apply evolves_refl.
                     +++ apply preserves_raise. apply evolves_refl.
Qed.

Lemma ingredient_step_clamped item seen ing c seen' c' :
  (forall d x, as_dict ing = Ok d ->
               Py.float (Py.get d (lit "confidence") (VInt 0)) = Ok x ->
               X x) ->
  Forall (clamped X) seen ->
  ingredient_step run item seen ing c = (Ok seen', c') ->
  Forall (clamped X) seen'.
Proof.
  intros HX Hs. unfold ingredient_step. intros H.
  apply bind_ok in H. destruct H as [d [c1 [H1 H]]].
  apply lift_ok in H1. destruct H1 as [Hd _].
  apply bind_ok in H. destruct H as [nm [c2 [_ H]]].
  destruct (is_empty nm).
  { inversion H. subst. exact Hs. }
  apply bind_ok in H. destruct H as [x [c3 [H3 H]]].
  apply lift_ok in H3. destruct H3 as [Hx _].
  destruct (is_empty (canonicalize_ingredient (VStr nm))).
  { inversion H. subst. exact Hs. }
  apply bind_ok in H. destruct H as [u [c4 [_ H]]].
  apply bind_ok in H. destruct H as [row [c5 [_ H]]].
  destruct row as [id|]; [|discriminate H].
  apply bind_ok in H. destruct H as [u' [c6 [_ H]]].
  inversion H. subst.
  apply Forall_app. split; [exact Hs|].
  constructor; [|constructor].
  exists x. split; [eapply HX; eassumption | reflexivity].
Qed.

Lemma evolves_link_step item p :
  clamped X p -> preserves E (link_step item tt p).
Proof.
  intros [x [HX Hp]]. unfold link_step. rewrite Hp.
  apply preserves_insert_link.
  - apply evolves_trans.
  - apply evolves_tick.
  - intros c t H. apply evolves_set_working.
    eapply grows_insert_link; eassumption.
Qed.

Lemma evolves_item_step item :
  (forall rows ing d x,
      ingredient_rows item = Ok rows -> In ing rows -> as_dict ing = Ok d ->
      Py.float (Py.get d (lit "confidence") (VInt 0)) = Ok x -> X x) ->
  preserves E (item_step run tt item).
Proof.
  intros HX. unfold item_step.
  apply preserves_bind; [apply evolves_trans | | ].
  { apply preserves_lift. apply evolves_refl. }
  intros iid.
  apply preserves_bind; [apply evolves_trans | | ].
  { apply preserves_lift. apply evolves_refl. }
  intros rid.
  apply preserves_bind; [apply evolves_trans | | ].
  { apply evolves_update. intros now t. apply grows_upsert_restaurant. }
  intros _.
  apply preserves_bind; [apply evolves_trans | | ].
  { apply evolves_update. intros now t. apply grows_upsert_menu_item. }
  intros _.
  apply preserves_bind_post
    with (Q := fun rows => ingredient_rows item = Ok rows).
  { apply evolves_trans. }
  { apply preserves_lift. apply evolves_refl. }
  { intros c rows c' H. apply lift_ok in H. apply H. }
  intros rows Hrows.
  apply preserves_bind_post with (Q := Forall (clamped X)).
  { apply evolves_trans. }
  { apply preserves_for_each.
    - apply evolves_refl.
    - apply evolves_trans.
    - intros s ing Hin. apply evolves_ingredient_step.
      intros d x. apply (HX rows ing d x Hrows Hin). }
  { intros c seen c' H.
    eapply for_each_post with (Inv := Forall (clamped X)); [ | | exact H].
    - intros s ing c0 s' c0' Hin Hs Hstep.
      eapply ingredient_step_clamped; [ | exact Hs | exact Hstep].
      intros d x. apply (HX rows ing d x Hrows Hin).
    - constructor. }
  intros seen Hseen.
  apply preserves_bind; [apply evolves_trans | | ].
  { apply evolves_update. intros now t. apply grows_delete_links. }
  intros _.
  apply preserves_for_each.
  - apply evolves_refl.
  - apply evolves_trans.
  - intros [] p Hp. apply evolves_link_step.
    rewrite Forall_forall in Hseen. apply Hseen. exact Hp.
Qed.

End Evolves.

Lemma evolves_items run results :
  preserves (evolves (input_confidence results) run)
            (for_each (item_step run) results tt).
Proof.
  apply preserves_for_each.
  - apply evolves_refl.
  - apply evolves_trans.
  - intros [] item Hin. apply evolves_item_step.
    intros rows ing d x H1 H2 H3 H4.
    exists item, rows, ing, d. auto.
Qed.

Lemma execute_insert_run_eq m pv pipv c :
  execute_insert_run m pv pipv c
  = match faults c (executed c) with
    | Some e => (Raise e, tick c)
    | None => (Ok (auto_run c), after_insert_run c m pv pipv)
    end.
Proof.
  unfold execute_insert_run, execute, after_insert_run. cbn.
  destruct (faults c (executed c)); reflexivity.
Qed.

Lemma execute_last_insert_id_eq c :
  execute_last_insert_id c
  = match faults c (executed c) with
    | Some e => (Raise e, tick c)
    | None => (Ok (last_insert_id c), tick c)
    end.
Proof.
  unfold execute_last_insert_id, execute. cbn.
  destruct (faults c (executed c)); reflexivity.
Qed.

(** The run, decomposed: the insert of the run row, perhaps the query
    of the generated key, then the loop over the items. *)
Lemma write_run_cases cfg results m p v c r c' :
  write_run cfg results m p v c = (r, c') ->
  let c0 := after_insert_run c m (fst (resolve_versions cfg p v))
                             (snd (resolve_versions cfg p v)) in
  (exists e, r = Raise e /\ (c' = tick c \/ c' = tick c0))
  \/ (faults c (executed c) = None
      /\ exists c1 r1,
        (c1 = c0 \/ c1 = tick c0)
        /\ for_each (item_step (auto_run c)) results tt c1 = (r1, c')
        /\ r = match r1 with
               | Ok _ => Ok (auto_run c)
               | Raise e => Raise e
               end).
Proof.
  unfold write_run.
  destruct (resolve_versions cfg p v) as [pv pipv]. cbn [fst snd].
  unfold bind at 1. rewrite execute_insert_run_eq.
  destruct (faults c (executed c)) as [e|] eqn:Ef.
  { intros H. inversion H. left. exists e. auto. }
  set (c0 := after_insert_run c m pv pipv).
  unfold bind at 1.
  destruct (auto_run c =? 0) eqn:Ez.
  - rewrite execute_last_insert_id_eq.
    destruct (faults c0 (executed c0)) as [e|] eqn:Ef0.
    { intros H. inversion H. left. exists e. auto. }
    apply Z.eqb_eq in Ez.
    replace (last_insert_id c0) with (auto_run c) by reflexivity.
    unfold bind.
    destruct (for_each _ results tt (tick c0)) as [[u|e] c2] eqn:El;
      intros H; inversion H; subst r c'; right; (split; [reflexivity|]);
      exists (tick c0); eexists; (split; [right; reflexivity|]);
      (split; [exact El | reflexivity]).
  - unfold ret at 1. unfold bind.
    destruct (for_each _ results tt c0) as [[u|e] c2] eqn:El;
      intros H; inversion H; subst r c'; right; (split; [reflexivity|]);
      exists c0; eexists; (split; [left; reflexivity|]);
      (split; [exact El | reflexivity]).
Qed.

(** ** A completed computation met no refusal *)

Section Completed.

Variable P : conn -> conn -> Prop.
Hypothesis P_refl : forall c, P c c.
Hypothesis P_trans : forall a b c, P a b -> P b c -> P a c.

Lemma completes_ret {A : Type} (a : A) : completes P (ret a).
Proof. intros c r c' H. inversion H. apply P_refl. Qed.

Lemma completes_raise {A : Type} (e : exn) : completes P (@raise A e).
Proof. intros c r c' H. discriminate H. Qed.

Lemma completes_lift {A : Type} (x : result A) : completes P (lift x).
Proof. intros c r c' H. inversion H. apply P_refl. Qed.

Lemma completes_bind {A B : Type} (m : M A) (k : A -> M B) :
  completes P m -> (forall a, completes P (k a)) -> completes P (bind m k).
Proof.
  intros Hm Hk c b c' H. apply bind_ok in H.
  destruct H as [a [c1 [H1 H2]]].
  eapply P_trans; [eapply Hm; exact H1 | eapply Hk; exact H2].
Qed.

Lemma completes_for_each {A S : Type} (body : S -> A -> M S) l :
  (forall s x, completes P (body s x)) ->
  forall s, completes P (for_each body l s).
Proof.
  intros Hb. induction l as [|x l IH]; intros s; cbn [for_each].
  - apply completes_ret.
  - apply completes_bind; [apply Hb | exact IH].
Qed.

End Completed.

Lemma issued_clean_refl c : issued_clean c c.
Proof. repeat split; auto. intros n Hn. lia. Qed.

Lemma issued_clean_trans a b c :
  issued_clean a b -> issued_clean b c -> issued_clean a c.
Proof.
  intros [F1 [L1 N1]] [F2 [L2 N2]]. repeat split.
  - congruence.
  - lia.
  - intros n Hn. destruct (Nat.lt_ge_cases n (executed b)) as [Hlt|Hge].
    + apply N1. lia.
    + rewrite <- F1. apply N2. lia.
Qed.

Lemma clean_execute {A : Type} (stmt : Z -> conn -> A * conn) :
  (forall now c, faults (snd (stmt now c)) = faults c
                 /\ executed (snd (stmt now c)) = executed c) ->
  completes issued_clean (execute stmt).
Proof.
  intros Hs c a c' H. apply execute_ok in H. destruct H as [Hf H].
  specialize (Hs (clock c (executed c)) (tick c)). rewrite H in Hs.
  cbn in Hs. destruct Hs as [H1 H2]. repeat split.
  - exact H1.
  - lia.
  - intros n Hn. replace n with (executed c) by lia. exact Hf.
Qed.

Lemma clean_update f : completes issued_clean (update f).
Proof. apply clean_execute. intros now c. cbn. auto. Qed.

Lemma clean_insert_link item ing conf :
  completes issued_clean (execute_insert_link item ing conf).
Proof.
  intros c a c'. unfold execute_insert_link. cbn.
  destruct (faults c (executed c)) eqn:Ef; [discriminate|].
  destruct (insert_link _ _ _ _); [|discriminate].
  intros H. inversion H. subst. unfold issued_clean. cbn.
  split; [reflexivity|]. split; [lia|].
  intros n Hn. replace n with (executed c) by lia. exact Ef.
Qed.

Lemma clean_ingredient_step run item seen ing :
  completes issued_clean (ingredient_step run item seen ing).
Proof.
  unfold ingredient_step.
  apply completes_bind; [apply issued_clean_trans | | ].
  { apply completes_lift. apply issued_clean_refl. }
  intros d. apply completes_bind; [apply issued_clean_trans | | ].
  { apply completes_lift. apply issued_clean_refl. }
  intros nm. destruct (is_empty nm).
  { apply completes_ret. apply issued_clean_refl. }
  apply completes_bind; [apply issued_clean_trans | | ].
  { apply completes_lift. apply issued_clean_refl. }
  intros x. destruct (is_empty _).
  { apply completes_ret. apply issued_clean_refl. }
  apply completes_bind; [apply issued_clean_trans | | ].
  { apply clean_execute. intros now c.
    destruct (ingredient_exists _ _); cbn; auto. }
  intros _. apply completes_bind; [apply issued_clean_trans | | ].
  { apply clean_execute. intros now c. cbn. auto. }
  intros [id|]; [|apply completes_raise].
  apply completes_bind; [apply issued_clean_trans | | ].
  { apply clean_update. }
  intros _. apply completes_ret. apply issued_clean_refl.
Qed.

Lemma clean_item_step run item :
  completes issued_clean (item_step run tt item).
Proof.
  unfold item_step.
  apply completes_bind; [apply issued_clean_trans | | ].
  { apply completes_lift. apply issued_clean_refl. }
  intros iid. apply completes_bind; [apply issued_clean_trans | | ].
  { apply completes_lift. apply issued_clean_refl. }
  intros rid. apply completes_bind; [apply issued_clean_trans | | ].
  { apply clean_update. }
  intros _. apply completes_bind; [apply issued_clean_trans | | ].
  { apply clean_update. }
  intros _. apply completes_bind; [apply issued_clean_trans | | ].
  { apply completes_lift. apply issued_clean_refl. }
  intros rows. apply completes_bind; [apply issued_clean_trans | | ].
  { apply completes_for_each; [apply issued_clean_refl
                              | apply issued_clean_trans | ].
    intros s x. apply clean_ingredient_step. }
  intros seen. apply completes_bind; [apply issued_clean_trans | | ].
  { apply clean_update. }
  intros _. apply completes_for_each;
    [apply issued_clean_refl | apply issued_clean_trans | ].
  intros [] p. apply clean_insert_link.
Qed.

Lemma clean_write_run cfg results m p v :
  completes issued_clean (write_run cfg results m p v).
Proof.
  unfold write_run. destruct (resolve_versions cfg p v) as [pv pipv].
  apply completes_bind; [apply issued_clean_trans | | ].
  { apply clean_execute. intros now c. cbn. auto. }
  intros id. apply completes_bind; [apply issued_clean_trans | | ].
  { destruct (id =? 0).
    - apply clean_execute. intros now c. cbn. auto.
    - apply completes_ret. apply issued_clean_refl. }
  intros run. apply completes_bind; [apply issued_clean_trans | | ].
  { apply completes_for_each;
      [apply issued_clean_refl | apply issued_clean_trans | ].
    intros [] x. apply clean_item_step. }
  intros _. apply completes_ret. apply issued_clean_refl.
Qed.

(** ** A malformed result stops the loop *)

Lemma for_each_raises {A S : Type} (body : S -> A -> M S) l :
  (exists x, In x l /\ forall s c, exists e c', body s x c = (Raise e, c')) ->
  forall s c, exists e c', for_each body l s c = (Raise e, c').
Proof.
  intros [x [Hin Hx]]. induction l as [|y l IH]; [destruct Hin|].
  intros s c. cbn [for_each]. unfold bind.
  destruct Hin as [Heq|Hin].
  - subst y. destruct (Hx s c) as [e [c' H]]. rewrite H. eauto.
  - destruct (body s y c) as [[s'|e] c1]; [|eauto].
    apply IH. exact Hin.
Qed.


(** ** The transaction coordinator *)

Lemma write_run_session cfg results m p v c r c' :
  write_run cfg results m p v c = (r, c') ->
  committed c' = committed c /\ faults c' = faults c
  /\ clock c' = clock c /\ is_open c' = is_open c.
Proof.
  intros H. apply write_run_cases in H. cbv zeta in H.
  destruct H as [[e [_ [H|H]]] | [_ [c1 [r1 [Hc1 [Hl _]]]]]].
  - subst c'. cbn. auto.
  - subst c'. cbn. auto.
  - apply evolves_items in Hl. destruct Hl as [H1 H2 H3 H4 _ _].
    rewrite H1, H2, H3, H4. destruct Hc1; subst c1; cbn; auto.
Qed.


Lemma run_with_transaction_eq cfg results m p v config c :
  run_with_transaction cfg results m p v config c
  = match write_run cfg results m p v c with
    | (Ok run, c1) =>
        match faults c1 (executed c1) with
        | Some e =>
            (Raise (match faults c1 (S (executed c1)) with
                    | Some e' => e'
                    | None => e
                    end),
             close (tick (settle (connection_config config) (tick c1))))
        | None =>
            (Ok run,
             close (settle (connection_config config)
                           (set_committed (tick c1) (working c1))))
        end
    | (Raise e, c1) =>
        (Raise (match faults c1 (executed c1) with
                | Some e' => e'
                | None => e
                end),
         close (tick (settle (connection_config config) c1)))
    end.
Proof.
  unfold run_with_transaction, roll_back_and_raise, rollback, bind, commit,
    execute, ret, settle.
  destruct (write_run cfg results m p v c) as [[run|e] c1]; cbn.
  - destruct (faults c1 (executed c1)); cbn.
    + destruct (autocommit (connection_config config)); cbn;
        destruct (faults c1 (S (executed c1))); reflexivity.
    + reflexivity.
  - destruct (autocommit (connection_config config)); cbn;
      destruct (faults c1 (executed c1)); reflexivity.
Qed.


(** With [autocommit] on in the caller's configuration, the rows
    written before the failure stay. *)
Lemma autocommit_keeps_earlier_writes :
  fst (run_with_transaction NoConfig [Sample.pizza; Sample.bad_id]
                            Sample.gpt None None
                            (Some {| autocommit := true |})
                            Sample.fresh_conn)
  = Raise ValueError
  /\ map item_id
         (menu_items
            (committed
               (snd (run_with_transaction
                       NoConfig [Sample.pizza; Sample.bad_id] Sample.gpt
                       None None (Some {| autocommit := true |})
                       Sample.fresh_conn))))
     = [1].
Proof. split; vm_compute; reflexivity. Qed.


(** ** The loops of [write_run], when they complete *)

Lemma ingredient_step_entry run item seen ing c :
  ingredient_step run item seen ing c
  = match entry_of ing with
    | Raise e => raise e c
    | Ok None => ret seen c
    | Ok (Some (canonical, display, conf)) =>
        (execute_upsert_ingredient canonical display ;;
         row <- execute_select_ingredient canonical ;;
         match row with
         | None => raise (RuntimeError canonical)
         | Some ingredient_id =>
             update (fun now =>
                       upsert_observation now run item ingredient_id
                                          (Py.round3 conf)) ;;
             ret (seen ++ [(ingredient_id, conf)])
         end) c
    end.
Proof.
  unfold ingredient_step, entry_of.
  unfold bind at 1. unfold lift at 1.
  destruct (as_dict ing) as [d|e]; [|reflexivity].
  unfold bind at 1. unfold lift at 1.
  destruct (str_strip _) as [nm|e]; [|reflexivity].
  destruct (is_empty nm); [reflexivity|].
  unfold bind at 1. unfold lift at 1.
  destruct (Py.float _) as [x|e]; [|reflexivity].
  destruct (is_empty (canonicalize_ingredient (VStr nm))); reflexivity.
Qed.

Lemma upsert_ingredient_resolves id0 c d t :
  exists id, select_ingredient_id c (upsert_ingredient id0 c d t) = Some id.
Proof.
  destruct t as [ru re mi ig ob lk]. unfold select_ingredient_id. cbn.
  induction ig as [|r ig IH]; cbn.
  - rewrite str_eqb_refl. cbn. eauto.
  - destruct (has_canonical c r) eqn:E; cbn.
    + unfold has_canonical in *. cbn. rewrite E. cbn. eauto.
    + rewrite E. exact IH.
Qed.

Lemma ingredient_step_ok run item seen ing c seen' c' :
  ingredient_step run item seen ing c = (Ok seen', c') ->
  (entry_of ing = Ok None /\ seen' = seen /\ c' = c)
  \/ (exists cn d x id,
         entry_of ing = Ok (Some (cn, d, x))
         /\ seen' = seen ++ [(id, x)]
         /\ select_ingredient_id cn (working c') = Some id
         /\ has_observation run item id (working c')
         /\ menu_item_ingredients (working c')
            = menu_item_ingredients (working c)).
Proof.
  rewrite ingredient_step_entry.
  destruct (entry_of ing) as [[[[cn d] x]|]|e].
  - intros H. right.
    apply bind_ok in H. destruct H as [u [c1 [H1 H]]].
    apply bind_ok in H. destruct H as [row [c2 [H2 H]]].
    destruct row as [id|]; [|discriminate H].
    apply bind_ok in H. destruct H as [u' [c3 [H3 H]]].
    inversion H. subst seen' c3. clear H.
    apply execute_ok in H1. destruct H1 as [_ H1].
    apply execute_ok in H2. destruct H2 as [_ H2].
    apply update_ok in H3. destruct H3 as [_ H3].
    inversion H2. subst c2. clear H2.
    exists cn, d, x, id. split; [reflexivity|]. split; [reflexivity|].
    subst c'. cbn. split; [|split].
    + rewrite <- H0. destruct (working c1); reflexivity.
    + unfold has_observation. destruct (working c1) as [ru re mi ig ob lk].
      cbn. apply upsert_existsb_self.
      * unfold same_observation. cbn. rewrite !Z.eqb_refl. reflexivity.
      * intros o _. unfold same_observation. cbn. rewrite !Z.eqb_refl.
        reflexivity.
    + destruct (ingredient_exists cn (working (tick c))) in H1;
        inversion H1; cbn; destruct (working c); reflexivity.
  - intros H. inversion H. left. auto.
  - intros H. discriminate H.
Qed.

Lemma ingredient_loop_evolves run item rows seen :
  preserves (evolves any_confidence run)
            (for_each (ingredient_step run item) rows seen).
Proof.
  apply preserves_for_each.
  - apply evolves_refl.
  - apply evolves_trans.
  - intros s ing _. apply evolves_ingredient_step. intros; exact I.
Qed.

Lemma resolved_grows X run t t' e p :
  grows X run t t' -> resolved t e p -> resolved t' e p.
Proof.
  intros G [H1 H2]. split; [|exact H2]. eapply grows_ids; eassumption.
Qed.

Lemma ingredient_loop_ok run item rows :
  forall seen c seen' c',
    for_each (ingredient_step run item) rows seen c = (Ok seen', c') ->
    exists es acc,
      kept_entries rows = Some es /\ seen' = seen ++ acc
      /\ Forall2 (resolved (working c')) es acc
      /\ (forall p, In p acc -> has_observation run item (fst p) (working c'))
      /\ menu_item_ingredients (working c')
         = menu_item_ingredients (working c).
Proof.
  induction rows as [|ing rows IH]; intros seen c seen' c'; cbn [for_each].
  - intros H. inversion H. subst. exists [], []. cbn.
    rewrite app_nil_r. repeat split; auto. intros p [].
  - intros H. apply bind_ok in H. destruct H as [s1 [c1 [H1 H2]]].
    pose proof (ingredient_loop_evolves run item rows s1 c1 _ _ H2) as Hev.
    apply IH in H2. destruct H2 as [es [acc [K [Hs [F [O L]]]]]].
    apply ingredient_step_ok in H1.
    destruct H1 as [[En [Hs1 Hc1]] | [cn [d [x [id [En [Hs1 [R [Ob L1]]]]]]]]].
    + subst s1 c1. exists es, acc. cbn [kept_entries]. rewrite En, K. auto.
    + exists ((cn, d, x) :: es), ((id, x) :: acc).
      cbn [kept_entries]. rewrite En, K. split; [reflexivity|].
      split; [subst; rewrite <- app_assoc; reflexivity|].
      split; [|split].
      * constructor; [|exact F].
        eapply resolved_grows; [apply (evolves_tables _ _ _ _ Hev)|].
        split; [exact R | reflexivity].
      * intros p [Hp|Hp]; [|apply O; exact Hp]. subst p. cbn.
        unfold has_observation.
        eapply grows_obs_keys; [apply (evolves_tables _ _ _ _ Hev)|].
        exact Ob.
      * congruence.
Qed.

Lemma set_links_same t : set_links t (menu_item_ingredients t) = t.
Proof. destruct t; reflexivity. Qed.

Lemma link_loop_ok item acc :
  forall c c',
    for_each (link_step item) acc tt c = (Ok tt, c') ->
    working c'
    = set_links (working c)
                (menu_item_ingredients (working c) ++ map (link_of item) acc)
    /\ (forall p, In p acc ->
                  existsb (same_link item (fst p))
                          (menu_item_ingredients (working c)) = false)
    /\ NoDup (map fst acc).
Proof.
  induction acc as [|p acc IH]; intros c c'; cbn [for_each].
  - intros H. inversion H. subst. cbn. rewrite app_nil_r, set_links_same.
    repeat split; [intros p [] | constructor].
  - intros H. apply bind_ok in H. destruct H as [[] [c1 [H1 H2]]].
    apply IH in H2. destruct H2 as [W [Ex Nd]].
    unfold link_step, execute_insert_link in H1. cbn in H1.
    destruct (faults c (executed c)); [discriminate|].
    unfold insert_link in H1.
    destruct (existsb (same_link item (fst p))
                      (menu_item_ingredients (working c))) eqn:Ep;
      [discriminate|].
    inversion H1. subst c1. clear H1.
    cbn [working set_working tick] in W, Ex.
    assert (Hl : forall t l, menu_item_ingredients (set_links t l) = l)
      by (intros [] l; reflexivity).
    assert (Hs : forall t l l', set_links (set_links t l) l' = set_links t l')
      by (intros [] l l'; reflexivity).
    rewrite Hl in W, Ex. rewrite Hs in W. split; [|split].
    + rewrite W. cbn [map]. rewrite <- app_assoc. reflexivity.
    + intros q [Hq|Hq]; [subst q; exact Ep|].
      specialize (Ex q Hq). rewrite existsb_app in Ex.
      apply orb_false_iff in Ex. apply Ex.
    + cbn [map]. constructor; [|exact Nd].
      intros Hin. apply in_map_iff in Hin. destruct Hin as [q [Hq1 Hq2]].
      specialize (Ex q Hq2). rewrite existsb_app in Ex.
      apply orb_false_iff in Ex. destruct Ex as [_ Ex]. cbn in Ex.
      unfold same_link in Ex. cbn in Ex.
      rewrite Z.eqb_refl, Hq1, Z.eqb_refl in Ex. discriminate.
Qed.

Lemma item_step_ok run item c c' :
  item_step run tt item c = (Ok tt, c') ->
  exists p,
    planned (working c') item p
    /\ menu_item_ingredients (working c')
       = relink (menu_item_ingredients (working c)) p
    /\ (forall q, In q (snd p) ->
                  has_observation run (fst p) (fst q) (working c')).
Proof.
  unfold item_step. intros H.
  apply bind_ok in H. destruct H as [iid [c1 [H1 H]]].
  apply lift_ok in H1. destruct H1 as [Hid ?]. subst c1.
  apply bind_ok in H. destruct H as [rid [c2 [H2 H]]].
  apply lift_ok in H2. destruct H2 as [Hrid ?]. subst c2.
  apply bind_ok in H. destruct H as [u3 [c3 [H3 H]]].
  apply update_ok in H3. destruct H3 as [_ H3].
  apply bind_ok in H. destruct H as [u4 [c4 [H4 H]]].
  apply update_ok in H4. destruct H4 as [_ H4].
  apply bind_ok in H. destruct H as [rows [c5 [H5 H]]].
  apply lift_ok in H5. destruct H5 as [Hrows ?]. subst c5.
  apply bind_ok in H. destruct H as [seen [c6 [H6 H]]].
  apply ingredient_loop_ok in H6.
  destruct H6 as [es [acc [K [Hs [F [O L]]]]]]. cbn in Hs. subst seen.
  apply bind_ok in H. destruct H as [u7 [c7 [H7 H]]].
  apply update_ok in H7. destruct H7 as [_ H7].
  apply link_loop_ok in H. destruct H as [W [_ Nd]].
  assert (Hlinks : menu_item_ingredients (working c6)
                   = menu_item_ingredients (working c)).
  { rewrite L, H4, H3. cbn. destruct (working c); reflexivity. }
  exists (iid, acc). cbn [fst snd]. split; [|split].
  - split; [exact Hid|]. split; [|split; [exact Nd | exists rid; exact Hrid]].
    exists rows, es. split; [exact Hrows|]. split; [exact K|].
    rewrite W, H7. cbn.
    eapply Forall2_impl; [|exact F].
    intros e p [R1 R2]. split; [|exact R2].
    rewrite <- R1. destruct (working c6); reflexivity.
  - rewrite W, H7. cbn. unfold relink. cbn [fst snd].
    rewrite <- Hlinks. destruct (working c6); reflexivity.
  - intros q Hq. specialize (O q Hq). unfold has_observation in *.
    rewrite W, H7. cbn. rewrite <- O. destruct (working c6); reflexivity.
Qed.

Lemma planned_grows X run t t' item p :
  grows X run t t' -> planned t item p -> planned t' item p.
Proof.
  intros G [H1 [[rows [es [R [K F]]]] H3]]. split; [exact H1|].
  split; [|exact H3]. exists rows, es. split; [exact R|].
  split; [exact K|]. eapply Forall2_impl; [|exact F].
  intros e q. apply resolved_grows with (1 := G).
Qed.

Lemma item_loop_ok run results :
  forall c c',
    for_each (item_step run) results tt c = (Ok tt, c') ->
    exists plan,
      Forall2 (planned (working c')) results plan
      /\ menu_item_ingredients (working c')
         = links_after (menu_item_ingredients (working c)) plan
      /\ Forall (fun p => forall q, In q (snd p) ->
                   has_observation run (fst p) (fst q) (working c')) plan.
Proof.
  induction results as [|item results IH]; intros c c'; cbn [for_each].
  - intros H. inversion H. subst. exists []. repeat split; constructor.
  - intros H. apply bind_ok in H. destruct H as [[] [c1 [H1 H2]]].
    pose proof (evolves_items run results c1 _ _ H2) as Hev.
    apply evolves_tables in Hev.
    apply IH in H2. destruct H2 as [plan [F [L O]]].
    apply item_step_ok in H1. destruct H1 as [p [Hp [Lp Op]]].
    exists (p :: plan). split; [|split].
    + constructor; [|exact F]. eapply planned_grows; eassumption.
    + rewrite L, Lp. reflexivity.
    + constructor; [|exact O]. intros q Hq. specialize (Op q Hq).
      unfold has_observation in *.
      eapply grows_obs_keys; eassumption.
Qed.

(** ** The snapshot of one item after a plan *)

Lemma links_of_relink_same rows p :
  links_of (fst p) (relink rows p) = map (link_of (fst p)) (snd p).
Proof.
  unfold links_of, relink. rewrite filter_app.
  assert (H1 : filter (fun l => link_item_id l =? fst p)
                 (filter (fun l => negb (link_item_id l =? fst p)) rows) = []).
  { induction rows as [|r rows IH]; cbn; [reflexivity|].
    destruct (link_item_id r =? fst p) eqn:E; cbn; [exact IH|].
    rewrite E. exact IH. }
  rewrite H1. cbn.
  induction (snd p) as [|q acc IH]; cbn; [reflexivity|].
  rewrite Z.eqb_refl. f_equal. exact IH.
Qed.

Lemma links_of_relink_other rows p i :
  fst p <> i -> links_of i (relink rows p) = links_of i rows.
Proof.
  intros Hne. unfold links_of, relink. rewrite filter_app.
  assert (H2 : filter (fun l => link_item_id l =? i)
                      (map (link_of (fst p)) (snd p)) = []).
  { induction (snd p) as [|q acc IH]; cbn; [reflexivity|].
    destruct (fst p =? i) eqn:E; [apply Z.eqb_eq in E; contradiction|].
    exact IH. }
  rewrite H2, app_nil_r.
  induction rows as [|r rows IH]; cbn; [reflexivity|].
  destruct (link_item_id r =? fst p) eqn:E; cbn.
  - apply Z.eqb_eq in E.
    destruct (link_item_id r =? i) eqn:E2; [|exact IH].
    apply Z.eqb_eq in E2. congruence.
  - destruct (link_item_id r =? i); [f_equal|]; exact IH.
Qed.

Lemma links_after_untouched plan : forall rows i,
  ~ In i (map fst plan) ->
  links_of i (links_after rows plan) = links_of i rows.
Proof.
  unfold links_after.
  induction plan as [|p plan IH]; intros rows i Hn; cbn [fold_left];
    [reflexivity|].
  rewrite IH.
  - apply links_of_relink_other. intros E. apply Hn. left. exact E.
  - intros Hin. apply Hn. right. exact Hin.
Qed.

Lemma links_after_last plan1 p plan2 rows :
  ~ In (fst p) (map fst plan2) ->
  links_of (fst p) (links_after rows (plan1 ++ p :: plan2))
  = map (link_of (fst p)) (snd p).
Proof.
  intros Hn. unfold links_after. rewrite fold_left_app. cbn [fold_left].
  fold (links_after (relink (fold_left relink plan1 rows) p) plan2).
  rewrite links_after_untouched by exact Hn.
  apply links_of_relink_same.
Qed.

Lemma write_run_ok cfg results m p v c run c' :
  write_run cfg results m p v c = (Ok run, c') ->
  run = auto_run c
  /\ exists c1,
      (c1 = after_insert_run c m (fst (resolve_versions cfg p v))
                             (snd (resolve_versions cfg p v))
       \/ c1 = tick (after_insert_run c m (fst (resolve_versions cfg p v))
                                      (snd (resolve_versions cfg p v))))
      /\ for_each (item_step run) results tt c1 = (Ok tt, c').
Proof.
  intros H. apply write_run_cases in H. cbv zeta in H.
  destruct H as [[e [H _]] | [_ [c1 [r1 [Hc1 [Hl Hr]]]]]]; [discriminate|].
  destruct r1 as [[]|e]; [|discriminate]. inversion Hr. subst run.
  split; [reflexivity|]. exists c1. auto.
Qed.

Lemma Forall2_split_at {A B : Type} (R : A -> B -> Prop) l1 x l2 l' :
  Forall2 R (l1 ++ x :: l2) l' ->
  exists l1' y l2', l' = l1' ++ y :: l2' /\ Forall2 R l1 l1' /\ R x y
                    /\ Forall2 R l2 l2'.
Proof.
  intros H. apply Forall2_app_inv_l in H.
  destruct H as [l1' [r [H1 [H2 H3]]]]. inversion H2. subst.
  eauto 10.
Qed.

Lemma Forall2_in_right {A B : Type} (R : A -> B -> Prop) l l' y :
  Forall2 R l l' -> In y l' -> exists x, In x l /\ R x y.
Proof.
  induction 1 as [|x y0 l l' Hr _ IH]; intros Hin; [destruct Hin|].
  destruct Hin as [E|Hin].
  - subst y0. exists x. split; [left; reflexivity | exact Hr].
  - destruct (IH Hin) as [x0 [H1 H2]]. exists x0. split; [right|]; auto.
Qed.

(** C1. After [write_run] has completed on a batch, the current links
    of every item of the batch are, row for row, the pairs accumulated
    from the last result that carries that item: nothing of an earlier
    run or of an earlier occurrence remains. *)
Theorem write_run_links_are_last_result cfg results m p v c run c'
        before item after i :
  write_run cfg results m p v c = (Ok run, c') ->
  results = before ++ item :: after ->
  item_id_of item = Ok i ->
  (forall it, In it after -> item_id_of it <> Ok i) ->
  exists acc,
    accumulated (working c') item acc
    /\ links_of i (menu_item_ingredients (working c'))
       = map (link_of i) acc.
Proof.
  intros H Hres Hid Hlast.
  apply write_run_ok in H. destruct H as [_ [c1 [_ Hl]]].
  apply item_loop_ok in Hl. destruct Hl as [plan [F [L _]]].
  subst results. apply Forall2_split_at in F.
  destruct F as [plan1 [q [plan2 [Hplan [_ [Hq F2]]]]]].
  destruct Hq as [Hq1 [Hq2 _]].
  assert (Hi : fst q = i) by congruence.
  exists (snd q). split; [exact Hq2|].
  rewrite L, Hplan, <- Hi. apply links_after_last.
  intros Hin. apply in_map_iff in Hin. destruct Hin as [q' [E Hq']].
  destruct (Forall2_in_right _ _ _ _ F2 Hq') as [it [Hit [Hp _]]].
  apply (Hlast it Hit). congruence.
Qed.

(** ** Two runs of the same batch *)

Lemma resolved_fun t e p q : resolved t e p -> resolved t e q -> p = q.
Proof.
  intros [H1 H2] [H3 H4]. destruct p as [a b], q as [a' b']. cbn in *.
  congruence.
Qed.

Lemma Forall2_fun {A B : Type} (R : A -> B -> Prop) :
  (forall x y z, R x y -> R x z -> y = z) ->
  forall l l1 l2, Forall2 R l l1 -> Forall2 R l l2 -> l1 = l2.
Proof.
  intros HR l l1 l2 H1. revert l2.
  induction H1 as [|x y l l1 Hxy _ IH]; intros l2 H2; inversion H2; subst.
  - reflexivity.
  - f_equal; [eapply HR; eassumption | apply IH; assumption].
Qed.

Lemma accumulated_fun t item acc acc' :
  accumulated t item acc -> accumulated t item acc' -> acc = acc'.
Proof.
  intros [rows [es [R [K F]]]] [rows' [es' [R' [K' F']]]].
  assert (rows' = rows) by congruence. subst rows'.
  assert (es' = es) by congruence. subst es'.
  eapply Forall2_fun; [|exact F|exact F']. apply resolved_fun.
Qed.

Lemma planned_fun t item p q : planned t item p -> planned t item q -> p = q.
Proof.
  intros [H1 [H2 _]] [H3 [H4 _]]. destruct p as [a b], q as [a' b'].
  cbn in *. f_equal; [congruence|]. eapply accumulated_fun; eassumption.
Qed.

Lemma planned_same_ingredients t t' item p :
  ingredients t' = ingredients t -> planned t item p -> planned t' item p.
Proof.
  intros E [H1 [[rows [es [R [K F]]]] H3]]. split; [exact H1|].
  split; [|exact H3]. exists rows, es. split; [exact R|]. split; [exact K|].
  eapply Forall2_impl; [|exact F].
  intros e q [R1 R2]. split; [|exact R2].
  unfold select_ingredient_id in *. rewrite E. exact R1.
Qed.

Lemma in_split_last {A : Type} (f : A -> Z) l i :
  In i (map f l) ->
  exists l1 x l2, l = l1 ++ x :: l2 /\ f x = i /\ ~ In i (map f l2).
Proof.
  induction l as [|y l IH]; intros Hin; [destruct Hin|].
  destruct (in_dec Z.eq_dec i (map f l)) as [Hl|Hl].
  - destruct (IH Hl) as [l1 [x [l2 [E [Hx Hn]]]]].
    exists (y :: l1), x, l2. subst l. auto.
  - destruct Hin as [E|Hin]; [|contradiction].
    exists [], y, l. auto.
Qed.

Lemma filter_all {A : Type} (l : list A) : filter (fun _ => true) l = l.
Proof. induction l as [|x l IH]; cbn; [|rewrite IH]; reflexivity. Qed.

Lemma filter_twice {A : Type} (f g : A -> bool) l :
  filter f (filter g l) = filter (fun x => g x && f x) l.
Proof.
  induction l as [|x l IH]; cbn; [reflexivity|].
  destruct (g x); cbn; [destruct (f x); cbn|]; rewrite IH; reflexivity.
Qed.

Lemma filter_none {A : Type} (f : A -> bool) l :
  Forall (fun x => f x = false) l -> filter f l = [].
Proof.
  induction 1 as [|x l H _ IH]; cbn; [reflexivity|]. rewrite H. exact IH.
Qed.

Lemma links_after_snoc rows plan p :
  links_after rows (plan ++ [p]) = relink (links_after rows plan) p.
Proof. unfold links_after. rewrite fold_left_app. reflexivity. Qed.

Lemma touched_snoc plan p l :
  touched (plan ++ [p]) l = touched plan l || (link_item_id l =? fst p).
Proof.
  unfold touched. rewrite existsb_app. cbn. rewrite orb_false_r.
  reflexivity.
Qed.

(** A plan keeps the rows of the other items in their order and puts
    rows of its own after them. *)
Lemma links_after_split plan : forall rows,
  links_after rows plan
  = filter (fun l => negb (touched plan l)) rows ++ links_after [] plan.
Proof.
  induction plan as [|p plan IH] using rev_ind; intros rows.
  - cbn. rewrite filter_all, app_nil_r. reflexivity.
  - rewrite !links_after_snoc. rewrite (IH rows). unfold relink.
    rewrite filter_app, filter_twice, <- app_assoc. f_equal.
    apply filter_ext. intros l. rewrite touched_snoc, negb_orb.
    reflexivity.
Qed.

Lemma links_after_touched plan :
  Forall (fun l => touched plan l = true) (links_after [] plan).
Proof.
  induction plan as [|p plan IH] using rev_ind; [constructor|].
  rewrite links_after_snoc. unfold relink. apply Forall_app. split.
  - apply Forall_forall. intros l Hl. apply filter_In in Hl.
    destruct Hl as [Hl _]. rewrite Forall_forall in IH.
    rewrite touched_snoc, (IH l Hl). reflexivity.
  - apply Forall_forall. intros l Hl. apply in_map_iff in Hl.
    destruct Hl as [q [E _]]. subst l. rewrite touched_snoc. cbn.
    rewrite Z.eqb_refl. apply orb_true_r.
Qed.

(** Applying a plan a second time changes nothing. *)
Lemma links_after_idempotent plan rows :
  links_after (links_after rows plan) plan = links_after rows plan.
Proof.
  rewrite (links_after_split plan (links_after rows plan)).
  rewrite (links_after_split plan rows) at 1.
  rewrite filter_app, filter_twice.
  rewrite (filter_none _ (links_after [] plan)).
  - rewrite app_nil_r. rewrite (links_after_split plan rows) at 1.
    f_equal. apply filter_ext. intros l.
    destruct (touched plan l); reflexivity.
  - eapply Forall_impl; [|apply links_after_touched].
    intros l H. cbn in H. rewrite H. reflexivity.
Qed.

(** What a completed run leaves, in one statement. *)
Lemma write_run_summary cfg results m p v c run c' :
  write_run cfg results m p v c = (Ok run, c') ->
  run = auto_run c
  /\ auto_run c' = auto_run c + 1
  /\ extraction_runs (working c')
     = extraction_runs (working c) ++ [run_row cfg c m p v]
  /\ grows (input_confidence results) run
           (set_extraction_runs (working c) (extraction_runs (working c')))
           (working c')
  /\ exists plan,
      Forall2 (planned (working c')) results plan
      /\ menu_item_ingredients (working c')
         = links_after (menu_item_ingredients (working c)) plan
      /\ Forall (fun q => forall x, In x (snd q) ->
                   has_observation run (fst q) (fst x) (working c')) plan.
Proof.
  intros H. apply write_run_ok in H. destruct H as [Hrun [c1 [Hc1 Hl]]].
  pose proof (evolves_items run results c1 _ _ Hl) as Hev.
  apply item_loop_ok in Hl.
  set (c0 := after_insert_run c m (fst (resolve_versions cfg p v))
                              (snd (resolve_versions cfg p v))) in *.
  assert (Hw : working c1 = working c0 /\ auto_run c1 = auto_run c + 1).
  { destruct Hc1; subst c1; cbn; auto. }
  destruct Hw as [Hw Ha].
  destruct Hev as [_ _ _ _ Hauto G].
  assert (Hruns : extraction_runs (working c')
                  = extraction_runs (working c) ++ [run_row cfg c m p v]).
  { rewrite (grows_runs _ _ _ _ G), Hw. unfold c0. cbn.
    destruct (working c); reflexivity. }
  split; [exact Hrun|]. split; [congruence|]. split; [exact Hruns|].
  split.
  - rewrite Hruns.
    assert (E : set_extraction_runs (working c)
                  (extraction_runs (working c) ++ [run_row cfg c m p v])
                = working c1).
    { rewrite Hw. unfold c0. cbn. destruct (working c); reflexivity. }
    rewrite E. exact G.
  - destruct Hl as [plan [F [L O]]]. exists plan.
    split; [exact F|]. split; [|exact O].
    rewrite L, Hw. unfold c0. cbn. destruct (working c); reflexivity.
Qed.

Lemma Forall2_in_left {A B : Type} (R : A -> B -> Prop) l l' x :
  Forall2 R l l' -> In x l -> exists y, In y l' /\ R x y.
Proof.
  induction 1 as [|x0 y l l' Hr _ IH]; intros Hin; [destruct Hin|].
  destruct Hin as [E|Hin].
  - subst x0. exists y. split; [left; reflexivity | exact Hr].
  - destruct (IH Hin) as [y0 [H1 H2]]. exists y0. split; [right|]; auto.
Qed.

Lemma planned_set_runs t l item p :
  planned t item p -> planned (set_extraction_runs t l) item p.
Proof. apply planned_same_ingredients. destruct t; reflexivity. Qed.

(** ** A run that the store does not refuse completes *)

Lemma upsert_const_in {A : Type} (same_key : A -> bool) (row : A) rows :
  In row (upsert same_key (fun _ => row) row rows).
Proof.
  induction rows as [|r rows IH]; cbn; [left; reflexivity|].
  destruct (same_key r); [left; reflexivity | right; exact IH].
Qed.

Lemma execute_accepted {A : Type} (stmt : Z -> conn -> A * conn) c :
  faults c (executed c) = None ->
  execute stmt c
  = (Ok (fst (stmt (clock c (executed c)) (tick c))),
     snd (stmt (clock c (executed c)) (tick c))).
Proof.
  intros H. unfold execute. cbn. rewrite H.
  destruct (stmt _ _); reflexivity.
Qed.

Lemma ingredient_step_kept run item seen ing cn d x c :
  entry_of ing = Ok (Some (cn, d, x)) ->
  accepts3 c ->
  exists id now c',
    ingredient_step run item seen ing c = (Ok (seen ++ [(id, x)]), c')
    /\ In {| obs_run_id := run; obs_item_id := item;
             obs_ingredient_id := id; obs_confidence := Py.round3 x;
             obs_created_at := now |}
          (menu_item_ingredient_observations (working c'))
    /\ select_ingredient_id cn (working c') = Some id.
Proof.
  intros He [F1 [F2 F3]]. rewrite ingredient_step_entry, He.
  unfold bind at 1. unfold execute_upsert_ingredient.
  rewrite execute_accepted by exact F1.
  set (c1 := snd _).
  assert (Hc1 : faults c1 = faults c /\ executed c1 = S (executed c)
                /\ clock c1 = clock c
                /\ working c1
                   = upsert_ingredient (auto_ingredient c) cn d (working c)).
  { unfold c1. cbn. destruct (ingredient_exists cn (working c)); cbn; auto. }
  destruct Hc1 as [Hf1 [He1 [Hk1 Hw1]]]. cbn [fst].
  unfold bind at 1. unfold execute_select_ingredient.
  rewrite execute_accepted by (rewrite Hf1, He1; exact F2).
  cbn [fst snd working tick].
  destruct (upsert_ingredient_resolves (auto_ingredient c) cn d (working c))
    as [id Hid].
  rewrite Hw1, Hid.
  unfold bind, update.
  rewrite execute_accepted
    by (cbn [faults tick executed]; rewrite Hf1, He1; exact F3).
  cbn [fst snd]. unfold ret.
  eexists id, _, _. split; [reflexivity|]. cbn [working set_working tick].
  rewrite Hw1. split.
  - destruct (upsert_ingredient _ _ _ _) as [ru re mi ig ob lk]. cbn.
    apply upsert_const_in.
  - rewrite <- Hid.
    destruct (upsert_ingredient _ _ _ _) as [ru re mi ig ob lk].
    reflexivity.
Qed.

Lemma quiet_later c c' : issued_clean c c' -> quiet c -> quiet c'.
Proof.
  intros [F [L _]] Q n Hn. rewrite F. apply Q. lia.
Qed.

Lemma quiet_accepts3 c : quiet c -> accepts3 c.
Proof. intros Q. repeat split; apply Q; lia. Qed.

Lemma update_quiet f c :
  quiet c -> exists c', update f c = (Ok tt, c').
Proof.
  intros Q. unfold update. rewrite execute_accepted by (apply Q; lia).
  eauto.
Qed.

Lemma ingredient_loop_progress run item rows : forall es seen c,
  kept_entries rows = Some es -> quiet c ->
  exists seen' c',
    for_each (ingredient_step run item) rows seen c = (Ok seen', c').
Proof.
  induction rows as [|ing rows IH]; intros es seen c K Q; cbn [for_each].
  - unfold ret. eauto.
  - cbn [kept_entries] in K. unfold bind.
    destruct (entry_of ing) as [[[[cn d] x]|]|e] eqn:E; [| |discriminate K].
    + destruct (kept_entries rows) as [es'|] eqn:K'; [|discriminate K].
      destruct (ingredient_step_kept run item seen ing cn d x c E
                  (quiet_accepts3 c Q)) as [id [now [c1 [H _]]]].
      rewrite H. apply (IH es'); [reflexivity|].
      eapply quiet_later; [|exact Q].
      eapply clean_ingredient_step. exact H.
    + destruct (kept_entries rows) as [es'|] eqn:K'; [|discriminate K].
      rewrite ingredient_step_entry, E. unfold ret at 1.
      apply (IH es'); [reflexivity | exact Q].
Qed.

Lemma link_loop_progress item acc : forall c,
  NoDup (map fst acc) -> quiet c ->
  (forall p, In p acc ->
             existsb (same_link item (fst p))
                     (menu_item_ingredients (working c)) = false) ->
  exists c', for_each (link_step item) acc tt c = (Ok tt, c').
Proof.
  induction acc as [|p acc IH]; intros c Nd Q Hfree; cbn [for_each].
  - unfold ret. eauto.
  - inversion Nd as [|a l Hnotin Nd']. subst.
    unfold bind.
    destruct (link_step item tt p c) as [[[]|e] c1] eqn:E.
    + apply IH; [exact Nd' | |].
      * eapply quiet_later; [|exact Q]. eapply clean_insert_link. exact E.
      * intros q Hq. unfold link_step, execute_insert_link in E.
        cbn in E. rewrite (Q (executed c)) in E by lia.
        unfold insert_link in E.
        rewrite (Hfree p (or_introl eq_refl)) in E.
        inversion E. subst c1. cbn [working set_working tick].
        assert (Hl : forall t l, menu_item_ingredients (set_links t l) = l)
          by (intros [] l; reflexivity).
        rewrite Hl, existsb_app, (Hfree q (or_intror Hq)). cbn.
        rewrite orb_false_r. unfold same_link. cbn.
        rewrite Z.eqb_refl. cbn.
        destruct (fst p =? fst q) eqn:Epq; [|reflexivity].
        apply Z.eqb_eq in Epq. exfalso. apply Hnotin.
        rewrite Epq. apply in_map. exact Hq.
    + exfalso. unfold link_step, execute_insert_link in E. cbn in E.
      rewrite (Q (executed c)) in E by lia.
      unfold insert_link in E.
      rewrite (Hfree p (or_introl eq_refl)) in E. discriminate E.
Qed.

Lemma delete_links_free item t ing :
  existsb (same_link item ing)
          (menu_item_ingredients (delete_links item t)) = false.
Proof.
  destruct t as [ru re mi ig ob lk]. cbn.
  induction lk as [|l lk IH]; cbn; [reflexivity|].
  destruct (link_item_id l =? item) eqn:E; cbn; [exact IH|].
  unfold same_link at 1. rewrite E. cbn. exact IH.
Qed.

Lemma item_step_progress run item p t1 c :
  planned t1 item p ->
  (forall n id, select_ingredient_id n t1 = Some id ->
                select_ingredient_id n (working c) = Some id) ->
  quiet c ->
  exists c', item_step run tt item c = (Ok tt, c').
Proof.
  intros [Hid [[rows [es [Hrows [K F1]]]] [Nd [rid Hrid]]]] Hst Q.
  unfold item_step. fold (item_id_of item). fold (restaurant_id_of item).
  fold (ingredient_rows item). rewrite Hid, Hrid, Hrows.
  unfold bind at 1. unfold lift at 1.
  unfold bind at 1. unfold lift at 1.
  unfold bind at 1.
  destruct (update_quiet (fun now => upsert_restaurant now rid) c Q)
    as [c3 H3].
  rewrite H3.
  assert (Q3 : quiet c3) by (eapply quiet_later; [eapply clean_update|]; eauto).
  unfold bind at 1.
  destruct (update_quiet
              (fun now => upsert_menu_item now (fst p) rid
                 (Py.or_else (Py.get item (lit "item_name") VNone) (VStr []))
                 (Py.get item (lit "reasoning") VNone)) c3 Q3)
    as [c4 H4].
  rewrite H4.
  assert (Q4 : quiet c4) by (eapply quiet_later; [eapply clean_update|]; eauto).
  unfold bind at 1. unfold lift at 1.
  unfold bind at 1.
  destruct (ingredient_loop_progress run (fst p) rows es [] c4 K Q4)
    as [seen [c5 H5]].
  rewrite H5.
  assert (Q5 : quiet c5).
  { eapply quiet_later; [|exact Q4].
    eapply (completes_for_each issued_clean issued_clean_refl
              issued_clean_trans); [|exact H5].
    intros s x. apply clean_ingredient_step. }
  assert (Hseen : seen = snd p).
  { pose proof H5 as H5'. apply ingredient_loop_ok in H5'.
    destruct H5' as [es' [acc [K' [Hs [F5 _]]]]].
    assert (es' = es) by congruence. subst es'. cbn in Hs. subst seen.
    eapply Forall2_fun; [apply resolved_fun | exact F5 |].
    eapply Forall2_impl; [|exact F1]. intros e q [R1 R2].
    split; [|exact R2].
    pose proof (evolves_update any_confidence run _
                  (fun now t => grows_upsert_restaurant any_confidence run
                                  now rid t) c _ _ H3) as E3.
    pose proof (evolves_update any_confidence run _
                  (fun now t => grows_upsert_menu_item any_confidence run
                                  now (fst p) rid _ _ t) c3 _ _ H4) as E4.
    pose proof (ingredient_loop_evolves run (fst p) rows [] c4 _ _ H5) as E5.
    apply (grows_ids _ _ _ _ (evolves_tables _ _ _ _ E5)).
    apply (grows_ids _ _ _ _ (evolves_tables _ _ _ _ E4)).
    apply (grows_ids _ _ _ _ (evolves_tables _ _ _ _ E3)).
    apply Hst. exact R1. }
  subst seen. unfold bind at 1.
  destruct (update_quiet (fun _ => delete_links (fst p)) c5 Q5) as [c6 H6].
  rewrite H6.
  apply link_loop_progress; [exact Nd | |].
  - eapply quiet_later; [eapply clean_update|]; eauto.
  - intros q _. apply update_ok in H6. destruct H6 as [_ H6]. subst c6.
    cbn [working set_working tick]. apply delete_links_free.
Qed.

Lemma item_loop_progress run results : forall plan t1 c,
  Forall2 (planned t1) results plan ->
  (forall n id, select_ingredient_id n t1 = Some id ->
                select_ingredient_id n (working c) = Some id) ->
  quiet c ->
  exists c', for_each (item_step run) results tt c = (Ok tt, c').
Proof.
  induction results as [|item results IH]; intros plan t1 c F Hst Q;
    cbn [for_each].
  - unfold ret. eauto.
  - inversion F as [|x p l plan' Hp F']. subst.
    destruct (item_step_progress run item p t1 c Hp Hst Q) as [c1 H1].
    unfold bind. rewrite H1.
    apply (IH plan' t1); [exact F' | |].
    + intros n id Hn.
      assert (E : evolves any_confidence run c c1).
      { eapply evolves_item_step; [|exact H1]. intros; exact I. }
      apply (grows_ids _ _ _ _ (evolves_tables _ _ _ _ E)).
      apply Hst. exact Hn.
    + eapply quiet_later; [|exact Q]. eapply clean_item_step. exact H1.
Qed.

Lemma write_run_progress cfg results m p v plan t1 c :
  Forall2 (planned t1) results plan ->
  ingredients (working c) = ingredients t1 ->
  quiet c ->
  exists run c', write_run cfg results m p v c = (Ok run, c').
Proof.
  intros F Hig Q. unfold write_run.
  destruct (resolve_versions cfg p v) as [pv pipv].
  unfold bind at 1. rewrite execute_insert_run_eq.
  rewrite (Q (executed c)) by lia.
  set (c0 := after_insert_run c m pv pipv).
  assert (Q0 : quiet c0).
  { intros n Hn. unfold c0. cbn. apply Q. cbn in Hn. lia. }
  assert (Hst : forall c1, ingredients (working c1) = ingredients t1 ->
                forall n id, select_ingredient_id n t1 = Some id ->
                             select_ingredient_id n (working c1) = Some id).
  { intros c1 E n id. unfold select_ingredient_id. rewrite E. auto. }
  assert (Hig0 : ingredients (working c0) = ingredients t1).
  { unfold c0. cbn. rewrite <- Hig. destruct (working c); reflexivity. }
  unfold bind at 1.
  destruct (auto_run c =? 0).
  - rewrite execute_last_insert_id_eq. rewrite (Q0 (executed c0)) by lia.
    destruct (item_loop_progress (last_insert_id c0) results plan t1
                (tick c0) F) as [c' H].
    + apply Hst. exact Hig0.
    + intros n Hn. apply Q0. cbn [executed tick] in Hn. lia.
    + unfold bind. rewrite H. unfold ret. eauto.
  - unfold ret at 1.
    destruct (item_loop_progress (auto_run c) results plan t1 c0 F)
      as [c' H].
    + apply Hst. exact Hig0.
    + exact Q0.
    + unfold bind. rewrite H. unfold ret. eauto.
Qed.

(** C3. Two invocations of [write_run] on the same batch, the second
    one starting from the tables that the first one left and with a
    later generated key.  After a first run that completed, the second
    one completes unless the store refuses a statement; the two run rows
    are then distinct and both present, the observations of the first
    run are untouched and each run has an observation for every
    accumulated pair, and the table of current links after the second
    run is the one after the first run, with one row per ingredient for
    each item of the batch. *)
Theorem replay_leaves_same_snapshot cfg results m p v c r1 c1 c1' :
  write_run cfg results m p v c = (Ok r1, c1) ->
  working c1' = working c1 ->
  auto_run c1 <= auto_run c1' ->
  (quiet c1' -> exists r2 c2, write_run cfg results m p v c1' = (Ok r2, c2))
  /\ forall r2 c2,
  write_run cfg results m p v c1' = (Ok r2, c2) ->
  r1 <> r2
  /\ (In (run_row cfg c m p v) (extraction_runs (working c2))
      /\ In (run_row cfg c1' m p v) (extraction_runs (working c2))
      /\ run_id (run_row cfg c m p v) = r1
      /\ run_id (run_row cfg c1' m p v) = r2)
  /\ (forall o, In o (menu_item_ingredient_observations (working c1)) ->
                obs_run_id o = r1 ->
                In o (menu_item_ingredient_observations (working c2)))
  /\ (forall item i acc q,
         In item results -> item_id_of item = Ok i ->
         accumulated (working c2) item acc -> In q acc ->
         has_observation r1 i (fst q) (working c2)
         /\ has_observation r2 i (fst q) (working c2))
  /\ menu_item_ingredients (working c2) = menu_item_ingredients (working c1)
  /\ (forall item i,
         In item results -> item_id_of item = Ok i ->
         NoDup (map link_ingredient_id
                    (links_of i (menu_item_ingredients (working c2)))))
  /\ (forall before item after i,
         results = before ++ item :: after ->
         item_id_of item = Ok i ->
         (forall it, In it after -> item_id_of it <> Ok i) ->
         exists acc,
           accumulated (working c2) item acc
           /\ NoDup (map fst acc)
           /\ links_of i (menu_item_ingredients (working c2))
              = map (link_of i) acc
           /\ links_of i (menu_item_ingredients (working c1))
              = map (link_of i) acc).
Proof.
  intros H1 Hw Hauto.
  apply write_run_summary in H1.
  destruct H1 as [Hr1 [Ha1 [Hruns1 [_ [plan1 [F1 [L1 O1]]]]]]].
  split.
  { intros Q. apply (write_run_progress cfg results m p v plan1 (working c1));
      [exact F1 | rewrite Hw; reflexivity | exact Q]. }
  intros r2 c2 H2.
  apply write_run_summary in H2.
  destruct H2 as [Hr2 [_ [Hruns2 [G2 [plan2 [F2 [L2 O2]]]]]]].
  assert (Hne : r1 <> r2) by lia.
  assert (Hplan : plan1 = plan2).
  { eapply Forall2_fun; [apply planned_fun | | exact F2].
    eapply Forall2_impl; [|exact F1]. intros item q Hq.
    eapply planned_grows; [exact G2|]. apply planned_set_runs.
    rewrite Hw. exact Hq. }
  subst plan2.
  assert (Hobs : forall a b d,
             has_observation a b d (working c1) ->
             has_observation a b d (working c2)).
  { intros a b d Ho. unfold has_observation in *.
    apply (grows_obs_keys _ _ _ _ G2). rewrite Hw.
    destruct (working c1); exact Ho. }
  split; [exact Hne|]. split; [|split; [|split; [|split; [|split]]]].
  - rewrite Hruns2, Hw, Hruns1.
    split; [|split; [|split]].
    + apply in_or_app. left. apply in_or_app. right. left. reflexivity.
    + apply in_or_app. right. left. reflexivity.
    + symmetry. exact Hr1.
    + symmetry. exact Hr2.
  - intros o Ho Hrun.
    assert (Hf : In o (filter (other_run r2)
                         (menu_item_ingredient_observations (working c2)))).
    { rewrite (grows_other_runs _ _ _ _ G2), Hw.
      apply filter_In. split; [destruct (working c1); exact Ho|].
      unfold other_run. rewrite Hrun.
      destruct (r1 =? r2) eqn:E; [apply Z.eqb_eq in E; contradiction|].
      reflexivity. }
    apply filter_In in Hf. apply Hf.
  - intros item i acc q Hin Hid Hacc Hq.
    destruct (Forall2_in_left _ _ _ _ F2 Hin) as [x [Hx Hpx]].
    assert (Hi : fst x = i) by (destruct Hpx as [E _]; congruence).
    assert (Hsx : snd x = acc).
    { destruct Hpx as [_ [E _]]. eapply accumulated_fun; eassumption. }
    rewrite Forall_forall in O1, O2. subst i acc. split.
    + apply Hobs. apply O1; assumption.
    + apply O2; assumption.
  - rewrite L2, Hw, L1. apply links_after_idempotent.
  - intros item i Hin Hid.
    destruct (Forall2_in_left _ _ _ _ F2 Hin) as [x [Hx Hpx]].
    assert (Hi : fst x = i) by (destruct Hpx as [E _]; congruence).
    assert (Hmem : In i (map fst plan1)).
    { rewrite <- Hi. apply in_map. exact Hx. }
    apply in_split_last in Hmem.
    destruct Hmem as [l1 [y [l2 [E [Hy Hn]]]]].
    rewrite L2, E, <- Hy. rewrite <- Hy in Hn.
    rewrite links_after_last by exact Hn.
    rewrite map_map. cbn.
    assert (Hiny : In y plan1) by (rewrite E; apply in_elt).
    destruct (Forall2_in_right _ _ _ _ F2 Hiny) as [it [_ [_ [_ [Nd _]]]]].
    rewrite (map_ext _ fst) by reflexivity. exact Nd.
  - intros before item after i Hres Hid Hlast.
    rewrite Hres in F2. apply Forall2_split_at in F2.
    destruct F2 as [p1 [q [p2 [Hplan [_ [Hq Fa]]]]]].
    destruct Hq as [Hq1 [Hq2 [Nd _]]].
    assert (Hi : fst q = i) by congruence.
    assert (Hnot : ~ In (fst q) (map fst p2)).
    { intros Hin. apply in_map_iff in Hin. destruct Hin as [q' [Eq Hq']].
      destruct (Forall2_in_right _ _ _ _ Fa Hq') as [it [Hit [Hp _]]].
      apply (Hlast it Hit). congruence. }
    exists (snd q). split; [exact Hq2|]. split; [exact Nd|]. split.
    + rewrite L2, Hplan, <- Hi. apply links_after_last. exact Hnot.
    + rewrite L1, Hplan, <- Hi. apply links_after_last. exact Hnot.
Qed.

(** ** Confidences *)




Lemma write_run_grows cfg results m p v c r c' :
  write_run cfg results m p v c = (r, c') ->
  exists t0,
    menu_item_ingredient_observations t0
    = menu_item_ingredient_observations (working c)
    /\ menu_item_ingredients t0 = menu_item_ingredients (working c)
    /\ restaurants t0 = restaurants (working c)
    /\ grows (input_confidence results) (auto_run c) t0 (working c').
Proof.
  intros H. apply write_run_cases in H. cbv zeta in H.
  destruct H as [[e [_ [H|H]]] | [_ [c1 [r1 [Hc1 [Hl _]]]]]].
  - subst c'. exists (working c). cbn [working tick].
    split; [reflexivity|]. split; [reflexivity|]. split; [reflexivity|].
    apply grows_refl.
  - subst c'. eexists. cbn [working tick].
    split; [|split; [|split; [|apply grows_refl]]];
      cbn; destruct (working c); reflexivity.
  - apply evolves_items in Hl. apply evolves_tables in Hl.
    exists (working c1).
    split; [|split; [|split; [|exact Hl]]];
      destruct Hc1; subst c1; cbn; destruct (working c); reflexivity.
Qed.


(** ** Restaurants *)

(** C8. The upsert of a restaurant whose key exists keeps every row at
    its place with its key and its name, and a row is either unchanged
    or the row of that key with [updated_at] refreshed; a key seen for
    the first time is appended with a NULL name; no other table moves.
    Over a whole run, every restaurant row keeps its key and name. *)
Theorem upsert_restaurant_keeps_name now rid t :
  let t' := upsert_restaurant now rid t in
  (existsb (fun r => restaurant_id r =? rid) (restaurants t) = true ->
   List.length (restaurants t') = List.length (restaurants t)
   /\ forall k r,
       nth_error (restaurants t) k = Some r ->
       exists r',
         nth_error (restaurants t') k = Some r'
         /\ restaurant_id r' = restaurant_id r
         /\ name r' = name r
         /\ (r' = r
             \/ (restaurant_id r = rid
                 /\ r' = {| restaurant_id := restaurant_id r;
                            name := name r;
                            restaurant_updated_at := now |})))
  /\ (existsb (fun r => restaurant_id r =? rid) (restaurants t) = false ->
      restaurants t'
      = restaurants t ++ [{| restaurant_id := rid; name := None;
                             restaurant_updated_at := now |}])
  /\ (extraction_runs t' = extraction_runs t
      /\ menu_items t' = menu_items t
      /\ ingredients t' = ingredients t
      /\ menu_item_ingredient_observations t'
         = menu_item_ingredient_observations t
      /\ menu_item_ingredients t' = menu_item_ingredients t)
  /\ (forall cfg results m p v c k r,
         nth_error (restaurants (working c)) k = Some r ->
         exists r',
           nth_error
             (restaurants (working (snd (write_run cfg results m p v c)))) k
           = Some r'
           /\ restaurant_id r' = restaurant_id r /\ name r' = name r).
Proof.
  cbv zeta. split; [|split; [|split]].
  - intros Hex. destruct t as [ru re mi ig ob lk]. cbn in *. split.
    + apply upsert_present. exact Hex.
    + intros k r Hk.
      eapply upsert_nth
        with (R := fun r r' =>
                     restaurant_id r' = restaurant_id r
                     /\ name r' = name r
                     /\ (r' = r
                         \/ (restaurant_id r = rid
                             /\ r' = {| restaurant_id := restaurant_id r;
                                        name := name r;
                                        restaurant_updated_at := now |})));
        [ | | exact Hk].
      * intros x. auto.
      * intros x Hx. apply Z.eqb_eq in Hx. cbn. auto.
  - intros Hex. destruct t as [ru re mi ig ob lk]. cbn in *.
    apply upsert_absent. exact Hex.
  - destruct t; cbn. auto.
  - intros cfg results m p v c k r Hk.
    destruct (write_run cfg results m p v c) as [res c'] eqn:E. cbn [snd].
    apply write_run_grows in E. destruct E as [t0 [_ [_ [E3 G]]]].
    rewrite <- E3 in Hk.
    destruct (grows_restaurants _ _ _ _ G k r Hk) as [r' [H1 [H2 H3]]].
    exists r'. auto.
Qed.

(** ** Configuration *)

Lemma write_run_versions cfg1 cfg2 results m p v c :
  resolve_versions cfg1 p v = resolve_versions cfg2 p v ->
  write_run cfg1 results m p v c = write_run cfg2 results m p v c.
Proof. unfold write_run. intros H. rewrite H. reflexivity. Qed.

(** C9, as stated, fails: with [prompt_version] left to [None] the row
    written depends on the configuration module. *)
Lemma write_run_reads_config :
  ~ (forall cfg1 cfg2 results m p v c,
        extraction_runs (working (snd (write_run cfg1 results m p v c)))
        = extraction_runs (working (snd (write_run cfg2 results m p v c)))).
Proof.
  intros H.
  specialize (H (Config (Some (lit "v1")) None) NoConfig [] Sample.gpt
                None None Sample.fresh_conn).
  vm_compute in H. discriminate H.
Qed.

(** C9, amended. [model_name] comes from the parameter alone; a version
    that is given is written as given, and only a version passed as
    [None] is read from the configuration module.  With both versions
    given, the run does not depend on the configuration at all. *)
Theorem write_run_config_fills_missing_versions :
  (forall cfg1 cfg2 results m pv pipv c,
      write_run cfg1 results m (Some pv) (Some pipv) c
      = write_run cfg2 results m (Some pv) (Some pipv) c)
  /\ (forall cfg results m p v c run c',
         write_run cfg results m p v c = (Ok run, c') ->
         exists row,
           In row (extraction_runs (working c'))
           /\ run_id row = run
           /\ model_name row = m
           /\ prompt_version row
              = match p with
                | Some _ => p
                | None => fst (_get_pipeline_config cfg)
                end
           /\ pipeline_version row
              = match v with
                | Some _ => v
                | None => snd (_get_pipeline_config cfg)
                end).
Proof.
  split.
  - intros. apply write_run_versions. reflexivity.
  - intros cfg results m p v c run c' H.
    apply write_run_summary in H. destruct H as [Hrun [_ [Hruns _]]].
    exists (run_row cfg c m p v). rewrite Hruns.
    split; [apply in_or_app; right; left; reflexivity|].
    split; [symmetry; exact Hrun|]. split; [reflexivity|].
    unfold run_row, resolve_versions. cbn.
    destruct p, v, (_get_pipeline_config cfg); cbn; auto.
Qed.

(** ** A repeated ingredient *)

Lemma resolved_names_distinct t es acc :
  Forall2 (resolved t) es acc -> NoDup (map fst acc) ->
  NoDup (map (fun e => fst (fst e)) es).
Proof.
  induction 1 as [|e q es acc Hr F IH]; intros Nd; cbn; [constructor|].
  inversion Nd as [|a l Hnotin Nd']. subst. constructor; [|apply IH; exact Nd'].
  intros Hin. apply Hnotin. apply in_map_iff in Hin.
  destruct Hin as [e' [E He']].
  destruct (Forall2_in_left _ _ _ _ F He') as [q' [Hq' [R1 _]]].
  destruct Hr as [R2 _]. rewrite E in R1.
  assert (fst q' = fst q) by congruence.
  apply in_map_iff. exists q'. auto.
Qed.

(** A batch in which one result keeps two entries of the same canonical
    name never lets [write_run] complete. *)
Lemma repeated_ingredient_never_completes cfg results m p v c item rows es :
  In item results ->
  ingredient_rows item = Ok rows ->
  kept_entries rows = Some es ->
  ~ NoDup (map (fun e => fst (fst e)) es) ->
  forall run c', write_run cfg results m p v c <> (Ok run, c').
Proof.
  intros Hin Hrows Hes Hdup run c' H.
  apply write_run_summary in H.
  destruct H as [_ [_ [_ [_ [plan [F _]]]]]].
  destruct (Forall2_in_left _ _ _ _ F Hin) as [q [_ [_ [Hacc [Nd _]]]]].
  destruct Hacc as [rows' [es' [R [K F2]]]].
  assert (rows' = rows) by congruence. subst rows'.
  assert (es' = es) by congruence. subst es'.
  apply Hdup. eapply resolved_names_distinct; eassumption.
Qed.

(** C6, on the code: a result that lists tomato twice.  The second
    upsert of the observation overwrites the first (one row, the last
    confidence), but the second plain insert of the current link is
    refused, the run raises and nothing is committed. *)
Theorem twice_tomato_aborts :
  let out := write_run NoConfig [Sample.twice_tomato] Sample.gpt None None
                       Sample.fresh_conn in
  fst out = Raise IntegrityError
  /\ map obs_confidence
         (menu_item_ingredient_observations (working (snd out)))
     = [FFin (500 # 1000)]
  /\ map link_confidence (menu_item_ingredients (working (snd out)))
     = [FFin (900 # 1000)]
  /\ fst (run_with_transaction NoConfig [Sample.twice_tomato] Sample.gpt
                               None None None Sample.fresh_conn)
     = Raise IntegrityError
  /\ committed (snd (run_with_transaction NoConfig [Sample.twice_tomato]
                                          Sample.gpt None None None
                                          Sample.fresh_conn))
     = Store.empty.
Proof. vm_compute. repeat split; reflexivity. Qed.

(** ** Entries that are skipped, and the coercion of the confidence *)

Lemma ingredient_step_raise_entry run item seen ing e c :
  entry_of ing = Raise e ->
  ingredient_step run item seen ing c = (Raise e, c).
Proof. intros H. rewrite ingredient_step_entry, H. reflexivity. Qed.

(** C7, as stated, fails: an entry named "..." has an empty canonical
    key, yet with a confidence that is not a number the step raises. *)
Lemma empty_key_can_abort :
  ~ (forall run item seen ing c,
        empty_key ing ->
        ingredient_step run item seen ing c = (Ok seen, c)).
Proof.
  intros H.
  specialize (H 1 2 [] Sample.dots_bad_confidence Sample.fresh_conn).
  assert (Hk : empty_key Sample.dots_bad_confidence).
  { exists [(lit "name", VStr (lit "..."));
            (lit "confidence", VStr (lit "high"))], (lit "...").
    repeat split. }
  specialize (H Hk). vm_compute in H. discriminate H.
Qed.

Lemma item_step_bad_entry run item rows ing :
  ingredient_rows item = Ok rows -> In ing rows ->
  (exists e, entry_of ing = Raise e) ->
  forall s c, exists e c', item_step run s item c = (Raise e, c').
Proof.
  intros Hrows Hin [e He] [] c. unfold item_step.
  fold (ingredient_rows item). rewrite Hrows.
  unfold bind at 1.
  destruct (lift (int_field item (lit "item_id")) c) as [[iid|e1] c1];
    [|eauto].
  unfold bind at 1.
  destruct (lift (int_field item (lit "restaurant_id")) c1) as [[rid|e2] c2];
    [|eauto].
  unfold bind at 1.
  destruct (update _ c2) as [[u3|e3] c3]; [|eauto].
  unfold bind at 1.
  destruct (update _ c3) as [[u4|e4] c4]; [|eauto].
  unfold bind at 1. unfold lift at 1.
  unfold bind at 1.
  destruct (for_each_raises (ingredient_step run iid) rows) with
    (s := @nil (Z * pyfloat)) (c := c4) as [e5 [c5 H5]].
  - exists ing. split; [exact Hin|]. intros s0 c0. exists e, c0.
    apply ingredient_step_raise_entry. exact He.
  - rewrite H5. eauto.
Qed.

Lemma write_run_stops cfg results m p v c :
  (exists item, In item results
                /\ forall run s c0, exists e c', item_step run s item c0
                                                 = (Raise e, c')) ->
  exists e, fst (write_run cfg results m p v c) = Raise e.
Proof.
  intros [item [Hin Hm]].
  destruct (write_run cfg results m p v c) as [r c'] eqn:E. cbn.
  apply write_run_cases in E. cbv zeta in E.
  destruct E as [[e [E _]] | [_ [c1 [r1 [_ [Hl Hr]]]]]].
  - exists e. exact E.
  - destruct (for_each_raises (item_step (auto_run c)) results) with
      (s := tt) (c := c1) as [e [c2 He]].
    + exists item. split; [exact Hin|]. apply Hm.
    + rewrite He in Hl. inversion Hl. subst r1. exists e. exact Hr.
Qed.

Lemma transaction_raises cfg results m p v config c e :
  fst (write_run cfg results m p v c) = Raise e ->
  (exists e', fst (run_with_transaction cfg results m p v config c)
              = Raise e')
  /\ (autocommit (connection_config config) = false ->
      committed (snd (run_with_transaction cfg results m p v config c))
      = committed c).
Proof.
  rewrite run_with_transaction_eq.
  destruct (write_run cfg results m p v c) as [[run|e0] c1] eqn:E; cbn;
    [discriminate|].
  intros _. split; [eauto|].
  intros Ha. unfold settle. rewrite Ha. cbn.
  apply write_run_session in E. apply E.
Qed.

Lemma for_each_skip {A S : Type} (body : S -> A -> M S) x l1 l2 :
  (forall s c, body s x c = (Ok s, c)) ->
  forall s c,
    for_each body (l1 ++ x :: l2) s c = for_each body (l1 ++ l2) s c.
Proof.
  intros Hx. induction l1 as [|a l1 IH]; intros s c; cbn [app for_each].
  - unfold bind. rewrite Hx. reflexivity.
  - unfold bind. destruct (body s a c) as [[s'|e] c']; [apply IH|reflexivity].
Qed.

Lemma run_stops_at_bad_entry cfg results it rows ing m p v config c :
  In it results -> ingredient_rows it = Ok rows -> In ing rows ->
  (exists e, entry_of ing = Raise e) ->
  (exists e', fst (write_run cfg results m p v c) = Raise e')
  /\ (exists e', fst (run_with_transaction cfg results m p v config c)
                 = Raise e')
  /\ (autocommit (connection_config config) = false ->
      committed (snd (run_with_transaction cfg results m p v config c))
      = committed c).
Proof.
  intros Hin Hrows Hing He.
  destruct (write_run_stops cfg results m p v c) as [e' He'].
  - exists it. split; [exact Hin|]. intros run0 s0 c1.
    eapply item_step_bad_entry; eauto.
  - split; [eauto|]. eapply transaction_raises. exact He'.
Qed.

(** C7, amended. An entry whose canonical key is empty issues no
    statement and leaves the connection and the accumulator as they
    were, so that no row is persisted for it.  It is skipped without
    error when its stripped name is empty or when its confidence
    converts to a float, and the loop then goes on as if the entry
    were not in the list; when the stripped name is not empty and the
    conversion raises, that error is raised, and every run on a batch
    with this entry raises: [write_run] does, [run_with_transaction]
    does, and with [autocommit] off nothing is committed. *)
Theorem empty_key_entry_writes_nothing run item seen ing d s c :
  as_dict ing = Ok d ->
  str_strip (Py.or_else (Py.get d (lit "name") VNone) (VStr [])) = Ok s ->
  canonicalize_ingredient (VStr s) = [] ->
  snd (ingredient_step run item seen ing c) = c
  /\ (is_empty s = true ->
      ingredient_step run item seen ing c = (Ok seen, c))
  /\ (forall x, Py.float (Py.get d (lit "confidence") (VInt 0)) = Ok x ->
                ingredient_step run item seen ing c = (Ok seen, c))
  /\ (is_empty s = true
      \/ (exists x, Py.float (Py.get d (lit "confidence") (VInt 0)) = Ok x) ->
      forall before after seen0 c0,
        for_each (ingredient_step run item) (before ++ ing :: after) seen0 c0
        = for_each (ingredient_step run item) (before ++ after) seen0 c0)
  /\ (forall e, is_empty s = false ->
                Py.float (Py.get d (lit "confidence") (VInt 0)) = Raise e ->
                ingredient_step run item seen ing c = (Raise e, c)
                /\ forall cfg results it rows m p v config c0,
                    In it results -> ingredient_rows it = Ok rows ->
                    In ing rows ->
                    (exists e', fst (write_run cfg results m p v c0)
                                = Raise e')
                    /\ (exists e',
                           fst (run_with_transaction cfg results m p v
                                                     config c0)
                           = Raise e')
                    /\ (autocommit (connection_config config) = false ->
                        committed (snd (run_with_transaction
                                          cfg results m p v config c0))
                        = committed c0)).
Proof.
  intros Hd Hs Hk.
  assert (He : entry_of ing
               = if is_empty s then Ok None
                 else match Py.float (Py.get d (lit "confidence") (VInt 0))
                      with
                      | Ok _ => Ok None
                      | Raise e => Raise e
                      end).
  { unfold entry_of. rewrite Hd, Hs. destruct (is_empty s); [reflexivity|].
    destruct (Py.float _); [|reflexivity]. rewrite Hk. reflexivity. }
  rewrite ingredient_step_entry.
  split; [|split; [|split; [|split]]].
  - rewrite He. destruct (is_empty s); [reflexivity|].
    destruct (Py.float _); reflexivity.
  - intros H. rewrite He, H. reflexivity.
  - intros x H. rewrite He, H. destruct (is_empty s); reflexivity.
  - intros Hskip before after seen0 c0. apply for_each_skip.
    intros s1 c1. rewrite ingredient_step_entry, He.
    destruct Hskip as [H|[x H]]; rewrite H; [reflexivity|].
    destruct (is_empty s); reflexivity.
  - intros e Hne Hf. rewrite He, Hne, Hf. split; [reflexivity|].
    intros cfg results it rows m p v config c0 Hin Hrows Hing.
    eapply run_stops_at_bad_entry; try eassumption.
    exists e. rewrite He, Hne, Hf. reflexivity.
Qed.


(** ** The canonicalizer *)

Ltac by_cases_on_char c :=
  destruct c as [[] [] [] [] [] [] [] []]; vm_compute;
  try reflexivity; try discriminate; auto.

Lemma isspace_lower c : isspace (lower_char c) = isspace c.
Proof. by_cases_on_char c. Qed.

Lemma is_punct_lower c : is_punct (lower_char c) = is_punct c.
Proof. by_cases_on_char c. Qed.

Lemma punct_not_space c : is_punct c = true -> isspace c = false.
Proof. by_cases_on_char c. Qed.

Lemma space_not_line_feed c : ord c = 10 -> isspace c = true.
Proof. intros H. unfold isspace, between. rewrite H. reflexivity. Qed.

Lemma all_space_app w1 w2 :
  all_space (w1 ++ w2) <-> all_space w1 /\ all_space w2.
Proof. unfold all_space. rewrite forallb_app. apply andb_true_iff. Qed.

Lemma all_space_rev w : all_space w -> all_space (rev w).
Proof.
  unfold all_space. rewrite !forallb_forall. intros H x Hx.
  apply H. apply in_rev. exact Hx.
Qed.

Lemma all_space_lower w : all_space w -> all_space (lower w).
Proof.
  unfold all_space, lower. induction w as [|c w IH]; cbn; [auto|].
  rewrite isspace_lower. intros H. apply andb_true_iff in H.
  destruct H as [H1 H2]. rewrite H1. apply IH. exact H2.
Qed.

Lemma all_punct_lower p : all_punct p -> all_punct (lower p).
Proof.
  unfold all_punct, lower. induction p as [|c p IH]; cbn; [auto|].
  rewrite is_punct_lower. intros H. apply andb_true_iff in H.
  destruct H as [H1 H2]. rewrite H1. apply IH. exact H2.
Qed.

Lemma lstrip_space w x : all_space w -> lstrip (w ++ x) = lstrip x.
Proof.
  unfold all_space. induction w as [|c w IH]; cbn; [reflexivity|].
  intros H. apply andb_true_iff in H. destruct H as [H1 H2].
  rewrite H1. apply IH. exact H2.
Qed.

Lemma lstrip_all_space w : all_space w -> lstrip w = [].
Proof.
  intros H. rewrite <- (app_nil_r w). rewrite lstrip_space by exact H.
  reflexivity.
Qed.

Lemma lstrip_head c r : isspace c = false -> lstrip (c :: r) = c :: r.
Proof. intros H. cbn. rewrite H. reflexivity. Qed.

(** A string is its leading whitespace followed by what [lstrip]
    keeps, which is empty or starts with another character. *)
Lemma lstrip_split x :
  exists w, all_space w /\ x = w ++ lstrip x
            /\ (lstrip x = []
                \/ exists c r, lstrip x = c :: r /\ isspace c = false).
Proof.
  induction x as [|c x IH].
  - exists []. cbn. repeat split. left. reflexivity.
  - cbn. destruct (isspace c) eqn:E.
    + destruct IH as [w [H1 [H2 H3]]]. exists (c :: w). split; [|split].
      * unfold all_space in *. cbn. rewrite E, H1. reflexivity.
      * cbn. rewrite <- H2. reflexivity.
      * exact H3.
    + exists []. split; [reflexivity|]. split; [reflexivity|].
      right. exists c, x. auto.
Qed.

Lemma lstrip_keep u x :
  (exists c r, lstrip u = c :: r) -> lstrip (u ++ x) = lstrip u ++ x.
Proof.
  induction u as [|c u IH]; cbn.
  - intros [c [r H]]. discriminate H.
  - destruct (isspace c); [exact IH | reflexivity].
Qed.

Lemma rstrip_space x w : all_space w -> rstrip (x ++ w) = rstrip x.
Proof.
  intros H. unfold rstrip. rewrite rev_app_distr.
  rewrite lstrip_space by (apply all_space_rev; exact H). reflexivity.
Qed.

Lemma rstrip_last x c : isspace c = false -> rstrip (x ++ [c]) = x ++ [c].
Proof.
  intros H. unfold rstrip. rewrite rev_app_distr. cbn [rev app].
  rewrite lstrip_head by exact H. cbn [rev]. rewrite rev_involutive.
  reflexivity.
Qed.

(** The mirror image of [lstrip_split]. *)
Lemma rstrip_split x :
  exists w, all_space w /\ x = rstrip x ++ w
            /\ (rstrip x = []
                \/ exists z c, rstrip x = z ++ [c] /\ isspace c = false).
Proof.
  destruct (lstrip_split (rev x)) as [w [H1 [H2 H3]]].
  exists (rev w). split; [apply all_space_rev; exact H1|]. split.
  - unfold rstrip. rewrite <- rev_app_distr, <- H2, rev_involutive.
    reflexivity.
  - unfold rstrip. destruct H3 as [H3|[c [r [H3 H4]]]].
    + left. rewrite H3. reflexivity.
    + right. exists (rev r), c. rewrite H3. cbn. auto.
Qed.

Lemma strip_space_right s w : all_space w -> strip (s ++ w) = strip s.
Proof.
  intros Hw. unfold strip. induction s as [|c s IH]; cbn [app lstrip].
  - rewrite lstrip_all_space by exact Hw. reflexivity.
  - destruct (isspace c); [exact IH|].
    change (c :: s ++ w) with ((c :: s) ++ w).
    apply rstrip_space. exact Hw.
Qed.

Lemma strip_around w1 s w2 :
  all_space w1 -> all_space w2 -> strip (w1 ++ s ++ w2) = strip s.
Proof.
  intros H1 H2. unfold strip. rewrite lstrip_space by exact H1.
  apply strip_space_right. exact H2.
Qed.

Lemma lower_lstrip x : lower (lstrip x) = lstrip (lower x).
Proof.
  induction x as [|c x IH]; cbn; [reflexivity|].
  rewrite isspace_lower. destruct (isspace c); [exact IH | reflexivity].
Qed.

Lemma lower_strip x : lower (strip x) = strip (lower x).
Proof.
  unfold strip, rstrip, lower. rewrite map_rev.
  fold (lower (lstrip (rev (lstrip x)))). rewrite lower_lstrip.
  unfold lower at 1. rewrite map_rev.
  fold (lower (lstrip x)). rewrite lower_lstrip. reflexivity.
Qed.

Lemma forallb_rev {A : Type} (f : A -> bool) l :
  forallb f (rev l) = forallb f l.
Proof.
  induction l as [|x l IH]; cbn; [reflexivity|].
  rewrite forallb_app, IH. cbn. rewrite andb_true_r. apply andb_comm.
Qed.

Lemma lstrip_some u :
  forallb isspace u = false -> exists c r, lstrip u = c :: r.
Proof.
  induction u as [|c u IH]; cbn; [discriminate|].
  destruct (isspace c); cbn; [exact IH | eauto].
Qed.

Lemma rstrip_keep x v :
  forallb isspace v = false -> rstrip (x ++ v) = x ++ rstrip v.
Proof.
  intros H. unfold rstrip. rewrite rev_app_distr.
  rewrite lstrip_keep.
  - rewrite rev_app_distr, rev_involutive. reflexivity.
  - apply lstrip_some. rewrite forallb_rev. exact H.
Qed.

(** *** The substitution of whitespace runs *)

Lemma sub_ws_chars b x c :
  In c (sub_ws_from b x) -> isspace c = false \/ c = " "%char.
Proof.
  revert b. induction x as [|a x IH]; intros b; cbn; [intros []|].
  destruct (isspace a) eqn:E.
  - destruct b; cbn.
    + apply IH.
    + intros [H|H]; [right; symmetry; exact H | eapply IH; exact H].
  - cbn. intros [H|H]; [left; subst; exact E | eapply IH; exact H].
Qed.

Lemma sub_ws_is_collapse x :
  sub_ws_from false x = collapse x
  /\ forall c, isspace c = true ->
               " "%char :: sub_ws_from true x = collapse (c :: x).
Proof.
  induction x as [|a x [IH1 IH2]].
  - split; [reflexivity|]. intros c Hc. cbn. rewrite Hc. reflexivity.
  - split.
    + cbn [sub_ws_from]. destruct (isspace a) eqn:E.
      * apply IH2. exact E.
      * cbn [collapse]. rewrite E, IH1. reflexivity.
    + intros c Hc. cbn [sub_ws_from].
      change (collapse (c :: a :: x))
        with (if isspace c
              then (if isspace a then collapse (a :: x)
                    else " "%char :: collapse (a :: x))
              else c :: collapse (a :: x)).
      rewrite Hc. destruct (isspace a) eqn:E.
      * apply IH2. exact E.
      * cbn [collapse]. rewrite E, IH1. reflexivity.
Qed.

Lemma sub_ws_keep b a z :
  forallb (fun c => negb (isspace c)) z = true ->
  sub_ws_from b (a ++ z) = sub_ws_from b a ++ z.
Proof.
  intros Hz. revert b. induction a as [|c a IH]; intros b; cbn.
  - revert b. induction z as [|c z IHz]; intros b; cbn; [reflexivity|].
    cbn in Hz. apply andb_true_iff in Hz. destruct Hz as [H1 H2].
    apply negb_true_iff in H1. rewrite H1. f_equal. apply IHz. exact H2.
  - destruct (isspace c); [destruct b|]; cbn; rewrite IH; reflexivity.
Qed.

Lemma sub_ws_in_run w z :
  all_space w -> sub_ws_from true (w ++ z) = sub_ws_from true z.
Proof.
  unfold all_space. induction w as [|c w IH]; cbn; [reflexivity|].
  intros H. apply andb_true_iff in H. destruct H as [H1 H2].
  rewrite H1. apply IH. exact H2.
Qed.

Lemma sub_ws_run b w z :
  all_space w -> w <> [] ->
  sub_ws_from b (w ++ z)
  = (if b then [] else [" "%char]) ++ sub_ws_from true z.
Proof.
  destruct w as [|c w]; [intros _ H; contradiction|].
  intros H _. change (all_space ([c] ++ w)) in H.
  apply all_space_app in H. destruct H as [H1 H2].
  unfold all_space in H1. cbn in H1. rewrite andb_true_r in H1.
  cbn. rewrite H1, sub_ws_in_run by exact H2. destruct b; reflexivity.
Qed.

Lemma sub_ws_same_run b a w1 w2 z :
  all_space w1 -> all_space w2 -> w1 <> [] -> w2 <> [] ->
  sub_ws_from b (a ++ w1 ++ z) = sub_ws_from b (a ++ w2 ++ z).
Proof.
  intros H1 H2 N1 N2. revert b. induction a as [|c a IH]; intros b.
  - cbn [app]. rewrite !sub_ws_run by assumption. reflexivity.
  - cbn. destruct (isspace c); [destruct b|]; rewrite IH; reflexivity.
Qed.

(** *** The trailing punctuation *)

Lemma drop_punct_app p y :
  all_punct p -> drop_punct_head (p ++ y) = drop_punct_head y.
Proof.
  unfold all_punct. induction p as [|c p IH]; cbn; [reflexivity|].
  intros H. apply andb_true_iff in H. destruct H as [H1 H2].
  rewrite H1. apply IH. exact H2.
Qed.

Lemma rstrip_punct_app x p :
  all_punct p -> rstrip_punct (x ++ p) = rstrip_punct x.
Proof.
  intros H. unfold rstrip_punct. rewrite rev_app_distr.
  rewrite drop_punct_app; [reflexivity|].
  unfold all_punct. rewrite forallb_rev. exact H.
Qed.

Lemma rstrip_punct_last x c :
  is_punct c = false -> rstrip_punct (x ++ [c]) = x ++ [c].
Proof.
  intros H. unfold rstrip_punct. rewrite rev_app_distr. cbn.
  rewrite H. cbn. rewrite rev_involutive. reflexivity.
Qed.

Lemma sub_trailing_punct_plain z :
  (forall c r, rev z = c :: r -> (ord c =? 10) = false) ->
  sub_trailing_punct z = rstrip_punct z.
Proof.
  intros H. unfold sub_trailing_punct, rstrip_punct.
  destruct (rev z) as [|c r] eqn:E; [reflexivity|].
  rewrite (H c r eq_refl). reflexivity.
Qed.

Lemma sub_trailing_punct_sub_ws b x :
  sub_trailing_punct (sub_ws_from b x) = rstrip_punct (sub_ws_from b x).
Proof.
  apply sub_trailing_punct_plain. intros c r E.
  assert (Hin : In c (sub_ws_from b x)).
  { apply in_rev. rewrite E. left. reflexivity. }
  apply sub_ws_chars in Hin. destruct Hin as [H|H].
  - destruct (ord c =? 10) eqn:E10; [|reflexivity].
    apply Z.eqb_eq in E10. apply space_not_line_feed in E10. congruence.
  - subst c. reflexivity.
Qed.

(** The code computes what the policy says. *)
Lemma canonical_of_str_policy s : canonical_of_str s = canonicalize s.
Proof.
  unfold canonical_of_str, canonicalize, sub_ws.
  rewrite sub_trailing_punct_sub_ws.
  rewrite (proj1 (sub_ws_is_collapse _)). reflexivity.
Qed.

Lemma canonicalize_ingredient_str s :
  canonicalize_ingredient (VStr s) = canonical_of_str s.
Proof. destruct s; reflexivity. Qed.

(** *** Variants of a raw string *)

Lemma canonical_of_str_plain s :
  canonical_of_str s = strip (rstrip_punct (sub_ws (lower (strip s)))).
Proof.
  unfold canonical_of_str, sub_ws. rewrite sub_trailing_punct_sub_ws.
  reflexivity.
Qed.

Lemma canonical_same_case s s' :
  lower s = lower s' -> canonical_of_str s = canonical_of_str s'.
Proof.
  intros H. rewrite !canonical_of_str_plain, !lower_strip, H. reflexivity.
Qed.

Lemma canonical_around w1 s w2 :
  all_space w1 -> all_space w2 ->
  canonical_of_str (w1 ++ s ++ w2) = canonical_of_str s.
Proof.
  intros H1 H2. rewrite !canonical_of_str_plain.
  rewrite strip_around by assumption. reflexivity.
Qed.

Lemma lower_nonempty w : w <> [] -> lower w <> [].
Proof. destruct w; [contradiction | discriminate]. Qed.

Lemma canonical_same_run u w1 w2 v :
  all_space w1 -> all_space w2 -> w1 <> [] -> w2 <> [] ->
  canonical_of_str (u ++ w1 ++ v) = canonical_of_str (u ++ w2 ++ v).
Proof.
  intros H1 H2 N1 N2. rewrite !canonical_of_str_plain.
  destruct (forallb isspace u) eqn:Eu.
  - assert (E : forall w, all_space w -> strip (u ++ w ++ v) = strip v).
    { intros w Hw. rewrite app_assoc. unfold strip.
      rewrite lstrip_space; [reflexivity|].
      apply all_space_app. split; assumption. }
    rewrite !E by assumption. reflexivity.
  - destruct (forallb isspace v) eqn:Ev.
    + assert (E : forall w, all_space w -> strip (u ++ w ++ v) = strip u).
      { intros w Hw. apply strip_space_right.
        apply all_space_app. split; assumption. }
      rewrite !E by assumption. reflexivity.
    + assert (E : forall w, strip (u ++ w ++ v) = lstrip u ++ w ++ rstrip v).
      { intros w. unfold strip.
        rewrite lstrip_keep by (apply lstrip_some; exact Eu).
        rewrite app_assoc, rstrip_keep by exact Ev.
        rewrite <- app_assoc. reflexivity. }
      rewrite !E. unfold lower. rewrite !map_app.
      do 2 f_equal. unfold sub_ws.
      apply sub_ws_same_run;
        auto using all_space_lower, lower_nonempty.
Qed.

Lemma lstrip_before s q p :
  isspace q = false -> lstrip (s ++ q :: p) = lstrip s ++ q :: p.
Proof.
  intros H. induction s as [|c s IH]; cbn.
  - rewrite H. reflexivity.
  - destruct (isspace c); [exact IH | reflexivity].
Qed.

Lemma all_punct_no_space p :
  all_punct p -> forallb (fun c => negb (isspace c)) p = true.
Proof.
  unfold all_punct. induction p as [|c p IH]; cbn; [auto|].
  intros H. apply andb_true_iff in H. destruct H as [H1 H2].
  rewrite (punct_not_space c H1). cbn. apply IH. exact H2.
Qed.

Lemma strip_before_punct s p :
  all_punct p -> p <> [] -> strip (s ++ p) = lstrip s ++ p.
Proof.
  intros Hp Hne. unfold strip.
  destruct p as [|q p]; [contradiction|].
  assert (Hq : isspace q = false).
  { apply punct_not_space. unfold all_punct in Hp. cbn in Hp.
    apply andb_true_iff in Hp. apply Hp. }
  rewrite lstrip_before by exact Hq.
  destruct (@exists_last _ (q :: p)) as [p0 [l E]]; [discriminate|].
  rewrite E in *. rewrite app_assoc. apply rstrip_last.
  apply punct_not_space. unfold all_punct in Hp.
  rewrite forallb_app in Hp. apply andb_true_iff in Hp.
  destruct Hp as [_ Hp]. cbn in Hp. rewrite andb_true_r in Hp. exact Hp.
Qed.

Lemma sub_ws_word_then_run b a c w :
  isspace c = false -> all_space w -> w <> [] ->
  sub_ws_from b (a ++ [c] ++ w) = sub_ws_from b (a ++ [c]) ++ [" "%char].
Proof.
  intros Hc Hw Hne. revert b. induction a as [|x a IH]; intros b.
  - cbn. rewrite Hc. f_equal.
    rewrite <- (app_nil_r w). rewrite sub_ws_run by assumption. reflexivity.
  - cbn. destruct (isspace x); [destruct b|]; cbn; rewrite IH; reflexivity.
Qed.

Lemma punct_then_space_split s rw c rest :
  all_space rw -> rw <> [] -> isspace c = false ->
  rev s = rw ++ c :: rest ->
  punct_then_space s = is_punct c.
Proof.
  intros Hw Hne Hc E. unfold punct_then_space. rewrite E.
  rewrite lstrip_space by exact Hw. rewrite lstrip_head by exact Hc.
  destruct rw as [|a rw]; [contradiction|]. cbn.
  unfold all_space in Hw. cbn in Hw. apply andb_true_iff in Hw.
  destruct Hw as [Ha _]. rewrite Ha. reflexivity.
Qed.

Lemma canonical_after_lstrip s :
  attached s ->
  strip (rstrip_punct (sub_ws (lower (lstrip s))))
  = strip (rstrip_punct (sub_ws (lower (strip s)))).
Proof.
  intros Hat. change (strip s) with (rstrip (lstrip s)).
  destruct (rstrip_split (lstrip s)) as [w [Hw [Hy Hz]]].
  destruct w as [|c0 w'].
  { rewrite app_nil_r in Hy. rewrite <- Hy. reflexivity. }
  destruct Hz as [Hz | [z [c [Hz Hc]]]].
  - exfalso. rewrite Hz in Hy. cbn in Hy.
    destruct (lstrip_split s) as [_ [_ [_ [H|[a [r [H Ha]]]]]]].
    + rewrite H in Hy. discriminate Hy.
    + rewrite H in Hy. inversion Hy. subst a.
      unfold all_space in Hw. cbn in Hw. apply andb_true_iff in Hw.
      destruct Hw as [Hw _]. congruence.
  - assert (Hp : is_punct c = false).
    { destruct (lstrip_split s) as [w0 [Hw0 [Hs _]]].
      rewrite <- (punct_then_space_split s (rev (c0 :: w')) c
                    (rev z ++ rev w0)).
      - exact Hat.
      - apply all_space_rev. exact Hw.
      - intros E. apply (f_equal (@rev ascii)) in E.
        rewrite rev_involutive in E. discriminate E.
      - exact Hc.
      - rewrite Hs, Hy, Hz. rewrite !rev_app_distr. cbn [rev app].
        rewrite <- !app_assoc. reflexivity. }
    rewrite Hy at 1. rewrite Hz. unfold lower, sub_ws.
    rewrite !map_app. cbn [map]. rewrite <- app_assoc.
    rewrite sub_ws_word_then_run;
      [ | rewrite isspace_lower; exact Hc
        | apply (all_space_lower (c0 :: w')); exact Hw
        | discriminate ].
    rewrite rstrip_punct_last by reflexivity.
    rewrite strip_space_right by reflexivity.
    rewrite sub_ws_keep by (cbn; rewrite isspace_lower, Hc; reflexivity).
    rewrite rstrip_punct_last by (rewrite is_punct_lower; exact Hp).
    reflexivity.
Qed.

Lemma canonical_append_punct s p :
  all_punct p -> attached s ->
  canonical_of_str (s ++ p) = canonical_of_str s.
Proof.
  intros Hp Hat.
  destruct p as [|q p]; [rewrite app_nil_r; reflexivity|].
  rewrite !canonical_of_str_plain.
  rewrite strip_before_punct by (auto; discriminate).
  unfold lower at 1. rewrite map_app. unfold sub_ws at 1.
  rewrite sub_ws_keep
    by (apply all_punct_no_space; apply (all_punct_lower (q :: p)); exact Hp).
  rewrite rstrip_punct_app by (apply (all_punct_lower (q :: p)); exact Hp).
  apply canonical_after_lstrip. exact Hat.
Qed.

Lemma canonical_of_variants s s' :
  differ_only attached s s' -> canonical_of_str s = canonical_of_str s'.
Proof.
  induction 1 as [s s' H | w1 s w2 H1 H2 | u w1 w2 v H1 H2 N1 N2
                 | s p Hp Hs | s | s s' _ IH | s1 s2 s3 _ IH1 _ IH2].
  - apply canonical_same_case. exact H.
  - symmetry. apply canonical_around; assumption.
  - apply canonical_same_run; assumption.
  - symmetry. apply canonical_append_punct; assumption.
  - reflexivity.
  - symmetry. exact IH.
  - congruence.
Qed.

(** C5, as stated, fails: "tomato. " and "tomato. ." differ only in
    trailing punctuation, and their canonical keys differ. *)
Lemma punctuation_after_space_differs :
  ~ (forall s s',
        differ_only anywhere s s' ->
        canonicalize_ingredient (VStr s) = canonicalize_ingredient (VStr s')).
Proof.
  intros H.
  specialize (H (lit "tomato. ") (lit "tomato. " ++ lit ".")).
  assert (D : differ_only anywhere (lit "tomato. ")
                          (lit "tomato. " ++ lit ".")).
  { apply differ_punct; [reflexivity | exact I]. }
  specialize (H D). vm_compute in H. discriminate H.
Qed.

(** C5, amended. [canonicalize_ingredient] trims, lowercases, collapses
    every whitespace run to one space, strips the trailing punctuation
    and trims again.  Raw strings that differ only in case, surrounding
    whitespace, whitespace runs, or punctuation appended to a string
    that does not already end with punctuation followed by whitespace,
    have the same key; "Tomato.", " tomato  " and "TOMATO" give
    "tomato"; an empty, whitespace-only or non-string argument gives the
    empty string. *)
Theorem canonicalize_ingredient_policy :
  (forall s, canonicalize_ingredient (VStr s) = canonicalize s)
  /\ (forall s s',
         differ_only attached s s' ->
         canonicalize_ingredient (VStr s) = canonicalize_ingredient (VStr s'))
  /\ canonicalize_ingredient (VStr (lit "Tomato.")) = lit "tomato"
  /\ canonicalize_ingredient (VStr (lit " tomato  ")) = lit "tomato"
  /\ canonicalize_ingredient (VStr (lit "TOMATO")) = lit "tomato"
  /\ (forall w, all_space w -> canonicalize_ingredient (VStr w) = [])
  /\ (forall v, (forall s, v <> VStr s) -> canonicalize_ingredient v = []).
Proof.
  split; [|split; [|split; [|split; [|split; [|split]]]]].
  - intros s. rewrite canonicalize_ingredient_str.
    apply canonical_of_str_policy.
  - intros s s' H. rewrite !canonicalize_ingredient_str.
    apply canonical_of_variants. exact H.
  - reflexivity.
  - reflexivity.
  - reflexivity.
  - intros w Hw. rewrite canonicalize_ingredient_str.
    replace w with (w ++ [] ++ []) by apply app_nil_r.
    rewrite (canonical_around w [] []); [reflexivity | exact Hw | reflexivity].
  - intros v Hv. destruct v; try reflexivity.
    exfalso. eapply Hv. reflexivity.
Qed.

(** * Concrete runs *)

(** The end-to-end scenario: one item, two ingredients. *)
Lemma pizza_links :
  exists acc,
    accumulated
      (working (snd (write_run NoConfig [Sample.pizza] Sample.gpt None None
                               Sample.fresh_conn)))
      Sample.pizza acc
    /\ links_of 1
         (menu_item_ingredients
            (working (snd (write_run NoConfig [Sample.pizza] Sample.gpt
                                     None None Sample.fresh_conn))))
       = map (link_of 1) acc.
Proof.
  apply (write_run_links_are_last_result
           NoConfig [Sample.pizza] Sample.gpt None None Sample.fresh_conn 1
           (snd (write_run NoConfig [Sample.pizza] Sample.gpt None None
                           Sample.fresh_conn))
           [] Sample.pizza [] 1).
  - vm_compute. reflexivity.
  - reflexivity.
  - reflexivity.
  - intros it [].
Defined.


(** The scenario run twice on the same connection. *)
Lemma pizza_replayed :
  menu_item_ingredients
    (working
       (snd (write_run NoConfig [Sample.pizza] Sample.gpt None None
               (snd (write_run NoConfig [Sample.pizza] Sample.gpt None
                               None Sample.fresh_conn)))))
  = menu_item_ingredients
      (working (snd (write_run NoConfig [Sample.pizza] Sample.gpt None
                               None Sample.fresh_conn))).
Proof.
  apply (proj1 (proj2 (proj2 (proj2 (proj2
    (proj2
       (replay_leaves_same_snapshot
          NoConfig [Sample.pizza] Sample.gpt None None Sample.fresh_conn 1
          (snd (write_run NoConfig [Sample.pizza] Sample.gpt None None
                          Sample.fresh_conn))
          (snd (write_run NoConfig [Sample.pizza] Sample.gpt None None
                          Sample.fresh_conn))
          ltac:(vm_compute; reflexivity)
          eq_refl
          ltac:(vm_compute; discriminate))
       2
       (snd (write_run NoConfig [Sample.pizza] Sample.gpt None None
               (snd (write_run NoConfig [Sample.pizza] Sample.gpt None
                               None Sample.fresh_conn))))
       ltac:(vm_compute; reflexivity))))))).
Defined.


(** Three spellings of one ingredient. *)
Lemma tomato_spellings :
  differ_only attached (lit " tomato  ") (lit "Tomato.")
  /\ canonicalize_ingredient (VStr (lit " tomato  "))
     = canonicalize_ingredient (VStr (lit "Tomato.")).
Proof.
  assert (D : differ_only attached (lit " tomato  ") (lit "Tomato.")).
  { apply differ_trans with (s2 := lit "tomato").
    - apply differ_sym.
      apply (differ_around attached (lit " ") (lit "tomato") (lit "  "));
        reflexivity.
    - apply differ_trans with (s2 := lit "tomato" ++ lit ".").
      + apply differ_punct; reflexivity.
      + apply differ_case. reflexivity. }
  split; [exact D|].
  apply (proj1 (proj2 canonicalize_ingredient_policy)). exact D.
Defined.

(** An entry named "..." with a numeric confidence is skipped. *)
Lemma dots_entry_skipped :
  ingredient_step 1 2 [] (Sample.entry "..." (1 # 2)) Sample.fresh_conn
  = (Ok [], Sample.fresh_conn).
Proof.
  apply (proj1 (proj2 (proj2
           (empty_key_entry_writes_nothing
              1 2 [] (Sample.entry "..." (1 # 2))
              [(lit "name", VStr (lit "..."));
               (lit "confidence", VFloat (FFin (1 # 2)))]
              (lit "...") Sample.fresh_conn
              eq_refl eq_refl eq_refl)))
           (FFin (1 # 2))).
  reflexivity.
Defined.

(** A second sight of restaurant 10, which has a name. *)
Lemma restaurant_ten_keeps_name :
  exists r',
    nth_error
      (restaurants
         (upsert_restaurant 7 10
            (set_restaurants Store.empty
               [{| restaurant_id := 10; name := Some (lit "Da Mario");
                   restaurant_updated_at := 3 |}])))
      0
    = Some r'
    /\ restaurant_id r' = 10
    /\ name r' = Some (lit "Da Mario").
Proof.
  destruct (proj1 (upsert_restaurant_keeps_name 7 10
             (set_restaurants Store.empty
                [{| restaurant_id := 10; name := Some (lit "Da Mario");
                    restaurant_updated_at := 3 |}])) eq_refl)
    as [_ H].
  destruct (H 0%nat _ eq_refl) as [r' [H1 [H2 [H3 _]]]].
  exists r'. split; [exact H1|]. split; [exact H2 | exact H3].
Defined.

(** The run row of the scenario with a version left to the
    configuration. *)
Lemma pizza_run_row :
  exists row,
    In row (extraction_runs
              (working (snd (write_run (Config (Some (lit "v1")) None)
                                       [Sample.pizza] Sample.gpt None None
                                       Sample.fresh_conn))))
    /\ run_id row = 1
    /\ model_name row = Sample.gpt
    /\ prompt_version row = Some (lit "v1")
    /\ pipeline_version row = None.
Proof.
  apply (proj2 write_run_config_fills_missing_versions
           (Config (Some (lit "v1")) None) [Sample.pizza] Sample.gpt None
           None Sample.fresh_conn 1).
  vm_compute. reflexivity.
Defined.


(** The end-to-end scenario, then the same item with its list reduced
    to mozzarella: the tomato-sauce link is gone, its observation of the
    first run stays. *)
Example scenario_then_reduced :
  let c1 := snd (run_with_transaction NoConfig [Sample.pizza] Sample.gpt
                                      None None None Sample.fresh_conn) in
  let c2 := snd (run_with_transaction NoConfig [Sample.pizza_reduced]
                                      Sample.gpt None None None
                                      (set_open c1 true)) in
  map restaurant_id (restaurants (committed c1)) = [10]
  /\ map canonical_name (ingredients (committed c1))
     = [lit "tomato sauce"; lit "mozzarella"]
  /\ map link_confidence (menu_item_ingredients (committed c1))
     = [FFin (950 # 1000); FFin (800 # 1000)]
  /\ map run_id (extraction_runs (committed c2)) = [1; 2]
  /\ map (fun o => (obs_run_id o, obs_ingredient_id o))
         (menu_item_ingredient_observations (committed c2))
     = [(1, 1); (1, 2); (2, 2)]
  /\ map (fun l => (link_item_id l, link_ingredient_id l))
         (menu_item_ingredients (committed c2))
     = [(1, 2)].
Proof. vm_compute. repeat split; reflexivity. Qed.

(** A batch whose second result carries an entry named "..." with a
    textual confidence: nothing of the first result is committed. *)
Example dots_item_aborts :
  run_with_transaction NoConfig [Sample.pizza; Sample.dots_item] Sample.gpt
                       None None None Sample.fresh_conn
  = (Raise ValueError,
     close (tick
              (snd (write_run NoConfig [Sample.pizza; Sample.dots_item]
                              Sample.gpt None None Sample.fresh_conn))))
  /\ committed
       (snd (run_with_transaction NoConfig [Sample.pizza; Sample.dots_item]
                                  Sample.gpt None None None
                                  Sample.fresh_conn))
     = Store.empty.
Proof. vm_compute. split; reflexivity. Qed.

(** An entry without a confidence is stored at 0.0. *)
Example basil_item_stored :
  let c1 := snd (run_with_transaction NoConfig [Sample.basil_item] Sample.gpt
                                      None None None Sample.fresh_conn) in
  map obs_confidence (menu_item_ingredient_observations (committed c1))
  = [FFin (0 # 1000)]
  /\ map link_confidence (menu_item_ingredients (committed c1))
     = [FFin (0 # 1000)].
Proof. vm_compute. split; reflexivity. Qed.

(** * Further properties *)

(** ** The shape of a canonical key *)

Lemma lstrip_idem x : lstrip (lstrip x) = lstrip x.
Proof.
  destruct (lstrip_split x) as [_ [_ [_ [H|[c [r [H Hc]]]]]]]; rewrite H.
  - reflexivity.
  - apply lstrip_head. exact Hc.
Qed.

Lemma rstrip_idem x : rstrip (rstrip x) = rstrip x.
Proof.
  unfold rstrip. rewrite rev_involutive, lstrip_idem. reflexivity.
Qed.

Lemma lstrip_strip x : lstrip (strip x) = strip x.
Proof.
  unfold strip.
  destruct (lstrip_split x) as [_ [_ [_ [H|[c [r [H Hc]]]]]]]; rewrite H.
  - reflexivity.
  - destruct (rstrip_split (c :: r)) as [w [_ [E [Hz|[z [d [Hz Hd]]]]]]].
    + rewrite Hz. reflexivity.
    + rewrite Hz in *. destruct z as [|a z]; cbn in E; inversion E; subst.
      * cbn. rewrite Hd. reflexivity.
      * cbn. rewrite Hc. reflexivity.
Qed.

Lemma strip_idem x : strip (strip x) = strip x.
Proof.
  unfold strip at 1. rewrite lstrip_strip. unfold strip.
  apply rstrip_idem.
Qed.

Lemma lower_char_idem c : lower_char (lower_char c) = lower_char c.
Proof. by_cases_on_char c. Qed.

Lemma lower_idem x : lower (lower x) = lower x.
Proof.
  unfold lower. rewrite map_map. apply map_ext. apply lower_char_idem.
Qed.

Lemma lower_sub_ws b x : lower (sub_ws_from b x) = sub_ws_from b (lower x).
Proof.
  revert b. induction x as [|c x IH]; intros b; cbn; [reflexivity|].
  rewrite isspace_lower.
  destruct (isspace c); [destruct b|]; cbn; rewrite IH; reflexivity.
Qed.

Lemma lower_drop_punct x :
  lower (drop_punct_head x) = drop_punct_head (lower x).
Proof.
  induction x as [|c x IH]; cbn; [reflexivity|].
  rewrite is_punct_lower. destruct (is_punct c); [exact IH | reflexivity].
Qed.

Lemma lower_rstrip_punct x : lower (rstrip_punct x) = rstrip_punct (lower x).
Proof.
  unfold rstrip_punct, lower. rewrite map_rev.
  fold (lower (drop_punct_head (rev x))). rewrite lower_drop_punct.
  unfold lower. rewrite map_rev. reflexivity.
Qed.

Lemma rstrip_punct_split x :
  exists p, all_punct p /\ x = rstrip_punct x ++ p.
Proof.
  unfold rstrip_punct.
  assert (H : forall y, exists q, forallb is_punct q = true
                                  /\ y = q ++ drop_punct_head y).
  { induction y as [|c y [q [H1 H2]]].
    - exists []. auto.
    - cbn. destruct (is_punct c) eqn:E.
      + exists (c :: q). cbn. rewrite E, H1. split; [reflexivity|].
        f_equal. exact H2.
      + exists []. auto. }
  destruct (H (rev x)) as [q [H1 H2]].
  exists (rev q). split.
  - unfold all_punct. rewrite forallb_rev. exact H1.
  - rewrite <- rev_app_distr, <- H2, rev_involutive. reflexivity.
Qed.

Lemma spaced_once_app a b :
  spaced_once (a ++ b) = true -> spaced_once a = true /\ spaced_once b = true.
Proof.
  induction a as [|c a IH]; cbn [app]; [auto|].
  cbn [spaced_once]. intros H. apply andb_true_iff in H.
  destruct H as [H1 H2]. destruct (IH H2) as [Ha Hb].
  split; [|exact Hb]. rewrite Ha, andb_true_r.
  destruct (negb (isspace c)); [reflexivity|]. cbn in *.
  destruct (Ascii.eqb c " "); [|discriminate H1]. cbn in *.
  destruct a as [|d a]; [reflexivity|]. exact H1.
Qed.

Lemma spaced_once_sub_ws b x : spaced_once (sub_ws_from b x) = true.
Proof.
  revert b. induction x as [|c x IH]; intros b; [reflexivity|].
  cbn [sub_ws_from]. destruct (isspace c) eqn:E.
  - destruct b; [apply IH|].
    cbn [spaced_once]. rewrite IH, andb_true_r. cbn.
    destruct x as [|d x]; [reflexivity|].
    clear IH. induction (d :: x) as [|e y IHy]; [reflexivity|].
    cbn [sub_ws_from]. destruct (isspace e) eqn:Ee; [exact IHy|].
    rewrite Ee. reflexivity.
  - cbn [spaced_once]. rewrite E, IH. reflexivity.
Qed.

Lemma spaced_once_fixed x :
  spaced_once x = true -> sub_ws_from false x = x.
Proof.
  induction x as [|c x IH]; [reflexivity|].
  cbn [spaced_once sub_ws_from]. intros H. apply andb_true_iff in H.
  destruct H as [H1 H2]. destruct (isspace c) eqn:E; cbn in H1.
  - destruct (Ascii.eqb c " ") eqn:Ec; [|discriminate H1].
    apply Ascii.eqb_eq in Ec. subst c. f_equal.
    destruct x as [|d x]; [reflexivity|]. cbn in H1.
    apply negb_true_iff in H1. specialize (IH H2).
    cbn [sub_ws_from] in IH |- *. rewrite H1 in IH |- *. exact IH.
  - f_equal. apply IH. exact H2.
Qed.

Lemma canonical_shape s :
  strip (canonical_of_str s) = canonical_of_str s
  /\ spaced_once (canonical_of_str s) = true.
Proof.
  rewrite canonical_of_str_plain. split; [apply strip_idem|].
  set (y := sub_ws (lower (strip s))).
  assert (Hy : spaced_once y = true) by apply spaced_once_sub_ws.
  destruct (rstrip_punct_split y) as [p [_ Ep]].
  rewrite Ep in Hy. apply spaced_once_app in Hy. destruct Hy as [Hy _].
  set (z := rstrip_punct y) in *. unfold strip.
  destruct (lstrip_split z) as [w [_ [Ew _]]].
  rewrite Ew in Hy. apply spaced_once_app in Hy. destruct Hy as [_ Hy].
  destruct (rstrip_split (lstrip z)) as [w' [_ [Ew' _]]].
  rewrite Ew' in Hy. apply spaced_once_app in Hy. apply Hy.
Qed.

(** X1. A canonical key has no whitespace at either end, and its only
    whitespace characters are single spaces between the words. *)
Theorem canonical_key_is_trimmed_and_single_spaced v :
  strip (canonicalize_ingredient v) = canonicalize_ingredient v
  /\ spaced_once (canonicalize_ingredient v) = true.
Proof.
  destruct v as [| | | |s| |]; try (split; reflexivity).
  rewrite canonicalize_ingredient_str. apply canonical_shape.
Qed.

Lemma canonical_lower s : lower (canonical_of_str s) = canonical_of_str s.
Proof.
  rewrite canonical_of_str_plain.
  rewrite lower_strip, lower_rstrip_punct. unfold sub_ws.
  rewrite lower_sub_ws, lower_idem. reflexivity.
Qed.

(** X2. A canonical key holds no upper-case letter: lower-casing it
    changes nothing. *)
Theorem canonical_key_is_lowercase v :
  lower (canonicalize_ingredient v) = canonicalize_ingredient v.
Proof.
  destruct v as [| | | |s| |]; try reflexivity.
  rewrite canonicalize_ingredient_str. apply canonical_lower.
Qed.

Lemma strip_nil_all_space z : strip z = [] -> all_space z.
Proof.
  unfold strip. intros H.
  destruct (lstrip_split z) as [w [Hw [Ew _]]].
  destruct (rstrip_split (lstrip z)) as [w' [Hw' [Ew' _]]].
  rewrite H in Ew'. cbn in Ew'. rewrite Ew' in Ew. rewrite Ew.
  apply all_space_app. split; assumption.
Qed.

Lemma sub_ws_all_punct x : all_punct (sub_ws_from false x) -> all_punct x.
Proof.
  unfold all_punct. induction x as [|c x IH]; [auto|].
  cbn [sub_ws_from]. destruct (isspace c) eqn:E.
  - cbn. discriminate.
  - cbn. intros H. apply andb_true_iff in H. destruct H as [H1 H2].
    rewrite H1. apply IH. exact H2.
Qed.

Lemma lower_all_punct x : all_punct (lower x) -> all_punct x.
Proof.
  unfold all_punct, lower. induction x as [|c x IH]; cbn; [auto|].
  rewrite is_punct_lower. intros H. apply andb_true_iff in H.
  destruct H as [H1 H2]. rewrite H1. apply IH. exact H2.
Qed.

Lemma canonical_nil s : canonical_of_str s = [] <-> all_punct (strip s).
Proof.
  rewrite canonical_of_str_plain. split.
  - intros H. apply strip_nil_all_space in H.
    apply lower_all_punct. apply sub_ws_all_punct.
    fold (sub_ws (lower (strip s))).
    destruct (rstrip_punct_split (sub_ws (lower (strip s)))) as [p [Hp Ep]].
    destruct (rstrip_punct (sub_ws (lower (strip s)))) as [|a z] eqn:Ez.
    + rewrite Ep. exact Hp.
    + exfalso. unfold all_space in H. cbn in H.
      apply andb_true_iff in H. destruct H as [Ha _].
      pose proof (lstrip_strip s) as Hl.
      destruct (strip s) as [|c r]; [discriminate Ep|].
      cbn in Hl. destruct (isspace c) eqn:Ec.
      * pose proof (lstrip_split r) as [w [_ [Ew _]]].
        apply (f_equal (@List.length ascii)) in Ew.
        rewrite Hl, length_app in Ew. cbn in Ew. lia.
      * unfold sub_ws in Ep. cbn in Ep. rewrite isspace_lower, Ec in Ep.
        inversion Ep; subst a. rewrite isspace_lower, Ec in Ha.
        discriminate Ha.
  - intros H. apply all_punct_lower in H.
    unfold sub_ws.
    rewrite <- (app_nil_l (lower (strip s))).
    rewrite sub_ws_keep by (apply all_punct_no_space; exact H).
    cbn [sub_ws_from]. rewrite rstrip_punct_app by exact H. reflexivity.
Qed.

(** X3. The canonical key of a string is empty exactly when the
    string, with surrounding whitespace removed, holds nothing but the
    punctuation characters [. , ; : ! ?] (an empty or blank string
    included); every other value that is not a string has the empty
    key, too. *)
Theorem canonical_key_empty_iff v :
  canonicalize_ingredient v = []
  <-> match v with
      | VStr s => all_punct (strip s)
      | _ => True
      end.
Proof.
  destruct v as [| | | |s| |]; try (split; [exact (fun _ => I)|reflexivity]).
  rewrite canonicalize_ingredient_str. apply canonical_nil.
Qed.

Lemma lstrip_length x : (List.length (lstrip x) <= List.length x)%nat.
Proof.
  destruct (lstrip_split x) as [w [_ [E _]]].
  rewrite E at 2. rewrite length_app. lia.
Qed.

Lemma rstrip_length x : (List.length (rstrip x) <= List.length x)%nat.
Proof.
  destruct (rstrip_split x) as [w [_ [E _]]].
  rewrite E at 2. rewrite length_app. lia.
Qed.

Lemma strip_length x : (List.length (strip x) <= List.length x)%nat.
Proof.
  unfold strip. pose proof (rstrip_length (lstrip x)).
  pose proof (lstrip_length x). lia.
Qed.

Lemma rstrip_punct_length x :
  (List.length (rstrip_punct x) <= List.length x)%nat.
Proof.
  destruct (rstrip_punct_split x) as [p [_ E]].
  rewrite E at 2. rewrite length_app. lia.
Qed.

Lemma sub_ws_length b x :
  (List.length (sub_ws_from b x) <= List.length x)%nat.
Proof.
  revert b. induction x as [|c x IH]; intros b; cbn; [lia|].
  destruct (isspace c); [destruct b|]; cbn;
    [pose proof (IH true)|pose proof (IH true)|pose proof (IH false)]; lia.
Qed.

Lemma canonical_length s :
  (List.length (canonical_of_str s) <= List.length s)%nat.
Proof.
  rewrite canonical_of_str_plain.
  pose proof (strip_length (rstrip_punct (sub_ws (lower (strip s))))).
  pose proof (rstrip_punct_length (sub_ws (lower (strip s)))).
  pose proof (sub_ws_length false (lower (strip s))).
  fold (sub_ws (lower (strip s))) in *.
  pose proof (strip_length s).
  unfold lower in *. rewrite length_map in *. lia.
Qed.

Lemma rstrip_punct_fixed k : ends_with_punct k = false -> rstrip_punct k = k.
Proof.
  unfold ends_with_punct, rstrip_punct. intros H.
  rewrite <- (rev_involutive k) at 2.
  destruct (rev k) as [|c r]; [reflexivity|].
  cbn [drop_punct_head]. rewrite H. reflexivity.
Qed.

Lemma canonical_again s :
  canonical_of_str (canonical_of_str s)
  = strip (rstrip_punct (canonical_of_str s)).
Proof.
  destruct (canonical_shape s) as [H1 H2].
  rewrite (canonical_of_str_plain (canonical_of_str s)).
  rewrite H1, canonical_lower. unfold sub_ws.
  rewrite (spaced_once_fixed _ H2). reflexivity.
Qed.

Lemma canonical_fixed_iff s :
  canonical_of_str (canonical_of_str s) = canonical_of_str s
  <-> ends_with_punct (canonical_of_str s) = false.
Proof.
  rewrite canonical_again. destruct (canonical_shape s) as [H1 _].
  set (k := canonical_of_str s) in *. split.
  - intros H. destruct (ends_with_punct k) eqn:E; [exfalso|reflexivity].
    unfold ends_with_punct in E.
    destruct (rev k) as [|c r] eqn:Ek; [discriminate E|].
    apply (f_equal (@rev ascii)) in Ek. rewrite rev_involutive in Ek.
    cbn in Ek. rewrite Ek in H.
    rewrite rstrip_punct_app in H
      by (unfold all_punct; cbn; rewrite E; reflexivity).
    apply (f_equal (@List.length ascii)) in H.
    pose proof (strip_length (rstrip_punct (rev r))).
    pose proof (rstrip_punct_length (rev r)).
    rewrite length_app in H. cbn in H. lia.
  - intros H. rewrite (rstrip_punct_fixed _ H). exact H1.
Qed.

(** X4. Canonicalizing a canonical key again gives the key back
    exactly when the key does not end with a punctuation character:
    the punctuation that the last trim uncovers is removed only by a
    second pass. *)
Theorem canonical_key_fixed_iff v :
  canonicalize_ingredient (VStr (canonicalize_ingredient v))
  = canonicalize_ingredient v
  <-> ends_with_punct (canonicalize_ingredient v) = false.
Proof.
  rewrite (canonicalize_ingredient_str (canonicalize_ingredient v)).
  destruct v as [| | | |s| |]; try (split; reflexivity).
  rewrite canonicalize_ingredient_str. apply canonical_fixed_iff.
Qed.

(** X5. For a name of Latin-1 characters, the canonical key is never
    longer than the name it is made from. *)
Theorem canonical_key_not_longer s :
  (List.length (canonicalize_ingredient (VStr s)) <= List.length s)%nat.
Proof.
  rewrite canonicalize_ingredient_str. apply canonical_length.
Qed.

(** ** Display names *)

Lemma lower_upper_char c : lower_char (upper_char c) = lower_char c.
Proof. by_cases_on_char c. Qed.

Lemma titles_in_latin1_strip s :
  titles_in_latin1 s = true -> titles_in_latin1 (strip s) = true.
Proof.
  unfold titles_in_latin1, strip. intros H.
  destruct (lstrip_split s) as [w [_ [E _]]].
  destruct (rstrip_split (lstrip s)) as [w' [_ [E' _]]].
  rewrite E, forallb_app in H. apply andb_true_iff in H.
  destruct H as [_ H]. rewrite E', forallb_app in H.
  apply andb_true_iff in H. apply H.
Qed.

Lemma title_from_narrow b s :
  titles_in_latin1 s = true ->
  exists d, title_from b s = widen d /\ lower d = lower s.
Proof.
  revert b. induction s as [|c s IH]; intros b H.
  - exists []. split; reflexivity.
  - cbn in H. apply andb_true_iff in H. destruct H as [Hc Hs].
    destruct (IH (iscased c) Hs) as [d [Hd Hl]].
    apply negb_true_iff in Hc. apply orb_false_iff in Hc.
    destruct Hc as [Hc H255]. apply orb_false_iff in Hc.
    destruct Hc as [H181 H223].
    exists ((if b then lower_char c else upper_char c) :: d). split.
    + cbn [title_from]. unfold title_char. rewrite H223, H181, H255, Hd.
      destruct b; reflexivity.
    + unfold lower in *. cbn [map]. rewrite Hl. destruct b;
        [rewrite lower_char_idem|rewrite lower_upper_char]; reflexivity.
Qed.

Lemma canonical_of_strip s : canonical_of_str (strip s) = canonical_of_str s.
Proof.
  rewrite !canonical_of_str_plain, strip_idem. reflexivity.
Qed.

(** X6. For a name of Latin-1 characters without the sharp s, the
    micro sign and the y with diaeresis, the display name is again a
    Latin-1 string; it differs from the trimmed name in letter case
    only, and it has the canonical key of the name. *)
Theorem display_name_same_key s :
  titles_in_latin1 s = true ->
  exists d,
    display_name_for_ingredient (VStr s) = widen d
    /\ lower d = lower (strip s)
    /\ canonicalize_ingredient (VStr d) = canonicalize_ingredient (VStr s).
Proof.
  intros H. apply titles_in_latin1_strip in H.
  destruct (title_from_narrow false (strip s) H) as [d [Hd Hl]].
  exists (if is_empty s then [] else d).
  destruct s as [|c s]; [repeat split|].
  cbn [display_name_for_ingredient is_empty].
  split; [exact Hd|]. split; [exact Hl|].
  rewrite !canonicalize_ingredient_str.
  rewrite (canonical_same_case _ _ Hl). apply canonical_of_strip.
Qed.

(** ** Triples for computations on a connection *)

Section Hoare.

Context {A : Type}.
Variables (Pre : conn -> Prop) (Post : A -> conn -> Prop)
          (Exc : conn -> Prop).

Lemma hoare_ret (a : A) :
  (forall c, Pre c -> Post a c) -> hoare Pre (ret a) Post Exc.
Proof. intros H c Hc. cbn. apply H. exact Hc. Qed.

Lemma hoare_raise (e : exn) :
  (forall c, Pre c -> Exc c) -> hoare Pre (@raise A e) Post Exc.
Proof. intros H c Hc. cbn. apply H. exact Hc. Qed.

Lemma hoare_lift (r : result A) :
  (forall a c, r = Ok a -> Pre c -> Post a c) ->
  (forall c, Pre c -> Exc c) ->
  hoare Pre (lift r) Post Exc.
Proof.
  intros H1 H2 c Hc. unfold lift. destruct r as [a|e].
  - apply H1; [reflexivity | exact Hc].
  - apply H2. exact Hc.
Qed.

Lemma hoare_execute (stmt : Z -> conn -> A * conn) :
  (forall c, Pre c -> Exc (tick c)) ->
  (forall now c, Pre c ->
                 Post (fst (stmt now (tick c))) (snd (stmt now (tick c)))) ->
  hoare Pre (execute stmt) Post Exc.
Proof.
  intros H1 H2 c Hc. unfold execute. cbn.
  destruct (faults c (executed c)) as [e|].
  - apply H1. exact Hc.
  - specialize (H2 (clock c (executed c)) c Hc).
    destruct (stmt _ _) as [a c0]. exact H2.
Qed.

Lemma hoare_conseq (Pre' : conn -> Prop) (Post' : A -> conn -> Prop)
      (Exc' : conn -> Prop) (m : M A) :
  hoare Pre' m Post' Exc' ->
  (forall c, Pre c -> Pre' c) ->
  (forall a c, Post' a c -> Post a c) ->
  (forall c, Exc' c -> Exc c) ->
  hoare Pre m Post Exc.
Proof.
  intros H H1 H2 H3 c Hc. specialize (H c (H1 c Hc)).
  destruct (m c) as [[a|e] c']; auto.
Qed.

End Hoare.

Lemma hoare_bind {A B : Type} (Pre : conn -> Prop) (Mid : A -> conn -> Prop)
      (Post : B -> conn -> Prop) (Exc : conn -> Prop)
      (m : M A) (k : A -> M B) :
  hoare Pre m Mid Exc ->
  (forall a, hoare (Mid a) (k a) Post Exc) ->
  hoare Pre (bind m k) Post Exc.
Proof.
  intros Hm Hk c Hc. unfold bind. specialize (Hm c Hc).
  destruct (m c) as [[a|e] c1].
  - apply Hk. exact Hm.
  - exact Hm.
Qed.

Lemma hoare_for_each {A S : Type} (Inv : S -> conn -> Prop)
      (Exc : conn -> Prop) (body : S -> A -> M S) l :
  (forall s x, In x l -> hoare (Inv s) (body s x) Inv Exc) ->
  forall s, hoare (Inv s) (for_each body l s) Inv Exc.
Proof.
  induction l as [|x l IH]; intros Hb s; cbn [for_each].
  - apply hoare_ret. auto.
  - eapply hoare_bind.
    + apply Hb. left. reflexivity.
    + intros s'. apply IH. intros s0 y Hy. apply Hb. right. exact Hy.
Qed.

Lemma hoare_update (Pre : conn -> Prop) (Post : unit -> conn -> Prop)
      (Exc : conn -> Prop) (f : Z -> tables -> tables) :
  (forall c, Pre c -> Exc (tick c)) ->
  (forall now c, Pre c ->
                 Post tt (set_working (tick c) (f now (working c)))) ->
  hoare Pre (update f) Post Exc.
Proof.
  intros H1 H2. unfold update. apply hoare_execute; [exact H1|].
  intros now c Hc. cbn. apply H2. exact Hc.
Qed.

Lemma hoare_insert_link (Pre : conn -> Prop) (Post : unit -> conn -> Prop)
      (Exc : conn -> Prop) item ing conf :
  (forall c, Pre c -> Exc (tick c)) ->
  (forall c t, Pre c -> insert_link item ing conf (working c) = Some t ->
               Post tt (set_working (tick c) t)) ->
  hoare Pre (execute_insert_link item ing conf) Post Exc.
Proof.
  intros H1 H2 c Hc. unfold execute_insert_link. cbn.
  destruct (faults c (executed c)) as [e|].
  - apply H1. exact Hc.
  - destruct (insert_link _ _ _ _) as [t|] eqn:E.
    + apply H2; assumption.
    + apply H1. exact Hc.
Qed.

Lemma hoare_outcome {A : Type} (Pre : conn -> Prop) (Post : A -> conn -> Prop)
      (Exc : conn -> Prop) (m : M A) c r c' :
  hoare Pre m Post Exc -> Pre c -> m c = (r, c') ->
  match r with
  | Ok a => Post a c'
  | Raise _ => Exc c'
  end.
Proof. intros H Hc E. specialize (H c Hc). rewrite E in H. exact H. Qed.

(** ** Keys of a table after an upsert *)

Lemma NoDup_snoc {K : Type} (l : list K) x :
  NoDup l -> ~ In x l -> NoDup (l ++ [x]).
Proof.
  induction l as [|y l IH]; cbn; intros Hl Hx.
  - constructor; [intros [] | constructor].
  - inversion Hl; subst. constructor.
    + rewrite in_app_iff. cbn. intros [H|[H|[]]]; [auto|].
      apply Hx. left. symmetry. exact H.
    + apply IH; [assumption|]. intros H. apply Hx. right. exact H.
Qed.

Lemma NoDup_map_filter {A K : Type} (key : A -> K) (q : A -> bool) l :
  NoDup (map key l) -> NoDup (map key (filter q l)).
Proof.
  induction l as [|x l IH]; cbn; [auto|]. intros H. inversion H; subst.
  destruct (q x); cbn; [constructor|]; auto.
  intros Hin. apply H2. apply in_map_iff in Hin.
  destruct Hin as [y [Hy Hin]]. apply filter_In in Hin.
  apply in_map_iff. exists y. tauto.
Qed.

Section UpsertKeys.

Context {A K : Type}.
Variables (key : A -> K) (same_key : A -> bool) (change : A -> A)
          (fresh : A).
Hypothesis change_key : forall r, same_key r = true -> key (change r) = key r.

Lemma upsert_keys rows :
  map key (upsert same_key change fresh rows)
  = if existsb same_key rows then map key rows
    else map key rows ++ [key fresh].
Proof.
  induction rows as [|r rows IH]; cbn; [reflexivity|].
  destruct (same_key r) eqn:E; cbn.
  - rewrite change_key by exact E. reflexivity.
  - rewrite IH. destruct (existsb same_key rows); reflexivity.
Qed.

Lemma upsert_keys_incl rows :
  incl (map key rows) (map key (upsert same_key change fresh rows)).
Proof.
  rewrite upsert_keys. destruct (existsb same_key rows).
  - apply incl_refl.
  - apply incl_appl. apply incl_refl.
Qed.

Lemma upsert_keys_fresh rows :
  (forall r, same_key r = true -> key r = key fresh) ->
  In (key fresh) (map key (upsert same_key change fresh rows)).
Proof.
  intros H. rewrite upsert_keys. destruct (existsb same_key rows) eqn:E.
  - apply existsb_exists in E. destruct E as [r [Hr Hs]].
    rewrite <- (H r Hs). apply in_map. exact Hr.
  - apply in_or_app. right. left. reflexivity.
Qed.

Lemma upsert_NoDup rows :
  (existsb same_key rows = false -> ~ In (key fresh) (map key rows)) ->
  NoDup (map key rows) ->
  NoDup (map key (upsert same_key change fresh rows)).
Proof.
  intros H Hn. rewrite upsert_keys. destruct (existsb same_key rows).
  - exact Hn.
  - apply NoDup_snoc; auto.
Qed.

Lemma upsert_NoDup_key rows :
  (forall r, key r = key fresh -> same_key r = true) ->
  NoDup (map key rows) ->
  NoDup (map key (upsert same_key change fresh rows)).
Proof.
  intros H. apply upsert_NoDup. intros E Hin.
  apply in_map_iff in Hin. destruct Hin as [r [Hk Hr]].
  assert (Ht : existsb same_key rows = true).
  { apply existsb_exists. exists r. auto. }
  rewrite Ht in E. discriminate E.
Qed.

End UpsertKeys.

(** ** Keys and references under the statements of a run *)

Lemma widens_refl t : widens t t.
Proof. constructor; apply incl_refl. Qed.

Lemma known_widens rs qs ms gs t t' :
  known rs qs ms gs t -> widens t t' -> known rs qs ms gs t'.
Proof.
  intros [H1 H2 H3 H4] [W1 W2 W3 W4].
  constructor; eapply incl_tran; eassumption.
Qed.

Lemma known_fewer rs qs ms gs rs' qs' ms' gs' t :
  known rs qs ms gs t ->
  incl rs' rs -> incl qs' qs -> incl ms' ms -> incl gs' gs ->
  known rs' qs' ms' gs' t.
Proof.
  intros [H1 H2 H3 H4] I1 I2 I3 I4.
  constructor; eapply incl_tran; eassumption.
Qed.

Lemma numbered_advances t c c' :
  numbered t c -> auto_run c <= auto_run c' ->
  auto_ingredient c <= auto_ingredient c' -> numbered t c'.
Proof.
  intros [H1 H2] Hr Hi. constructor.
  - eapply Forall_impl; [|exact H1]. cbn. intros r Hlt. lia.
  - eapply Forall_impl; [|exact H2]. cbn. intros r Hlt. lia.
Qed.

Lemma intact_advances t c c' :
  intact t c -> auto_run c <= auto_run c' ->
  auto_ingredient c <= auto_ingredient c' -> intact t c'.
Proof.
  intros [H1 [H2 H3]] Hr Hi. split; [exact H1|]. split; [exact H2|].
  eapply numbered_advances; eassumption.
Qed.

Lemma ready_tick rs qs ms gs c :
  ready rs qs ms gs c -> ready rs qs ms gs (tick c).
Proof.
  intros [H1 H2]. split; [|exact H2].
  apply (intact_advances _ c); [exact H1|cbn; lia|cbn; lia].
Qed.

Lemma insert_run_intact now m p v t c :
  intact t c ->
  intact (insert_run now (auto_run c) m p v t)
         (generated_run c (auto_run c))
  /\ widens t (insert_run now (auto_run c) m p v t)
  /\ In (auto_run c)
        (map run_id (extraction_runs (insert_run now (auto_run c) m p v t))).
Proof.
  intros [[K1 K2 K3 K4 K5 K6 K7] [[R1 R2 R3 R4 R5 R6] [N1 N2]]].
  split; [split; [|split]|split].
  - constructor; cbn; try assumption.
    rewrite map_app. cbn. apply NoDup_snoc; [exact K1|].
    intros Hin. apply in_map_iff in Hin. destruct Hin as [r [Hr Hin]].
    rewrite Forall_forall in N1. specialize (N1 r Hin). lia.
  - constructor; cbn; try assumption.
    intros o Ho. rewrite map_app. apply in_or_app. left. apply R2. exact Ho.
  - constructor; cbn.
    + apply Forall_app. split.
      * eapply Forall_impl; [|exact N1]. cbn. intros r Hlt. lia.
      * constructor; [cbn; lia|constructor].
    + exact N2.
  - constructor; cbn; try apply incl_refl.
    rewrite map_app. apply incl_appl. apply incl_refl.
  - cbn. rewrite map_app. apply in_or_app. right. left. reflexivity.
Qed.

Lemma upsert_restaurant_intact now rid t c :
  intact t c ->
  intact (upsert_restaurant now rid t) c
  /\ widens t (upsert_restaurant now rid t)
  /\ In rid (map restaurant_id (restaurants (upsert_restaurant now rid t))).
Proof.
  intros [[K1 K2 K3 K4 K5 K6 K7] [[R1 R2 R3 R4 R5 R6] [N1 N2]]].
  split; [split; [|split]|split].
  - constructor; cbn; try assumption.
    apply upsert_NoDup_key; [reflexivity| |exact K2].
    cbn. intros r Hr. apply Z.eqb_eq. exact Hr.
  - constructor; cbn; try assumption.
    intros r Hr.
    apply (upsert_keys_incl restaurant_id); [reflexivity|].
    apply R1. exact Hr.
  - constructor; cbn; assumption.
  - constructor; cbn; try apply incl_refl.
    apply upsert_keys_incl. reflexivity.
  - cbn.
    refine (upsert_keys_fresh restaurant_id
              (fun r => restaurant_id r =? rid) _
              {| restaurant_id := rid; name := None;
                 restaurant_updated_at := now |} _ _ _); [reflexivity|].
    cbn. intros r Hr. apply Z.eqb_eq. exact Hr.
Qed.

Lemma upsert_menu_item_intact now iid rid nm rs t c :
  intact t c ->
  In rid (map restaurant_id (restaurants t)) ->
  intact (upsert_menu_item now iid rid nm rs t) c
  /\ widens t (upsert_menu_item now iid rid nm rs t)
  /\ In iid (map item_id (menu_items (upsert_menu_item now iid rid nm rs t))).
Proof.
  intros [[K1 K2 K3 K4 K5 K6 K7] [[R1 R2 R3 R4 R5 R6] [N1 N2]]] Hrid.
  assert (Hk : forall r : menu_item,
             (item_id r =? iid) = true ->
             item_id {| item_id := iid; item_restaurant_id := rid;
                        item_name := nm; reasoning := rs;
                        item_updated_at := now |} = item_id r).
  { cbn. intros r Hr. apply Z.eqb_eq in Hr. symmetry. exact Hr. }
  split; [split; [|split]|split].
  - constructor; cbn; try assumption.
    apply upsert_NoDup_key; [exact Hk| |exact K3].
    cbn. intros r Hr. apply Z.eqb_eq. exact Hr.
  - constructor; cbn; try assumption.
    + intros r Hr. apply upsert_in in Hr.
      destruct Hr as [Hr|[Hr|[r0 [_ [_ Hr]]]]].
      * apply R1. exact Hr.
      * subst r. exact Hrid.
      * subst r. exact Hrid.
    + intros o Ho. apply (upsert_keys_incl item_id); [exact Hk|].
      apply R3. exact Ho.
    + intros l Hl. apply (upsert_keys_incl item_id); [exact Hk|].
      apply R5. exact Hl.
  - constructor; cbn; assumption.
  - constructor; cbn; try apply incl_refl.
    apply upsert_keys_incl. exact Hk.
  - cbn.
    refine (upsert_keys_fresh item_id (fun r => item_id r =? iid) _
              {| item_id := iid; item_restaurant_id := rid;
                 item_name := nm; reasoning := rs;
                 item_updated_at := now |} _ _ _); [exact Hk|].
    cbn. intros r Hr. apply Z.eqb_eq. exact Hr.
Qed.

Lemma upsert_ingredient_intact cn d t c :
  intact t c ->
  intact (upsert_ingredient (auto_ingredient c) cn d t)
         (if ingredient_exists cn t then c
          else generated_ingredient c (auto_ingredient c))
  /\ widens t (upsert_ingredient (auto_ingredient c) cn d t).
Proof.
  intros [[K1 K2 K3 K4 K5 K6 K7] [[R1 R2 R3 R4 R5 R6] [N1 N2]]].
  assert (Hids : map ingredient_id
                   (ingredients (upsert_ingredient (auto_ingredient c) cn d t))
                 = if ingredient_exists cn t
                   then map ingredient_id (ingredients t)
                   else map ingredient_id (ingredients t)
                        ++ [auto_ingredient c]).
  { cbn. rewrite (upsert_keys ingredient_id) by reflexivity. reflexivity. }
  assert (Hincl : incl (map ingredient_id (ingredients t))
                       (map ingredient_id
                          (ingredients
                             (upsert_ingredient (auto_ingredient c) cn d t)))).
  { rewrite Hids. destruct (ingredient_exists cn t).
    - apply incl_refl.
    - apply incl_appl. apply incl_refl. }
  split; [split; [|split]|].
  - constructor; try assumption.
    + cbn. apply upsert_NoDup_key; [reflexivity| |exact K4].
      cbn. intros r Hr. unfold has_canonical. apply str_eqb_eq. exact Hr.
    + rewrite Hids. destruct (ingredient_exists cn t); [exact K5|].
      apply NoDup_snoc; [exact K5|]. intros Hin.
      apply in_map_iff in Hin. destruct Hin as [r [Hr Hin]].
      rewrite Forall_forall in N2. specialize (N2 r Hin). lia.
  - constructor; try assumption.
    + intros o Ho. apply Hincl. apply R4. exact Ho.
    + intros l Hl. apply Hincl. apply R6. exact Hl.
  - constructor.
    + destruct (ingredient_exists cn t); exact N1.
    + assert (N2' : Forall (fun i => i < auto_ingredient c)
                           (map ingredient_id (ingredients t))).
      { apply Forall_map. exact N2. }
      set (c' := if ingredient_exists cn t then c
                 else generated_ingredient c (auto_ingredient c)).
      apply (proj1 (Forall_map ingredient_id
                      (fun i => i < auto_ingredient c') _)).
      rewrite Hids. subst c'.
      destruct (ingredient_exists cn t); [exact N2'|].
      apply Forall_app. split.
      * eapply Forall_impl; [|exact N2']. cbn. intros i Hlt. lia.
      * constructor; [cbn; lia|constructor].
  - constructor; try apply incl_refl. exact Hincl.
Qed.

Lemma select_ingredient_known cn t id :
  select_ingredient_id cn t = Some id ->
  In id (map ingredient_id (ingredients t)).
Proof.
  unfold select_ingredient_id.
  destruct (find (has_canonical cn) (ingredients t)) as [r|] eqn:E;
    [|discriminate].
  cbn. intros H. inversion H; subst. apply find_some in E.
  apply in_map. apply E.
Qed.

Lemma upsert_observation_intact now run item ing conf t c :
  intact t c ->
  In run (map run_id (extraction_runs t)) ->
  In item (map item_id (menu_items t)) ->
  In ing (map ingredient_id (ingredients t)) ->
  intact (upsert_observation now run item ing conf t) c
  /\ widens t (upsert_observation now run item ing conf t).
Proof.
  intros [[K1 K2 K3 K4 K5 K6 K7] [[R1 R2 R3 R4 R5 R6] [N1 N2]]] Hr Hi Hg.
  split; [split; [|split]|].
  - constructor; cbn; try assumption.
    apply upsert_NoDup_key; [| |exact K6].
    + intros r Hs. unfold same_observation in Hs.
      apply andb_true_iff in Hs. destruct Hs as [Hs H3].
      apply andb_true_iff in Hs. destruct Hs as [H1 H2].
      apply Z.eqb_eq in H1, H2, H3. unfold observation_key. cbn.
      subst. reflexivity.
    + intros r Hk. unfold observation_key in Hk. cbn in Hk.
      inversion Hk. unfold same_observation. rewrite !Z.eqb_refl.
      reflexivity.
  - constructor; cbn; try assumption.
    + intros o Ho. apply upsert_in in Ho.
      destruct Ho as [Ho|[Ho|[r0 [_ [_ Ho]]]]];
        [apply R2; exact Ho|subst o; exact Hr|subst o; exact Hr].
    + intros o Ho. apply upsert_in in Ho.
      destruct Ho as [Ho|[Ho|[r0 [_ [_ Ho]]]]];
        [apply R3; exact Ho|subst o; exact Hi|subst o; exact Hi].
    + intros o Ho. apply upsert_in in Ho.
      destruct Ho as [Ho|[Ho|[r0 [_ [_ Ho]]]]];
        [apply R4; exact Ho|subst o; exact Hg|subst o; exact Hg].
  - constructor; cbn; assumption.
  - constructor; cbn; apply incl_refl.
Qed.

Lemma delete_links_intact item t c :
  intact t c ->
  intact (delete_links item t) c /\ widens t (delete_links item t).
Proof.
  intros [[K1 K2 K3 K4 K5 K6 K7] [[R1 R2 R3 R4 R5 R6] [N1 N2]]].
  split; [split; [|split]|].
  - constructor; cbn; try assumption. apply NoDup_map_filter. exact K7.
  - constructor; cbn; try assumption.
    + intros l Hl. apply filter_In in Hl. apply R5. apply Hl.
    + intros l Hl. apply filter_In in Hl. apply R6. apply Hl.
  - constructor; cbn; assumption.
  - constructor; cbn; apply incl_refl.
Qed.

Lemma insert_link_intact item ing conf t t' c :
  insert_link item ing conf t = Some t' ->
  intact t c ->
  In item (map item_id (menu_items t)) ->
  In ing (map ingredient_id (ingredients t)) ->
  intact t' c /\ widens t t'.
Proof.
  unfold insert_link.
  destruct (existsb (same_link item ing) (menu_item_ingredients t)) eqn:E;
    [discriminate|].
  intros H. inversion H; subst t'. clear H.
  intros [[K1 K2 K3 K4 K5 K6 K7] [[R1 R2 R3 R4 R5 R6] [N1 N2]]] Hi Hg.
  split; [split; [|split]|].
  - constructor; cbn; try assumption.
    rewrite map_app. cbn. apply NoDup_snoc; [exact K7|].
    intros Hin. apply in_map_iff in Hin. destruct Hin as [l [Hk Hl]].
    unfold link_key in Hk. inversion Hk.
    assert (Ht : existsb (same_link item ing) (menu_item_ingredients t)
                 = true).
    { apply existsb_exists. exists l. split; [exact Hl|].
      unfold same_link. rewrite H0, H1, !Z.eqb_refl. reflexivity. }
    rewrite Ht in E. discriminate E.
  - constructor; cbn; try assumption.
    + intros l Hl. apply in_app_or in Hl.
      destruct Hl as [Hl|[Hl|[]]]; [apply R5; exact Hl|subst l; exact Hi].
    + intros l Hl. apply in_app_or in Hl.
      destruct Hl as [Hl|[Hl|[]]]; [apply R6; exact Hl|subst l; exact Hg].
  - constructor; cbn; assumption.
  - constructor; cbn; apply incl_refl.
Qed.

(** ** The run keeps the open transaction intact *)

Lemma ready_fewer rs qs ms gs rs' qs' ms' gs' c :
  ready rs qs ms gs c ->
  incl rs' rs -> incl qs' qs -> incl ms' ms -> incl gs' gs ->
  ready rs' qs' ms' gs' c.
Proof.
  intros [H1 H2] I1 I2 I3 I4. split; [exact H1|].
  eapply known_fewer; eassumption.
Qed.

Lemma ready_intact rs qs ms gs c :
  ready rs qs ms gs c -> ready [] [] [] [] c.
Proof. intros H. eapply ready_fewer; [exact H| | | |]; apply incl_nil_l. Qed.

Lemma ready_raise rs qs ms gs c :
  ready rs qs ms gs c -> ready [] [] [] [] (tick c).
Proof. intros H. apply ready_tick. eapply ready_intact. exact H. Qed.

(** A statement that rewrites the tables keeps the connection ready
    when the new tables are intact and hold the keys of the old
    ones. *)
Lemma ready_set_working rs qs ms gs c t :
  ready rs qs ms gs c ->
  intact t c -> widens (working c) t ->
  ready rs qs ms gs (set_working (tick c) t).
Proof.
  intros [_ Hk] Hi Hw. split; cbn.
  - apply (intact_advances _ c); [exact Hi|cbn; lia|cbn; lia].
  - eapply known_widens; eassumption.
Qed.

Lemma known_run rs qs ms gs t run :
  known rs qs ms gs t -> In run rs ->
  In run (map run_id (extraction_runs t)).
Proof. intros [H _ _ _] Hin. apply H. exact Hin. Qed.

Lemma known_restaurant rs qs ms gs t rid :
  known rs qs ms gs t -> In rid qs ->
  In rid (map restaurant_id (restaurants t)).
Proof. intros [_ H _ _] Hin. apply H. exact Hin. Qed.

Lemma known_item rs qs ms gs t iid :
  known rs qs ms gs t -> In iid ms -> In iid (map item_id (menu_items t)).
Proof. intros [_ _ H _] Hin. apply H. exact Hin. Qed.

Lemma known_ingredient rs qs ms gs t g :
  known rs qs ms gs t -> In g gs ->
  In g (map ingredient_id (ingredients t)).
Proof. intros [_ _ _ H] Hin. apply H. exact Hin. Qed.

Lemma hoare_upsert_ingredient rs qs ms gs cn d :
  hoare (ready rs qs ms gs) (execute_upsert_ingredient cn d)
        (fun _ => ready rs qs ms gs) (ready [] [] [] []).
Proof.
  unfold execute_upsert_ingredient. apply hoare_execute.
  - intros c H. eapply ready_raise. exact H.
  - intros now c [Hi Hk].
    destruct (upsert_ingredient_intact cn d (working c) c Hi) as [Hi' Hw].
    cbn [working tick auto_ingredient].
    destruct (ingredient_exists cn (working c)); cbn [fst snd].
    + apply ready_set_working; [split; assumption|exact Hi'|exact Hw].
    + split; cbn.
      * apply (intact_advances _ _ _ Hi'); cbn; lia.
      * eapply known_widens; eassumption.
Qed.

Lemma hoare_select_ingredient rs qs ms gs cn :
  hoare (ready rs qs ms gs) (execute_select_ingredient cn)
        (fun row c =>
           ready rs qs ms gs c
           /\ forall id, row = Some id ->
                         In id (map ingredient_id (ingredients (working c))))
        (ready [] [] [] []).
Proof.
  unfold execute_select_ingredient. apply hoare_execute.
  - intros c H. eapply ready_raise. exact H.
  - intros now c H. cbn. split.
    + apply ready_tick. exact H.
    + intros id E. eapply select_ingredient_known. exact E.
Qed.

Lemma hoare_ingredient_step run item seen ing :
  hoare (ready [run] [] [item] (map fst seen))
        (ingredient_step run item seen ing)
        (fun seen' => ready [run] [] [item] (map fst seen'))
        (ready [] [] [] []).
Proof.
  unfold ingredient_step.
  apply hoare_bind
    with (Mid := fun _ => ready [run] [] [item] (map fst seen)).
  { apply hoare_lift; [auto|]. intros c H. eapply ready_intact. exact H. }
  intros d.
  apply hoare_bind
    with (Mid := fun _ => ready [run] [] [item] (map fst seen)).
  { apply hoare_lift; [auto|]. intros c H. eapply ready_intact. exact H. }
  intros nm. destruct (is_empty nm); [apply hoare_ret; auto|].
  apply hoare_bind
    with (Mid := fun _ => ready [run] [] [item] (map fst seen)).
  { apply hoare_lift; [auto|]. intros c H. eapply ready_intact. exact H. }
  intros conf.
  destruct (is_empty (canonicalize_ingredient (VStr nm)));
    [apply hoare_ret; auto|].
  eapply hoare_bind; [apply hoare_upsert_ingredient|]. intros u.
  eapply hoare_bind; [apply hoare_select_ingredient|].
  intros [id|].
  - eapply hoare_bind with
      (Mid := fun _ => ready [run] [] [item]
                             (map fst (seen ++ [(id, clamp conf)]))).
    + apply hoare_update.
      * intros c [H _]. eapply ready_raise. exact H.
      * intros now c [[Hi Hk] Hid]. specialize (Hid id eq_refl).
        destruct (upsert_observation_intact
                    now run item id (Py.round3 (clamp conf)) (working c) c Hi)
          as [Hi' Hw].
        { eapply known_run; [exact Hk|]. left. reflexivity. }
        { eapply known_item; [exact Hk|]. left. reflexivity. }
        { exact Hid. }
        apply ready_set_working; [|exact Hi'|exact Hw].
        split; [exact Hi|]. destruct Hk as [H1 H2 H3 H4].
        constructor; try assumption.
        rewrite map_app. cbn. apply incl_app; [exact H4|].
        intros x [Hx|[]]. subst x. exact Hid.
    + intros _. apply hoare_ret. auto.
  - apply hoare_raise. intros c [H _]. eapply ready_intact. exact H.
Qed.

Lemma hoare_link_step rs qs ms gs item u p :
  In item ms -> In (fst p) gs ->
  hoare (ready rs qs ms gs) (link_step item u p)
        (fun _ => ready rs qs ms gs) (ready [] [] [] []).
Proof.
  intros Hitem Hp. unfold link_step. apply hoare_insert_link.
  - intros c H. eapply ready_raise. exact H.
  - intros c t [Hi Hk] E.
    destruct (insert_link_intact _ _ _ _ _ c E Hi) as [Hi' Hw].
    + eapply known_item; [exact Hk|]. exact Hitem.
    + eapply known_ingredient; [exact Hk|]. exact Hp.
    + apply ready_set_working; [split; assumption|exact Hi'|exact Hw].
Qed.

Lemma hoare_item_step run u item :
  hoare (ready [run] [] [] []) (item_step run u item)
        (fun _ => ready [run] [] [] []) (ready [] [] [] []).
Proof.
  unfold item_step.
  apply hoare_bind with (Mid := fun _ => ready [run] [] [] []).
  { apply hoare_lift; [auto|]. intros c H. eapply ready_intact. exact H. }
  intros iid.
  apply hoare_bind with (Mid := fun _ => ready [run] [] [] []).
  { apply hoare_lift; [auto|]. intros c H. eapply ready_intact. exact H. }
  intros rid.
  apply hoare_bind with (Mid := fun _ => ready [run] [rid] [] []).
  { apply hoare_update.
    - intros c H. eapply ready_raise. exact H.
    - intros now c [Hi Hk].
      destruct (upsert_restaurant_intact now rid (working c) c Hi)
        as [Hi' [Hw Hin]].
      split; cbn.
      + apply (intact_advances _ c); [exact Hi'|cbn; lia|cbn; lia].
      + destruct (known_widens _ _ _ _ _ _ Hk Hw) as [H1 H2 H3 H4].
        constructor; try assumption.
        intros x [Hx|[]]. subst x. exact Hin. }
  intros _.
  apply hoare_bind with (Mid := fun _ => ready [run] [] [iid] []).
  { apply hoare_update.
    - intros c H. eapply ready_raise. exact H.
    - intros now c [Hi Hk].
      destruct (upsert_menu_item_intact
                  now iid rid
                  (Py.or_else (Py.get item (lit "item_name") VNone) (VStr []))
                  (Py.get item (lit "reasoning") VNone) (working c) c Hi)
        as [Hi' [Hw Hin]].
      { eapply known_restaurant; [exact Hk|]. left. reflexivity. }
      split; cbn.
      + apply (intact_advances _ c); [exact Hi'|cbn; lia|cbn; lia].
      + destruct (known_widens _ _ _ _ _ _ Hk Hw) as [H1 H2 H3 H4].
        constructor; try assumption.
        * apply incl_nil_l.
        * intros x [Hx|[]]. subst x. exact Hin. }
  intros _.
  apply hoare_bind with (Mid := fun _ => ready [run] [] [iid] []).
  { apply hoare_lift; [auto|]. intros c H. eapply ready_intact. exact H. }
  intros rows.
  apply hoare_bind
    with (Mid := fun seen => ready [run] [] [iid] (map fst seen)).
  { refine (hoare_for_each
              (fun seen => ready [run] [] [iid] (map fst seen))
              _ _ rows _ []).
    intros seen ing _. apply hoare_ingredient_step. }
  intros seen.
  apply hoare_bind
    with (Mid := fun _ => ready [run] [] [iid] (map fst seen)).
  { apply hoare_update.
    - intros c H. eapply ready_raise. exact H.
    - intros now c [Hi Hk].
      destruct (delete_links_intact iid (working c) c Hi) as [Hi' Hw].
      apply ready_set_working; [split; assumption|exact Hi'|exact Hw]. }
  intros _.
  eapply hoare_conseq
    with (Pre' := ready [run] [] [iid] (map fst seen))
         (Post' := fun _ => ready [run] [] [iid] (map fst seen))
         (Exc' := ready [] [] [] []).
  - apply (hoare_for_each
             (fun _ => ready [run] [] [iid] (map fst seen))).
    intros s p Hp. apply hoare_link_step.
    + left. reflexivity.
    + apply in_map. exact Hp.
  - auto.
  - intros a c H. eapply ready_fewer; [exact H| | | |];
      try apply incl_refl; apply incl_nil_l.
  - auto.
Qed.

Lemma hoare_write_run cfg results m p v :
  hoare (ready [] [] [] []) (write_run cfg results m p v)
        (fun run => ready [run] [] [] []) (ready [] [] [] []).
Proof.
  unfold write_run. destruct (resolve_versions cfg p v) as [pv pipv].
  apply hoare_bind
    with (Mid := fun id c => ready [id] [] [] [] c /\ last_insert_id c = id).
  { unfold execute_insert_run. apply hoare_execute.
    - intros c H. eapply ready_raise. exact H.
    - intros now c [Hi Hk]. cbn [fst snd].
      destruct (insert_run_intact now m pv pipv (working c) c Hi)
        as [Hi' [Hw Hin]].
      split; [|reflexivity]. split; cbn.
      + apply (intact_advances _ _ _ Hi'); cbn; lia.
      + constructor; cbn; try apply incl_nil_l.
        intros x [Hx|[]]. subst x. exact Hin. }
  intros id.
  apply hoare_bind with (Mid := fun run => ready [run] [] [] []).
  { destruct (id =? 0).
    - unfold execute_last_insert_id. apply hoare_execute.
      + intros c [H _]. eapply ready_raise. exact H.
      + intros now c [H Hl]. cbn. rewrite Hl. apply ready_tick. exact H.
    - apply hoare_ret. intros c [H _]. exact H. }
  intros run.
  apply hoare_bind with (Mid := fun _ => ready [run] [] [] []).
  { apply (hoare_for_each (fun _ => ready [run] [] [] [])).
    intros s x _. apply hoare_item_step. }
  intros u. apply hoare_ret. auto.
Qed.

(** ** What no statement of a run touches *)

Section Moves.

Variable P : conn -> conn -> Prop.
Hypothesis P_refl : forall c, P c c.
Hypothesis P_trans : forall a b c, P a b -> P b c -> P a c.
Hypothesis P_tick : forall c, P c (tick c).
Hypothesis P_working : forall c t, P c (set_working c t).
Hypothesis P_run : forall c, P c (generated_run c (auto_run c)).
Hypothesis P_ingredient :
  forall c, P c (generated_ingredient c (auto_ingredient c)).

Lemma moves_update f : preserves P (update f).
Proof.
  unfold update. apply preserves_execute; auto.
  intros now c. cbn. apply P_working.
Qed.

Lemma moves_ingredient_step run item seen ing :
  preserves P (ingredient_step run item seen ing).
Proof.
  unfold ingredient_step.
  apply preserves_bind; auto using preserves_lift. intros d.
  apply preserves_bind; auto using preserves_lift. intros nm.
  destruct (is_empty nm); [apply preserves_ret; auto|].
  apply preserves_bind; auto using preserves_lift. intros conf.
  destruct (is_empty (canonicalize_ingredient (VStr nm)));
    [apply preserves_ret; auto|].
  apply preserves_bind; auto.
  { unfold execute_upsert_ingredient. apply preserves_execute; auto.
    intros now c. destruct (ingredient_exists _ _); cbn.
    - apply P_working.
    - eapply P_trans; [apply P_working|].
      apply (P_ingredient (set_working c _)). }
  intros u. apply preserves_bind; auto.
  { unfold execute_select_ingredient. apply preserves_execute; auto. }
  intros [id|]; [|apply preserves_raise; auto].
  apply preserves_bind; auto using moves_update.
  intros u'. apply preserves_ret; auto.
Qed.

Lemma moves_item_step run u item : preserves P (item_step run u item).
Proof.
  unfold item_step.
  apply preserves_bind; auto using preserves_lift. intros iid.
  apply preserves_bind; auto using preserves_lift. intros rid.
  apply preserves_bind; auto using moves_update. intros u1.
  apply preserves_bind; auto using moves_update. intros u2.
  apply preserves_bind; auto using preserves_lift. intros rows.
  apply preserves_bind; auto.
  { apply preserves_for_each; auto.
    intros s x _. apply moves_ingredient_step. }
  intros seen.
  apply preserves_bind; auto using moves_update. intros u3.
  apply preserves_for_each; auto.
  intros s x _. unfold link_step. apply preserves_insert_link; auto.
Qed.

Lemma moves_write_run cfg results m p v :
  preserves P (write_run cfg results m p v).
Proof.
  unfold write_run. destruct (resolve_versions cfg p v) as [pv pipv].
  apply preserves_bind; auto.
  { unfold execute_insert_run. apply preserves_execute; auto.
    intros now c. cbn. eapply P_trans; [apply P_working|].
    apply (P_run (set_working c _)). }
  intros id. apply preserves_bind; auto.
  { destruct (id =? 0); [|apply preserves_ret; auto].
    unfold execute_last_insert_id. apply preserves_execute; auto. }
  intros run. apply preserves_bind; auto.
  { apply preserves_for_each; auto. intros s x _. apply moves_item_step. }
  intros u. apply preserves_ret; auto.
Qed.

End Moves.

Lemma write_run_advances cfg results m p v :
  preserves advances (write_run cfg results m p v).
Proof.
  apply moves_write_run; unfold advances.
  - intros c. repeat split; lia.
  - intros a b c [H1 [H2 H3]] [H4 [H5 H6]].
    split; [congruence|]. split; lia.
  - intros c. cbn. repeat split; lia.
  - intros c t. cbn. repeat split; lia.
  - intros c. cbn. repeat split; lia.
  - intros c. cbn. repeat split; lia.
Qed.

Lemma write_run_sound cfg results m p v c r c' :
  sound c -> write_run cfg results m p v c = (r, c') -> sound c'.
Proof.
  intros [Hw Hc] E. split.
  - assert (H : ready [] [] [] [] c').
    { pose proof (hoare_outcome _ _ _ _ c r c'
                    (hoare_write_run cfg results m p v)) as H.
      assert (Hr : ready [] [] [] [] c).
      { split; [exact Hw|]. constructor; apply incl_nil_l. }
      specialize (H Hr E). destruct r as [run|e]; [|exact H].
      eapply ready_intact. exact H. }
    apply H.
  - destruct (write_run_advances _ _ _ _ _ _ _ _ E) as [H1 [H2 H3]].
    rewrite H1. eapply intact_advances; eassumption.
Qed.

(** X7. A run keeps the store intact, whatever its outcome: when, in
    both the open transaction and the committed tables, no two rows
    share a key, every identifier mentioned by a menu item, an
    observation or a current link is the key of a row, and the
    generated keys are below the counters, the same holds after
    [write_run], whether it returned or raised. *)
Theorem write_run_keeps_keys_and_references cfg results m p v c r c' :
  sound c -> write_run cfg results m p v c = (r, c') -> sound c'.
Proof.
  intros [Hw Hc] E.
  assert (Hr : ready [] [] [] [] c).
  { split; [exact Hw|]. constructor; apply incl_nil_l. }
  pose proof (hoare_outcome _ _ _ _ c r c'
                (hoare_write_run cfg results m p v) Hr E) as Hout.
  destruct (write_run_advances _ _ _ _ _ _ _ _ E) as [H1 [H2 H3]].
  split.
  - destruct r as [run|e]; apply Hout.
  - rewrite H1. eapply intact_advances; eassumption.
Qed.

Lemma sound_fresh_conn : sound Sample.fresh_conn.
Proof.
  assert (H : intact Store.empty Sample.fresh_conn).
  { split; [|split]; constructor; cbn; try constructor;
      intros x []. }
  split; exact H.
Qed.

(** X8. [run_with_transaction] leaves an intact store behind, on
    success and on failure, whatever the configuration, and nothing
    uncommitted. *)
Theorem run_with_transaction_keeps_keys_and_references
        cfg results m p v config c r c' :
  sound c ->
  run_with_transaction cfg results m p v config c = (r, c') ->
  sound c' /\ working c' = committed c'.
Proof.
  intros Hs. rewrite run_with_transaction_eq.
  destruct (write_run cfg results m p v c) as [[run|e] c1] eqn:E;
    pose proof (write_run_sound _ _ _ _ _ _ _ _ Hs E) as [Hw Hc].
  - destruct (faults c1 (executed c1)) as [e|]; intros H; inversion H;
      subst; unfold settle; destruct (autocommit (connection_config config));
      cbn; (split; [|reflexivity]);
      split; cbn; apply (intact_advances _ c1);
      first [exact Hc|exact Hw|cbn; lia].
  - intros H; inversion H; subst; unfold settle;
      destruct (autocommit (connection_config config));
      cbn; (split; [|reflexivity]);
      split; cbn; apply (intact_advances _ c1);
      first [exact Hc|exact Hw|cbn; lia].
Qed.

(** ** Facts about the tables that the statements keep *)

Section Kept.

Variable J : tables -> Prop.
Variable Q : Z -> Prop.

Hypothesis J_ingredient :
  forall id cn d t, J t -> J (upsert_ingredient id cn d t).
Hypothesis J_observation :
  forall now run item ing conf t,
    J t -> J (upsert_observation now run item ing conf t).
Hypothesis J_delete :
  forall item t, Q item -> J t -> J (delete_links item t).
Hypothesis J_link :
  forall item ing conf t t',
    Q item -> insert_link item ing conf t = Some t' -> J t -> J t'.
Hypothesis J_restaurant :
  forall now rid t, J t -> J (upsert_restaurant now rid t).
Hypothesis J_item :
  forall now iid rid nm rs t,
    Q iid -> J t -> J (upsert_menu_item now iid rid nm rs t).
Hypothesis J_run :
  forall now id m p v t, J t -> J (insert_run now id m p v t).

Let K (c : conn) : Prop := J (working c).

Lemma kept_lift {A : Type} (r : result A) : hoare K (lift r) (fun _ => K) K.
Proof. apply hoare_lift; auto. Qed.

Lemma kept_update f :
  (forall now t, J t -> J (f now t)) -> hoare K (update f) (fun _ => K) K.
Proof.
  intros H. apply hoare_update.
  - intros c Hc. exact Hc.
  - intros now c Hc. apply H. exact Hc.
Qed.

Lemma kept_ingredient_step run item seen ing :
  hoare K (ingredient_step run item seen ing) (fun _ => K) K.
Proof.
  unfold ingredient_step.
  eapply hoare_bind; [apply kept_lift|]. intros d.
  eapply hoare_bind; [apply kept_lift|]. intros nm.
  destruct (is_empty nm); [apply hoare_ret; auto|].
  eapply hoare_bind; [apply kept_lift|]. intros conf.
  destruct (is_empty (canonicalize_ingredient (VStr nm)));
    [apply hoare_ret; auto|].
  apply hoare_bind with (Mid := fun _ => K).
  { unfold execute_upsert_ingredient. apply hoare_execute.
    - intros c Hc. exact Hc.
    - intros now c Hc. unfold K.
      destruct (ingredient_exists _ _); cbn; apply J_ingredient; exact Hc. }
  intros u. apply hoare_bind with (Mid := fun _ => K).
  { unfold execute_select_ingredient. apply hoare_execute.
    - intros c Hc. exact Hc.
    - intros now c Hc. exact Hc. }
  intros [id|]; [|apply hoare_raise; auto].
  apply hoare_bind with (Mid := fun _ => K).
  { apply kept_update. intros now t. apply J_observation. }
  intros u'. apply hoare_ret. auto.
Qed.

(** The part of [item_step] that follows the two upserts. *)
Lemma kept_ingredients_and_links run item iid :
  Q iid ->
  hoare K
        (rows <- lift (Py.iter (Py.or_else
                                  (Py.get item (lit "ingredients") VNone)
                                  (VList []))) ;;
         seen_ingredient_ids <- for_each (ingredient_step run iid) rows [] ;;
         update (fun _ => delete_links iid) ;;
         for_each (link_step iid) seen_ingredient_ids tt)
        (fun _ => K) K.
Proof.
  intros HQ.
  eapply hoare_bind; [apply kept_lift|]. intros rows.
  apply hoare_bind with (Mid := fun _ => K).
  { apply (hoare_for_each (fun _ => K)).
    intros s x _. apply kept_ingredient_step. }
  intros seen. apply hoare_bind with (Mid := fun _ => K).
  { apply kept_update. intros now t. apply J_delete. exact HQ. }
  intros u. apply (hoare_for_each (fun _ => K)).
  intros s x _. unfold link_step. apply hoare_insert_link.
  - intros c Hc. exact Hc.
  - intros c t Hc E. unfold K. cbn. eapply J_link; eassumption.
Qed.

Lemma kept_item_step run u item :
  (forall iid, item_id_of item = Ok iid -> Q iid) ->
  hoare K (item_step run u item) (fun _ => K) K.
Proof.
  intros HQ. unfold item_step.
  apply hoare_bind
    with (Mid := fun iid c => K c /\ item_id_of item = Ok iid).
  { apply hoare_lift; auto. }
  intros iid.
  apply hoare_bind
    with (Mid := fun _ c => K c /\ item_id_of item = Ok iid).
  { apply hoare_lift; [auto|]. intros c [Hc _]. exact Hc. }
  intros rid.
  apply hoare_bind
    with (Mid := fun _ c => K c /\ item_id_of item = Ok iid).
  { apply hoare_update.
    - intros c [Hc _]. exact Hc.
    - intros now c [Hc E]. split; [|exact E]. apply J_restaurant. exact Hc. }
  intros u1.
  apply hoare_bind
    with (Mid := fun _ c => K c /\ item_id_of item = Ok iid).
  { apply hoare_update.
    - intros c [Hc _]. exact Hc.
    - intros now c [Hc E]. split; [|exact E].
      apply J_item; [|exact Hc]. apply HQ. exact E. }
  intros u2.
  apply hoare_conseq
    with (Pre' := fun c => K c /\ item_id_of item = Ok iid)
         (Post' := fun _ c => K c) (Exc' := K); auto.
  intros c [Hc E]. revert c Hc.
  apply kept_ingredients_and_links. apply HQ. exact E.
Qed.

Lemma kept_items run results :
  Forall (fun item => forall iid, item_id_of item = Ok iid -> Q iid)
         results ->
  hoare K (for_each (item_step run) results tt) (fun _ => K) K.
Proof.
  intros H. apply (hoare_for_each (fun _ => K)).
  intros s x Hx. apply kept_item_step.
  rewrite Forall_forall in H. apply H. exact Hx.
Qed.

Lemma kept_write_run cfg results m p v :
  Forall (fun item => forall iid, item_id_of item = Ok iid -> Q iid)
         results ->
  hoare K (write_run cfg results m p v) (fun _ => K) K.
Proof.
  intros H. unfold write_run.
  destruct (resolve_versions cfg p v) as [pv pipv].
  apply hoare_bind with (Mid := fun _ => K).
  { unfold execute_insert_run. apply hoare_execute.
    - intros c Hc. exact Hc.
    - intros now c Hc. unfold K. cbn. apply J_run. exact Hc. }
  intros id. apply hoare_bind with (Mid := fun _ => K).
  { destruct (id =? 0); [|apply hoare_ret; auto].
    unfold execute_last_insert_id. apply hoare_execute.
    - intros c Hc. exact Hc.
    - intros now c Hc. exact Hc. }
  intros run. apply hoare_bind with (Mid := fun _ => K).
  { apply kept_items. exact H. }
  intros u. apply hoare_ret. auto.
Qed.

End Kept.

(** ** Menu items *)

Section UpsertFind.

Context {A : Type}.
Variables (same_key : A -> bool) (change : A -> A) (fresh : A).

Lemma upsert_find_key rows :
  (forall r, same_key r = true -> same_key (change r) = true) ->
  same_key fresh = true ->
  find same_key (upsert same_key change fresh rows)
  = Some (match find same_key rows with
          | Some r => change r
          | None => fresh
          end).
Proof.
  intros Hc Hf. induction rows as [|r rows IH]; cbn.
  - rewrite Hf. reflexivity.
  - destruct (same_key r) eqn:E; cbn.
    + rewrite (Hc r E). reflexivity.
    + rewrite E. exact IH.
Qed.

Lemma upsert_find_other (q : A -> bool) rows :
  (forall r, same_key r = true -> q r = false /\ q (change r) = false) ->
  q fresh = false ->
  find q (upsert same_key change fresh rows) = find q rows.
Proof.
  intros Hc Hf. induction rows as [|r rows IH]; cbn.
  - rewrite Hf. reflexivity.
  - destruct (same_key r) eqn:E; cbn.
    + destruct (Hc r E) as [H1 H2]. rewrite H1, H2. reflexivity.
    + destruct (q r); [reflexivity|exact IH].
Qed.

End UpsertFind.

Lemma find_item_upsert_same now iid rid nm rs t :
  find_item iid (upsert_menu_item now iid rid nm rs t)
  = Some {| item_id := iid; item_restaurant_id := rid; item_name := nm;
            reasoning := rs; item_updated_at := now |}.
Proof.
  unfold find_item, upsert_menu_item. cbn [menu_items set_menu_items].
  rewrite upsert_find_key.
  - destruct (find _ _); reflexivity.
  - intros r _. cbn. apply Z.eqb_refl.
  - cbn. apply Z.eqb_refl.
Qed.

Lemma find_item_upsert_other now iid rid nm rs t j :
  iid <> j ->
  find_item j (upsert_menu_item now iid rid nm rs t) = find_item j t.
Proof.
  intros Hne. unfold find_item, upsert_menu_item.
  cbn [menu_items set_menu_items]. apply upsert_find_other.
  - intros r Hr. apply Z.eqb_eq in Hr. cbn. rewrite Hr.
    split; apply Z.eqb_neq; exact Hne.
  - cbn. apply Z.eqb_neq. exact Hne.
Qed.

Lemma insert_link_menu_items item ing conf t t' :
  insert_link item ing conf t = Some t' -> menu_items t' = menu_items t.
Proof.
  unfold insert_link. destruct (existsb _ _); [discriminate|].
  intros H. inversion H. reflexivity.
Qed.

(** The statements of a run other than the upsert of item [j] leave
    the row of [j] alone. *)
Lemma find_item_kept cfg results m p v j x :
  Forall (fun item => forall iid, item_id_of item = Ok iid -> iid <> j)
         results ->
  hoare (fun c => find_item j (working c) = x)
        (write_run cfg results m p v)
        (fun _ c => find_item j (working c) = x)
        (fun c => find_item j (working c) = x).
Proof.
  apply (kept_write_run (fun t => find_item j t = x) (fun iid => iid <> j));
    try (intros; assumption).
  - intros item ing conf t t' _ E H. unfold find_item.
    rewrite (insert_link_menu_items _ _ _ _ _ E). exact H.
  - intros now iid rid nm rs t Hne H.
    rewrite find_item_upsert_other by exact Hne. exact H.
Qed.

Lemma find_item_kept_items run results j x :
  Forall (fun item => forall iid, item_id_of item = Ok iid -> iid <> j)
         results ->
  hoare (fun c => find_item j (working c) = x)
        (for_each (item_step run) results tt)
        (fun _ c => find_item j (working c) = x)
        (fun c => find_item j (working c) = x).
Proof.
  apply (kept_items (fun t => find_item j t = x) (fun iid => iid <> j));
    try (intros; assumption).
  - intros item ing conf t t' _ E H. unfold find_item.
    rewrite (insert_link_menu_items _ _ _ _ _ E). exact H.
  - intros now iid rid nm rs t Hne H.
    rewrite find_item_upsert_other by exact Hne. exact H.
Qed.

Lemma for_each_app_ok {A S : Type} (body : S -> A -> M S) l1 l2 s c s' c' :
  for_each body (l1 ++ l2) s c = (Ok s', c') ->
  exists s1 c1, for_each body l1 s c = (Ok s1, c1)
                /\ for_each body l2 s1 c1 = (Ok s', c').
Proof.
  revert s c. induction l1 as [|x l1 IH]; intros s c; cbn [app for_each].
  - intros H. exists s, c. split; [reflexivity|exact H].
  - intros H. apply bind_ok in H. destruct H as [s0 [c0 [H1 H2]]].
    destruct (IH _ _ H2) as [s1 [c1 [H3 H4]]].
    exists s1, c1. split; [|exact H4].
    unfold bind. rewrite H1. exact H3.
Qed.

Lemma item_step_writes_item run u item c c' :
  item_step run u item c = (Ok tt, c') ->
  exists iid rid now,
    item_id_of item = Ok iid /\ restaurant_id_of item = Ok rid
    /\ find_item iid (working c') = Some (item_row item iid rid now).
Proof.
  unfold item_step. intros H.
  apply bind_ok in H. destruct H as [iid [c1 [H1 H]]].
  apply lift_ok in H1. destruct H1 as [Hi ->].
  apply bind_ok in H. destruct H as [rid [c1 [H1 H]]].
  apply lift_ok in H1. destruct H1 as [Hr ->].
  apply bind_ok in H. destruct H as [u1 [c1 [H1 H]]].
  apply update_ok in H1. destruct H1 as [_ ->].
  apply bind_ok in H. destruct H as [u2 [c2 [H2 H]]].
  apply update_ok in H2. destruct H2 as [_ ->].
  match type of H with
  | context [upsert_menu_item ?n _ _ _ _ _] => set (now := n) in H
  end.
  exists iid, rid, now. split; [exact Hi|]. split; [exact Hr|].
  refine (hoare_outcome _ _ _ _ _ (Ok tt) c'
            (kept_ingredients_and_links
               (fun t => find_item iid t = Some (item_row item iid rid now))
               (fun _ => True) _ _ _ _ run item iid I) _ H).
  - intros; assumption.
  - intros; assumption.
  - intros; assumption.
  - intros it ing conf t t' _ E Hf. unfold find_item.
    rewrite (insert_link_menu_items _ _ _ _ _ E). exact Hf.
  - cbn [working set_working tick]. apply find_item_upsert_same.
Qed.

(** X9. After a completed run the row of a menu item is the one
    written for the last result that names the item: its restaurant,
    its name (the empty string when the result has none) and its
    reasoning. *)
Theorem menu_item_last_result_wins
        cfg results m p v c run c' pre item post iid :
  write_run cfg results m p v c = (Ok run, c') ->
  results = pre ++ item :: post ->
  item_id_of item = Ok iid ->
  Forall (fun d => item_id_of d <> Ok iid) post ->
  exists rid now,
    restaurant_id_of item = Ok rid
    /\ find_item iid (working c') = Some (item_row item iid rid now).
Proof.
  intros H -> Hi Hpost.
  apply write_run_ok in H. destruct H as [_ [c1 [_ H]]].
  apply for_each_app_ok in H. destruct H as [[] [c2 [_ H]]].
  cbn [for_each] in H. apply bind_ok in H.
  destruct H as [[] [c3 [H3 H]]].
  apply item_step_writes_item in H3.
  destruct H3 as [iid' [rid [now [Hi' [Hr Hf]]]]].
  rewrite Hi in Hi'. inversion Hi'; subst iid'.
  exists rid, now. split; [exact Hr|].
  refine (hoare_outcome _ _ _ _ _ (Ok tt) c'
            (find_item_kept_items run post iid _ _) Hf H).
  eapply Forall_impl; [|exact Hpost].
  cbn. intros d Hd j Hj Hji. apply Hd. rewrite Hj, Hji. reflexivity.
Qed.

(** X10. Whatever its outcome, a run leaves alone the row of every
    menu item that no result of the batch names. *)
Theorem menu_items_outside_batch_untouched cfg results m p v c r c' j :
  Forall (fun d => item_id_of d <> Ok j) results ->
  write_run cfg results m p v c = (r, c') ->
  find_item j (working c') = find_item j (working c).
Proof.
  intros Hall E.
  assert (H : Forall (fun item => forall iid, item_id_of item = Ok iid ->
                                              iid <> j) results).
  { eapply Forall_impl; [|exact Hall].
    cbn. intros d Hd i Hi Hij. apply Hd. rewrite Hi, Hij. reflexivity. }
  pose proof (hoare_outcome _ _ _ _ c r c'
                (find_item_kept cfg results m p v j
                                (find_item j (working c)) H)
                eq_refl E) as Hout.
  destruct r; exact Hout.
Qed.

(** ** Ingredients and history *)

Lemma insert_link_ingredients item ing conf t t' :
  insert_link item ing conf t = Some t' -> ingredients t' = ingredients t.
Proof.
  unfold insert_link. destruct (existsb _ _); [discriminate|].
  intros H. inversion H. reflexivity.
Qed.

(** X11. Whatever its outcome, a run never removes an ingredient and
    never gives another identifier to a canonical name that had
    one. *)
Theorem ingredient_ids_never_change cfg results m p v c r c' n id :
  select_ingredient_id n (working c) = Some id ->
  write_run cfg results m p v c = (r, c') ->
  select_ingredient_id n (working c') = Some id.
Proof.
  intros Hn E.
  assert (H : hoare (fun c => select_ingredient_id n (working c) = Some id)
                    (write_run cfg results m p v)
                    (fun _ c => select_ingredient_id n (working c) = Some id)
                    (fun c => select_ingredient_id n (working c) = Some id)).
  { apply (kept_write_run (fun t => select_ingredient_id n t = Some id)
                          (fun _ => True));
      try (intros; assumption).
    - intros id0 cn d t Ht. apply select_upsert_ingredient_stable. exact Ht.
    - intros item ing conf t t' _ Ei Ht. unfold select_ingredient_id.
      rewrite (insert_link_ingredients _ _ _ _ _ Ei). exact Ht.
    - apply Forall_forall. intros; exact I. }
  pose proof (hoare_outcome _ _ _ _ c r c' H Hn E) as Hout.
  destruct r; exact Hout.
Qed.

Lemma write_run_runs cfg results m p v c r c' :
  write_run cfg results m p v c = (r, c') ->
  extraction_runs (working c') = extraction_runs (working c)
  \/ extraction_runs (working c')
     = extraction_runs (working c) ++ [run_row cfg c m p v].
Proof.
  intros E. apply write_run_cases in E. cbv zeta in E.
  destruct E as [[e [_ [->| ->]]]|[_ [c1 [r1 [Hc1 [Hloop _]]]]]].
  - left. reflexivity.
  - right. reflexivity.
  - right. apply evolves_items in Hloop.
    destruct Hloop as [_ _ _ _ _ Hg]. destruct Hg as [_ _ _ _ _ _ Hr].
    rewrite Hr. destruct Hc1 as [->| ->]; reflexivity.
Qed.

Lemma filter_all_true {A : Type} (q : A -> bool) l :
  (forall x, In x l -> q x = true) -> filter q l = l.
Proof.
  induction l as [|x l IH]; cbn; [reflexivity|]. intros H.
  rewrite (H x) by (left; reflexivity). f_equal. apply IH.
  intros y Hy. apply H. right. exact Hy.
Qed.

(** X12. In an intact store a run only adds to the history, whatever
    its outcome: the run rows found at the start stay as they are and
    at most the row of the new run follows them, and the observations
    found at the start are exactly the observations of the other runs
    afterwards, in the same order. *)
Theorem write_run_appends_to_history cfg results m p v c r c' :
  sound c ->
  write_run cfg results m p v c = (r, c') ->
  (extraction_runs (working c') = extraction_runs (working c)
   \/ extraction_runs (working c')
      = extraction_runs (working c) ++ [run_row cfg c m p v])
  /\ filter (other_run (auto_run c))
            (menu_item_ingredient_observations (working c'))
     = menu_item_ingredient_observations (working c).
Proof.
  intros [[_ [Hr Hn]] _] E. split; [eapply write_run_runs; exact E|].
  destruct (write_run_grows _ _ _ _ _ _ _ _ E) as [t0 [H1 [_ [_ Hg]]]].
  destruct Hg as [_ _ Ho _ _ _ _]. rewrite Ho, H1.
  apply filter_all_true. intros o Hin. unfold other_run.
  apply negb_true_iff. apply Z.eqb_neq.
  destruct Hr as [_ R2 _ _ _ _]. destruct Hn as [N1 _].
  specialize (R2 o Hin). apply in_map_iff in R2.
  destruct R2 as [x [Hx Hxin]]. rewrite Forall_forall in N1.
  specialize (N1 x Hxin). lia.
Qed.

(** X13. When [run_with_transaction] returns a run identifier, the
    tables that [write_run] left are the committed ones, nothing is
    pending, the connection is closed, and the committed run rows end
    with the row of the returned identifier. *)
Theorem run_with_transaction_commits_the_run
        cfg results m p v config c run c' :
  run_with_transaction cfg results m p v config c = (Ok run, c') ->
  exists c1,
    write_run cfg results m p v c = (Ok run, c1)
    /\ committed c' = working c1
    /\ working c' = working c1
    /\ is_open c' = false
    /\ extraction_runs (committed c')
       = extraction_runs (working c) ++ [run_row cfg c m p v]
    /\ run_id (run_row cfg c m p v) = run.
Proof.
  rewrite run_with_transaction_eq.
  destruct (write_run cfg results m p v c) as [[run1|e] c1] eqn:E;
    [|discriminate].
  destruct (faults c1 (executed c1)); [discriminate|].
  intros H. inversion H; subst. clear H.
  exists c1. unfold settle.
  destruct (autocommit (connection_config config)); cbn;
    repeat (split; [reflexivity|]);
    apply write_run_summary in E; destruct E as [Hrun [_ [Hrows _]]];
    (split; [exact Hrows|]); cbn; symmetry; exact Hrun.
Qed.

(** ** The chunks of the batch *)

Lemma range_from_slices {A : Type} (batch : list A) k fuel start :
  (1 <= k)%nat ->
  (List.length batch - start <= fuel)%nat ->
  List.concat (map (fun s => Pipeline.slice batch s (s + k))
              (Pipeline.range_from fuel start (List.length batch) k))
  = skipn start batch.
Proof.
  intros Hk. revert start.
  induction fuel as [|fuel IH]; intros start Hf; cbn [Pipeline.range_from].
  - cbn. symmetry. apply skipn_all2. lia.
  - destruct (start <? List.length batch)%nat eqn:E.
    + cbn [map List.concat]. rewrite IH by (apply Nat.ltb_lt in E; lia).
      unfold Pipeline.slice.
      replace (start + k - start)%nat with k by lia.
      replace (start + k)%nat with (k + start)%nat by lia.
      rewrite <- skipn_skipn. apply firstn_skipn.
    + cbn. symmetry. apply skipn_all2. apply Nat.ltb_ge in E. exact E.
Qed.

Lemma range_from_bounds fuel start stop k s :
  In s (Pipeline.range_from fuel start stop k) -> (s < stop)%nat.
Proof.
  revert start.
  induction fuel as [|fuel IH]; intros start; cbn [Pipeline.range_from In];
    [tauto|].
  destruct (start <? stop)%nat eqn:E; cbn [In]; [|tauto].
  intros [<-|H]; [apply Nat.ltb_lt; exact E|]. eapply IH. exact H.
Qed.

Lemma range_from_length fuel start stop k :
  (1 <= k)%nat -> (stop - start <= fuel)%nat ->
  List.length (Pipeline.range_from fuel start stop k)
  = ((stop - start + k - 1) / k)%nat.
Proof.
  intros Hk. revert start.
  induction fuel as [|fuel IH]; intros start Hf; cbn [Pipeline.range_from].
  - cbn. replace (stop - start + k - 1)%nat with (k - 1)%nat by lia.
    symmetry. apply Nat.div_small. lia.
  - destruct (start <? stop)%nat eqn:E.
    + apply Nat.ltb_lt in E. cbn [List.length]. rewrite IH by lia.
      destruct (Nat.le_gt_cases k (stop - start)) as [Hge|Hlt].
      * replace (stop - start + k - 1)%nat
          with ((stop - (start + k) + k - 1) + 1 * k)%nat by lia.
        rewrite Nat.div_add by lia. lia.
      * replace (stop - (start + k) + k - 1)%nat with (k - 1)%nat by lia.
        rewrite (Nat.div_small (k - 1)) by lia.
        apply (Nat.div_unique _ _ _ (stop - start - 1)); lia.
    + apply Nat.ltb_ge in E. cbn.
      replace (stop - start + k - 1)%nat with (k - 1)%nat by lia.
      symmetry. apply Nat.div_small. lia.
Qed.

(** X14. The loop of [main] cuts the batch into consecutive chunks:
    put end to end they are the batch, none is empty, none is longer
    than [max(1, chunk_size)], and their number is the length of the
    batch divided by that size, rounded up. *)
Theorem chunks_partition_the_batch {A : Type} (size : Z) (batch : list A) :
  let k := Z.to_nat (Z.max 1 size) in
  List.concat (Pipeline.chunks size batch) = batch
  /\ Forall (fun chunk => (1 <= List.length chunk <= k)%nat)
            (Pipeline.chunks size batch)
  /\ List.length (Pipeline.chunks size batch)
     = ((List.length batch + k - 1) / k)%nat.
Proof.
  cbv zeta. unfold Pipeline.chunks, Pipeline.range.
  set (k := Z.to_nat (Z.max 1 size)).
  assert (Hk : (1 <= k)%nat) by (subst k; lia).
  split; [|split].
  - rewrite range_from_slices by lia. reflexivity.
  - apply Forall_forall. intros chunk Hin. apply in_map_iff in Hin.
    destruct Hin as [s [<- Hs]]. apply range_from_bounds in Hs.
    unfold Pipeline.slice. rewrite length_firstn, length_skipn. lia.
  - rewrite length_map, range_from_length by lia.
    rewrite Nat.sub_0_r. reflexivity.
Qed.

(** ** The pipeline *)

Section MainFacts.

Variable row : Type.
Variable extract : nat -> list row -> result (list dict).

Lemma extract_chunks_ok n cs acc results :
  Pipeline.extract_chunks row extract n cs acc = Ok results
  <-> exists answers,
      Forall2 (fun ic rs => extract (fst ic) (snd ic) = Ok rs)
              (combine (seq n (List.length cs)) cs) answers
      /\ results = acc ++ List.concat answers.
Proof.
  revert n acc. induction cs as [|chunk cs IH]; intros n acc; cbn.
  - split.
    + intros H. inversion H. exists []. split; [constructor|].
      cbn. rewrite app_nil_r. reflexivity.
    + intros [answers [H1 H2]]. inversion H1; subst. cbn.
      rewrite app_nil_r. reflexivity.
  - destruct (extract n chunk) as [rs|e] eqn:E.
    + rewrite IH. split.
      * intros [answers [H1 H2]]. exists (rs :: answers). split.
        -- constructor; [exact E|exact H1].
        -- cbn. rewrite H2, app_assoc. reflexivity.
      * intros [answers [H1 H2]].
        inversion H1 as [|ic rs' l answers' Hx Hy]; subst. cbn in Hx.
        rewrite E in Hx. inversion Hx; subst. exists answers'.
        split; [exact Hy|]. cbn. rewrite app_assoc. reflexivity.
    + split; [discriminate|].
      intros [answers [H1 _]].
      inversion H1 as [|ic rs' l answers' Hx Hy]; subst. cbn in Hx.
      rewrite E in Hx. discriminate Hx.
Qed.

Lemma extract_chunks_raise n cs acc i chunk e :
  nth_error cs i = Some chunk -> extract (n + i) chunk = Raise e ->
  exists e', Pipeline.extract_chunks row extract n cs acc = Raise e'.
Proof.
  revert n acc i. induction cs as [|ch cs IH]; intros n acc i.
  - destruct i; discriminate.
  - destruct i as [|i]; cbn.
    + intros H. inversion H; subst. rewrite Nat.add_0_r. intros ->.
      exists e. reflexivity.
    + intros H He. destruct (extract n ch) as [rs|e0]; [|eauto].
      apply (IH (S n) _ i); [exact H|].
      replace (S n + i)%nat with (n + S i)%nat by lia. exact He.
Qed.

(** X15. When the extraction of one chunk raises, [main] returns 1
    and no connection to the store is opened: nothing is written for
    the chunks that were extracted before. *)
Theorem main_stops_before_writing cfg a x batch connection i chunk e :
  nth_error (Pipeline.chunks (Pipeline.chunk_size a) (x :: batch)) i
  = Some chunk ->
  extract i chunk = Raise e ->
  Pipeline.main row extract cfg a true (Ok (x :: batch)) connection
  = (1, None).
Proof.
  intros Hi He. unfold Pipeline.main. cbn [negb].
  destruct (extract_chunks_raise 0 _ [] i chunk e Hi He) as [e' ->].
  reflexivity.
Qed.

(** X16. [main] returns 0 or 1.  When it opened a connection, the
    connection is closed again and every chunk was extracted; with
    exit code 1 the committed tables are those found, and with exit
    code 0 they are the tables that [write_run] left for the answers
    to the chunks put end to end. *)
Theorem main_commits_all_answers_or_nothing
        cfg a is_file batch connection code after :
  Pipeline.main row extract cfg a is_file batch connection = (code, after) ->
  (code = 0 \/ code = 1)
  /\ match after with
     | None => True
     | Some c' =>
         exists b c answers,
           batch = Ok b /\ connection = Ok c /\ is_open c' = false
           /\ Forall2 (fun ic rs => extract (fst ic) (snd ic) = Ok rs)
                      (combine
                         (seq 0 (List.length
                                   (Pipeline.chunks (Pipeline.chunk_size a)
                                                    b)))
                         (Pipeline.chunks (Pipeline.chunk_size a) b))
                      answers
           /\ (code = 1 -> committed c' = committed c)
           /\ (code = 0 ->
               exists run c1,
                 write_run cfg (List.concat answers)
                           (Some (Pipeline.model a))
                           (Pipeline.arg_prompt_version a)
                           (Pipeline.arg_pipeline_version a) c
                 = (Ok run, c1)
                 /\ committed c' = working c1)
     end.
Proof.
  unfold Pipeline.main. destruct is_file; cbn [negb].
  2:{ intros H. inversion H. auto. }
  destruct batch as [b|e]. 2:{ intros H. inversion H. auto. }
  destruct b as [|x b]. 1:{ intros H. inversion H. auto. }
  destruct (Pipeline.extract_chunks _ _ _ _ _) as [results|e] eqn:E.
  2:{ intros H. inversion H. auto. }
  destruct connection as [c|e]. 2:{ intros H. inversion H. auto. }
  apply extract_chunks_ok in E. destruct E as [answers [Ha ->]].
  cbn [app]. rewrite run_with_transaction_eq.
  destruct (write_run _ _ _ _ _ c) as [[run|e] c1] eqn:W.
  - destruct (faults c1 (executed c1)) as [e|]; intros H; inversion H;
      subst; (split; [auto|]); exists (x :: b), c, answers;
      repeat (split; [first [reflexivity|exact Ha]|]).
    + split; [|discriminate]. intros _. cbn.
      apply write_run_session in W. apply W.
    + split; [discriminate|]. intros _. exists run, c1.
      split; [exact W|reflexivity].
  - intros H; inversion H; subst. split; [auto|].
    exists (x :: b), c, answers.
    repeat (split; [first [reflexivity|exact Ha]|]).
    split; [|discriminate]. intros _. cbn.
    apply write_run_session in W. apply W.
Qed.

End MainFacts.

(** ** Current links of the other items *)

Lemma links_of_delete_other item j rows :
  item <> j ->
  links_of j (filter (fun l => negb (link_item_id l =? item)) rows)
  = links_of j rows.
Proof.
  intros Hne. unfold links_of. induction rows as [|l rows IH]; cbn;
    [reflexivity|].
  destruct (link_item_id l =? item) eqn:E; cbn.
  - apply Z.eqb_eq in E.
    assert (Hj : (link_item_id l =? j) = false)
      by (apply Z.eqb_neq; lia).
    rewrite Hj. exact IH.
  - destruct (link_item_id l =? j); [f_equal|]; exact IH.
Qed.

Lemma links_of_insert_other item ing conf t t' j :
  item <> j ->
  insert_link item ing conf t = Some t' ->
  links_of j (menu_item_ingredients t') = links_of j (menu_item_ingredients t).
Proof.
  intros Hne. unfold insert_link. destruct (existsb _ _); [discriminate|].
  intros H. inversion H. subst t'. cbn. unfold links_of.
  rewrite filter_app. cbn.
  assert (Hj : (item =? j) = false) by (apply Z.eqb_neq; exact Hne).
  rewrite Hj. apply app_nil_r.
Qed.

(** X17. Whatever its outcome, a run leaves alone the current links of
    every menu item that no result of the batch names. *)
Theorem links_outside_batch_untouched cfg results m p v c r c' j :
  Forall (fun d => item_id_of d <> Ok j) results ->
  write_run cfg results m p v c = (r, c') ->
  links_of j (menu_item_ingredients (working c'))
  = links_of j (menu_item_ingredients (working c)).
Proof.
  intros Hall E.
  assert (H : hoare
                (fun c0 => links_of j (menu_item_ingredients (working c0))
                           = links_of j (menu_item_ingredients (working c)))
                (write_run cfg results m p v)
                (fun _ c0 => links_of j (menu_item_ingredients (working c0))
                             = links_of j (menu_item_ingredients (working c)))
                (fun c0 => links_of j (menu_item_ingredients (working c0))
                           = links_of j (menu_item_ingredients (working c)))).
  { apply (kept_write_run
             (fun t => links_of j (menu_item_ingredients t)
                       = links_of j (menu_item_ingredients (working c)))
             (fun iid => iid <> j));
      try (intros; assumption).
    - intros item t Hne Ht. unfold delete_links.
      cbn [menu_item_ingredients set_links].
      rewrite links_of_delete_other by exact Hne. exact Ht.
    - intros item ing conf t t' Hne Ei Ht.
      rewrite (links_of_insert_other _ _ _ _ _ _ Hne Ei). exact Ht.
    - eapply Forall_impl; [|exact Hall].
      cbn. intros d Hd i Hi Hij. apply Hd. rewrite Hi, Hij. reflexivity. }
  pose proof (hoare_outcome _ _ _ _ c r c' H eq_refl E) as Hout.
  destruct r; exact Hout.
Qed.

(** ** The clamping of a confidence *)

(** X18. [max(0.0, min(1.0, conf))] keeps a confidence between 0 and
    1, gives 0.0 for one that is not above 0 and for the negative
    infinity, and gives 1.0 for one that is not below 1, for the
    positive infinity and for a NaN. *)
Theorem clamp_sends_nan_to_one x :
  clamp x
  = match x with
    | FNaN => FFin 1
    | FInf neg => if neg then FFin 0 else FFin 1
    | FFin q =>
        if Qle_bool q 0 then FFin 0
        else if Qle_bool 1 q then FFin 1
             else FFin q
    end.
Proof.
  destruct x as [q|[]|]; try reflexivity.
  unfold clamp, Py.max, Py.min, Py.flt.
  destruct q as [n d]. unfold Qle_bool. cbn [Qnum Qden].
  rewrite !Z.mul_1_r, !Z.mul_1_l, !Z.mul_0_l.
  destruct (n <=? 0) eqn:E0; destruct (Z.pos d <=? n) eqn:E1;
    cbn [andb negb].
  - apply Z.leb_le in E0, E1. lia.
  - assert (H : (n <=? Z.pos d) = true) by (apply Z.leb_le in E0;
                                            apply Z.leb_le; lia).
    rewrite H. cbn [andb negb]. unfold Qle_bool. cbn [Qnum Qden].
    rewrite !Z.mul_1_r, !Z.mul_0_l, E0. cbn.
    destruct (0 <=? n); reflexivity.
  - destruct (n <=? Z.pos d); cbn [andb negb]; unfold Qle_bool; cbn;
      reflexivity.
  - assert (H : (n <=? Z.pos d) = true) by (apply Z.leb_gt in E1;
                                            apply Z.leb_le; lia).
    rewrite H. cbn [andb negb]. unfold Qle_bool. cbn [Qnum Qden].
    rewrite !Z.mul_1_r, !Z.mul_0_l, E0.
    assert (H0 : (0 <=? n) = true) by (apply Z.leb_gt in E0;
                                       apply Z.leb_le; lia).
    rewrite H0. reflexivity.
Qed.

(** ** When a run completes *)

Lemma NoDup_map_eq {A K : Type} (key : A -> K) l x y :
  NoDup (map key l) -> In x l -> In y l -> key x = key y -> x = y.
Proof.
  induction l as [|a l IH]; cbn; [tauto|].
  intros Hn Hx Hy E. inversion Hn as [|k ks Hnot Hn']. subst.
  destruct Hx as [->|Hx]; destruct Hy as [->|Hy].
  - reflexivity.
  - exfalso. apply Hnot. rewrite E. apply in_map. exact Hy.
  - exfalso. apply Hnot. rewrite <- E. apply in_map. exact Hx.
  - apply IH; assumption.
Qed.

Lemma select_ingredient_row n t id :
  select_ingredient_id n t = Some id ->
  exists r, In r (ingredients t) /\ canonical_name r = n
            /\ ingredient_id r = id.
Proof.
  unfold select_ingredient_id.
  destruct (find (has_canonical n) (ingredients t)) as [r|] eqn:E;
    [|discriminate].
  cbn. intros H. inversion H. apply find_some in E. destruct E as [E1 E2].
  exists r. split; [exact E1|]. split; [|reflexivity].
  apply str_eqb_eq. exact E2.
Qed.

Lemma select_ingredient_one_name t n1 n2 id :
  keyed t ->
  select_ingredient_id n1 t = Some id ->
  select_ingredient_id n2 t = Some id -> n1 = n2.
Proof.
  intros K H1 H2.
  apply select_ingredient_row in H1. destruct H1 as [r1 [I1 [N1 D1]]].
  apply select_ingredient_row in H2. destruct H2 as [r2 [I2 [N2 D2]]].
  assert (r1 = r2).
  { apply (NoDup_map_eq ingredient_id (ingredients t));
      [apply K|exact I1|exact I2|congruence]. }
  subst r2. congruence.
Qed.

Lemma resolved_ids_distinct t es acc :
  keyed t -> Forall2 (resolved t) es acc ->
  NoDup (map (fun e => fst (fst e)) es) -> NoDup (map fst acc).
Proof.
  intros K F. induction F as [|e p es acc [R1 R2] F IH]; cbn; intros Hn.
  - constructor.
  - inversion Hn as [|k ks Hnot Hn']. subst. constructor; [|apply IH; exact Hn'].
    intros Hin. apply in_map_iff in Hin. destruct Hin as [q [Hq Hin]].
    destruct (Forall2_in_right _ _ _ _ F Hin) as [e' [He' [R1' _]]].
    apply Hnot. apply in_map_iff. exists e'. split; [|exact He'].
    apply (select_ingredient_one_name t _ _ (fst p) K); [|exact R1].
    rewrite <- Hq. exact R1'.
Qed.

Lemma hoare_upsert_restaurant run rid :
  hoare (ready [run] [] [] [])
        (update (fun now => upsert_restaurant now rid))
        (fun _ => ready [run] [rid] [] []) (ready [] [] [] []).
Proof.
  apply hoare_update.
  - intros c H. eapply ready_raise. exact H.
  - intros now c [Hi Hk].
    destruct (upsert_restaurant_intact now rid (working c) c Hi)
      as [Hi' [Hw Hin]].
    split; cbn.
    + apply (intact_advances _ c); [exact Hi'|cbn; lia|cbn; lia].
    + destruct (known_widens _ _ _ _ _ _ Hk Hw) as [H1 H2 H3 H4].
      constructor; try assumption.
      intros x [Hx|[]]. subst x. exact Hin.
Qed.

Lemma hoare_upsert_menu_item run iid rid nm rs :
  hoare (ready [run] [rid] [] [])
        (update (fun now => upsert_menu_item now iid rid nm rs))
        (fun _ => ready [run] [] [iid] []) (ready [] [] [] []).
Proof.
  apply hoare_update.
  - intros c H. eapply ready_raise. exact H.
  - intros now c [Hi Hk].
    destruct (upsert_menu_item_intact now iid rid nm rs (working c) c Hi)
      as [Hi' [Hw Hin]].
    { eapply known_restaurant; [exact Hk|]. left. reflexivity. }
    split; cbn.
    + apply (intact_advances _ c); [exact Hi'|cbn; lia|cbn; lia].
    + destruct (known_widens _ _ _ _ _ _ Hk Hw) as [H1 H2 H3 H4].
      constructor; try assumption.
      * apply incl_nil_l.
      * intros x [Hx|[]]. subst x. exact Hin.
Qed.

Lemma hoare_ingredient_loop run iid rows seen :
  hoare (ready [run] [] [iid] (map fst seen))
        (for_each (ingredient_step run iid) rows seen)
        (fun seen' => ready [run] [] [iid] (map fst seen'))
        (ready [] [] [] []).
Proof.
  refine (hoare_for_each
            (fun seen => ready [run] [] [iid] (map fst seen))
            _ _ rows _ seen).
  intros s ing _. apply hoare_ingredient_step.
Qed.

Lemma hoare_insert_run m pv pipv :
  hoare (ready [] [] [] []) (execute_insert_run m pv pipv)
        (fun id c => ready [id] [] [] [] c /\ last_insert_id c = id)
        (ready [] [] [] []).
Proof.
  unfold execute_insert_run. apply hoare_execute.
  - intros c H. eapply ready_raise. exact H.
  - intros now c [Hi Hk]. cbn [fst snd].
    destruct (insert_run_intact now m pv pipv (working c) c Hi)
      as [Hi' [Hw Hin]].
    split; [|reflexivity]. split; cbn.
    + apply (intact_advances _ _ _ Hi'); cbn; lia.
    + constructor; cbn; try apply incl_nil_l.
      intros x [Hx|[]]. subst x. exact Hin.
Qed.

Lemma item_step_completes run item c :
  ready [run] [] [] [] c -> quiet c -> storable item ->
  exists c', item_step run tt item c = (Ok tt, c').
Proof.
  intros R Q [[iid Hid] [[rid Hrid] [rows [es [Hrows [K Nd]]]]]].
  unfold item_step. fold (item_id_of item). fold (restaurant_id_of item).
  fold (ingredient_rows item). rewrite Hid, Hrid, Hrows.
  unfold bind at 1. unfold lift at 1.
  unfold bind at 1. unfold lift at 1.
  unfold bind at 1.
  destruct (update_quiet (fun now => upsert_restaurant now rid) c Q)
    as [c3 H3].
  rewrite H3.
  assert (Q3 : quiet c3) by (eapply quiet_later; [eapply clean_update|]; eauto).
  pose proof (hoare_outcome _ _ _ _ _ _ _
                (hoare_upsert_restaurant run rid) R H3) as R3.
  cbv beta iota in R3.
  unfold bind at 1.
  destruct (update_quiet
              (fun now => upsert_menu_item now iid rid
                 (Py.or_else (Py.get item (lit "item_name") VNone) (VStr []))
                 (Py.get item (lit "reasoning") VNone)) c3 Q3)
    as [c4 H4].
  rewrite H4.
  assert (Q4 : quiet c4) by (eapply quiet_later; [eapply clean_update|]; eauto).
  pose proof (hoare_outcome _ _ _ _ _ _ _
                (hoare_upsert_menu_item run iid rid _ _) R3 H4) as R4.
  cbv beta iota in R4.
  unfold bind at 1. unfold lift at 1.
  unfold bind at 1.
  destruct (ingredient_loop_progress run iid rows es [] c4 K Q4)
    as [seen [c5 H5]].
  rewrite H5.
  assert (Q5 : quiet c5).
  { eapply quiet_later; [|exact Q4].
    eapply (completes_for_each issued_clean issued_clean_refl
              issued_clean_trans); [|exact H5].
    intros s x. apply clean_ingredient_step. }
  pose proof (hoare_outcome _ _ _ _ _ _ _
                (hoare_ingredient_loop run iid rows []) R4 H5) as R5.
  cbv beta iota in R5.
  assert (Hseen : NoDup (map fst seen)).
  { pose proof H5 as H5'. apply ingredient_loop_ok in H5'.
    destruct H5' as [es' [acc [K' [Hs [F5 _]]]]].
    assert (es' = es) by congruence. subst es'. cbn in Hs. subst seen.
    eapply resolved_ids_distinct; [|exact F5|exact Nd].
    apply R5. }
  unfold bind at 1.
  destruct (update_quiet (fun _ => delete_links iid) c5 Q5) as [c6 H6].
  rewrite H6.
  apply link_loop_progress; [exact Hseen | |].
  - eapply quiet_later; [eapply clean_update|]; eauto.
  - intros q _. apply update_ok in H6. destruct H6 as [_ H6]. subst c6.
    cbn [working set_working tick]. apply delete_links_free.
Qed.

Lemma item_loop_completes run results : forall c,
  ready [run] [] [] [] c -> quiet c -> Forall storable results ->
  exists c', for_each (item_step run) results tt c = (Ok tt, c').
Proof.
  induction results as [|item results IH]; intros c R Q F; cbn [for_each].
  - unfold ret. eauto.
  - inversion F as [|x l Hs F']. subst.
    destruct (item_step_completes run item c R Q Hs) as [c1 H1].
    unfold bind. rewrite H1. apply IH; [| |exact F'].
    + exact (hoare_outcome _ _ _ _ _ _ _ (hoare_item_step run tt item) R H1).
    + eapply quiet_later; [|exact Q]. eapply clean_item_step. exact H1.
Qed.

Lemma write_run_completes cfg results m p v c :
  sound c -> quiet c -> Forall storable results ->
  exists run c', write_run cfg results m p v c = (Ok run, c').
Proof.
  intros [Hw _] Q F. unfold write_run.
  destruct (resolve_versions cfg p v) as [pv pipv].
  assert (R : ready [] [] [] [] c).
  { split; [exact Hw|]. constructor; apply incl_nil_l. }
  pose proof (hoare_insert_run m pv pipv c R) as R0.
  unfold bind at 1. rewrite execute_insert_run_eq in R0 |- *.
  rewrite (Q (executed c)) in R0 |- * by lia.
  set (c0 := after_insert_run c m pv pipv) in *.
  destruct R0 as [R0 L0].
  assert (Q0 : quiet c0).
  { intros n Hn. unfold c0. cbn. apply Q. cbn in Hn. lia. }
  unfold bind at 1.
  destruct (auto_run c =? 0).
  - rewrite execute_last_insert_id_eq. rewrite (Q0 (executed c0)) by lia.
    rewrite L0.
    destruct (item_loop_completes (auto_run c) results (tick c0))
      as [c' H]; [apply ready_tick; exact R0| |exact F|].
    + intros n Hn. apply Q0. cbn [executed tick] in Hn. lia.
    + unfold bind. rewrite H. unfold ret. eauto.
  - unfold ret at 1.
    destruct (item_loop_completes (auto_run c) results c0 R0 Q0 F)
      as [c' H].
    unfold bind. rewrite H. unfold ret. eauto.
Qed.

Lemma planned_storable t item p : planned t item p -> storable item.
Proof.
  intros [Hid [[rows [es [Hrows [K F]]]] [Nd Hrid]]].
  split; [eauto|]. split; [exact Hrid|].
  exists rows, es. split; [exact Hrows|]. split; [exact K|].
  eapply resolved_names_distinct; eassumption.
Qed.

Lemma write_run_storable cfg results m p v c run c' :
  write_run cfg results m p v c = (Ok run, c') -> Forall storable results.
Proof.
  intros H. apply write_run_summary in H.
  destruct H as [_ [_ [_ [_ [plan [F _]]]]]].
  induction F as [|item q results plan Hp F IH]; constructor.
  - eapply planned_storable. exact Hp.
  - exact IH.
Qed.

(** X19. On an intact store and a connection that refuses no
    statement, [write_run] returns, and [run_with_transaction]
    commits, exactly when every result of the batch is storable: its
    [item_id] and [restaurant_id] convert with [int], its ingredient
    entries convert, and the entries that are kept have pairwise
    distinct canonical names. *)
Theorem run_completes_iff_storable cfg results m p v config c :
  sound c -> quiet c ->
  ((exists run c', write_run cfg results m p v c = (Ok run, c'))
   <-> Forall storable results)
  /\ ((exists run c', run_with_transaction cfg results m p v config c
                      = (Ok run, c'))
      <-> Forall storable results).
Proof.
  intros Hs Q. split; split.
  - intros [run [c' H]]. eapply write_run_storable. exact H.
  - apply write_run_completes; assumption.
  - intros [run [c' H]]. rewrite run_with_transaction_eq in H.
    destruct (write_run cfg results m p v c) as [[run1|e] c1] eqn:E;
      [|discriminate].
    eapply write_run_storable. exact E.
  - intros F.
    destruct (write_run_completes cfg results m p v c Hs Q F)
      as [run [c1 H]].
    rewrite run_with_transaction_eq, H.
    assert (Q1 : quiet c1).
    { eapply quiet_later; [|exact Q]. eapply clean_write_run. exact H. }
    rewrite (Q1 (executed c1)) by lia. eauto.
Qed.

(** * Concrete runs, continued *)

(** A display name and its key. *)
Lemma tomato_sauce_display :
  exists d,
    display_name_for_ingredient (VStr (lit " tomato sauce ")) = widen d
    /\ lower d = lower (strip (lit " tomato sauce "))
    /\ canonicalize_ingredient (VStr d)
       = canonicalize_ingredient (VStr (lit " tomato sauce ")).
Proof.
  apply (display_name_same_key (lit " tomato sauce ")). reflexivity.
Defined.

(** The store after the pizza run. *)
Lemma pizza_store_intact : sound Trial.after_pizza.
Proof.
  apply (write_run_keeps_keys_and_references
           NoConfig [Sample.pizza] Sample.gpt None None Sample.fresh_conn
           (fst (write_run NoConfig [Sample.pizza] Sample.gpt None None
                           Sample.fresh_conn))
           Trial.after_pizza).
  - apply sound_fresh_conn.
  - vm_compute. reflexivity.
Defined.

(** The store after a batch that is rolled back. *)
Lemma bad_id_store_intact :
  sound (snd (run_with_transaction NoConfig [Sample.pizza; Sample.bad_id]
                                   Sample.gpt None None None
                                   Sample.fresh_conn))
  /\ working (snd (run_with_transaction
                     NoConfig [Sample.pizza; Sample.bad_id]
                     Sample.gpt None None None Sample.fresh_conn))
     = committed (snd (run_with_transaction
                         NoConfig [Sample.pizza; Sample.bad_id]
                         Sample.gpt None None None Sample.fresh_conn)).
Proof.
  apply (run_with_transaction_keeps_keys_and_references
           NoConfig [Sample.pizza; Sample.bad_id] Sample.gpt None None
           None Sample.fresh_conn
           (fst (run_with_transaction NoConfig [Sample.pizza; Sample.bad_id]
                                      Sample.gpt None None None
                                      Sample.fresh_conn))).
  - apply sound_fresh_conn.
  - vm_compute. reflexivity.
Defined.

(** The pizza twice in one batch, the second time reduced. *)
Lemma pizza_reduced_wins :
  exists rid now,
    restaurant_id_of Sample.pizza_reduced = Ok rid
    /\ find_item 1
         (working (snd (write_run NoConfig
                                  [Sample.pizza; Sample.pizza_reduced]
                                  Sample.gpt None None Sample.fresh_conn)))
       = Some (item_row Sample.pizza_reduced 1 rid now).
Proof.
  apply (menu_item_last_result_wins
           NoConfig [Sample.pizza; Sample.pizza_reduced] Sample.gpt None None
           Sample.fresh_conn 1
           (snd (write_run NoConfig [Sample.pizza; Sample.pizza_reduced]
                           Sample.gpt None None Sample.fresh_conn))
           [Sample.pizza] Sample.pizza_reduced [] 1).
  - vm_compute. reflexivity.
  - reflexivity.
  - reflexivity.
  - constructor.
Defined.

(** The basil item written after the pizza. *)
Lemma pizza_row_untouched_by_basil :
  find_item 1
    (working (snd (write_run NoConfig [Sample.basil_item] Sample.gpt None
                             None Trial.after_pizza)))
  = find_item 1 (working Trial.after_pizza).
Proof.
  apply (menu_items_outside_batch_untouched
           NoConfig [Sample.basil_item] Sample.gpt None None
           Trial.after_pizza
           (fst (write_run NoConfig [Sample.basil_item] Sample.gpt None None
                           Trial.after_pizza))).
  - constructor; [vm_compute; discriminate|constructor].
  - vm_compute. reflexivity.
Defined.

(** A run that raises after the pizza run. *)
Lemma mozzarella_keeps_its_id :
  select_ingredient_id
    (lit "mozzarella")
    (working (snd (write_run NoConfig [Sample.twice_tomato] Sample.gpt None
                             None Trial.after_pizza)))
  = Some 2.
Proof.
  apply (ingredient_ids_never_change
           NoConfig [Sample.twice_tomato] Sample.gpt None None
           Trial.after_pizza
           (fst (write_run NoConfig [Sample.twice_tomato] Sample.gpt None
                           None Trial.after_pizza))).
  - vm_compute. reflexivity.
  - vm_compute. reflexivity.
Defined.

(** The history after the pizza run on the empty store. *)
Lemma pizza_history :
  (extraction_runs (working Trial.after_pizza)
   = extraction_runs (working Sample.fresh_conn)
   \/ extraction_runs (working Trial.after_pizza)
      = extraction_runs (working Sample.fresh_conn)
        ++ [run_row NoConfig Sample.fresh_conn Sample.gpt None None])
  /\ filter (other_run (auto_run Sample.fresh_conn))
            (menu_item_ingredient_observations (working Trial.after_pizza))
     = menu_item_ingredient_observations (working Sample.fresh_conn).
Proof.
  apply (write_run_appends_to_history
           NoConfig [Sample.pizza] Sample.gpt None None Sample.fresh_conn
           (fst (write_run NoConfig [Sample.pizza] Sample.gpt None None
                           Sample.fresh_conn))).
  - apply sound_fresh_conn.
  - vm_compute. reflexivity.
Defined.

(** The pizza run in a transaction. *)
Lemma pizza_committed :
  exists c1,
    write_run NoConfig [Sample.pizza] Sample.gpt None None Sample.fresh_conn
    = (Ok 1, c1)
    /\ committed (snd (run_with_transaction
                         NoConfig [Sample.pizza] Sample.gpt None None
                         None Sample.fresh_conn))
       = working c1
    /\ working (snd (run_with_transaction
                       NoConfig [Sample.pizza] Sample.gpt None None
                       None Sample.fresh_conn))
       = working c1
    /\ is_open (snd (run_with_transaction
                       NoConfig [Sample.pizza] Sample.gpt None None
                       None Sample.fresh_conn))
       = false
    /\ extraction_runs
         (committed (snd (run_with_transaction
                            NoConfig [Sample.pizza] Sample.gpt None None
                            None Sample.fresh_conn)))
       = extraction_runs (working Sample.fresh_conn)
         ++ [run_row NoConfig Sample.fresh_conn Sample.gpt None None]
    /\ run_id (run_row NoConfig Sample.fresh_conn Sample.gpt None None) = 1.
Proof.
  apply (run_with_transaction_commits_the_run
           NoConfig [Sample.pizza] Sample.gpt None None None
           Sample.fresh_conn 1).
  vm_compute. reflexivity.
Defined.

(** Three menu rows, one per call, and a service that fails at the
    second call. *)
Lemma second_call_fails :
  Pipeline.main nat Trial.fails_second NoConfig Trial.one_by_one true
                (Ok [10%nat; 20%nat; 30%nat]) (Ok Sample.fresh_conn)
  = (1, None).
Proof.
  apply (main_stops_before_writing
           nat Trial.fails_second NoConfig Trial.one_by_one 10%nat
           [20%nat; 30%nat] (Ok Sample.fresh_conn) 1 [20%nat] ValueError).
  - reflexivity.
  - reflexivity.
Defined.

(** Two menu rows, one per call, both answered. *)
Lemma two_calls_committed :
  (fst (Pipeline.main nat Trial.answers NoConfig Trial.one_by_one true
                      (Ok [10%nat; 20%nat]) (Ok Sample.fresh_conn)) = 0
   \/ fst (Pipeline.main nat Trial.answers NoConfig Trial.one_by_one true
                         (Ok [10%nat; 20%nat]) (Ok Sample.fresh_conn)) = 1)
  /\ match snd (Pipeline.main nat Trial.answers NoConfig Trial.one_by_one
                              true (Ok [10%nat; 20%nat])
                              (Ok Sample.fresh_conn))
     with
     | None => True
     | Some c' =>
         exists b c answers,
           Ok [10%nat; 20%nat] = Ok b /\ Ok Sample.fresh_conn = Ok c
           /\ is_open c' = false
           /\ Forall2 (fun ic rs => Trial.answers (fst ic) (snd ic) = Ok rs)
                      (combine
                         (seq 0 (List.length
                                   (Pipeline.chunks
                                      (Pipeline.chunk_size Trial.one_by_one)
                                      b)))
                         (Pipeline.chunks
                            (Pipeline.chunk_size Trial.one_by_one) b))
                      answers
           /\ (fst (Pipeline.main nat Trial.answers NoConfig
                                  Trial.one_by_one true
                                  (Ok [10%nat; 20%nat])
                                  (Ok Sample.fresh_conn)) = 1 ->
               committed c' = committed c)
           /\ (fst (Pipeline.main nat Trial.answers NoConfig
                                  Trial.one_by_one true
                                  (Ok [10%nat; 20%nat])
                                  (Ok Sample.fresh_conn)) = 0 ->
               exists run c1,
                 write_run NoConfig (List.concat answers)
                           (Some (Pipeline.model Trial.one_by_one))
                           (Pipeline.arg_prompt_version Trial.one_by_one)
                           (Pipeline.arg_pipeline_version Trial.one_by_one) c
                 = (Ok run, c1)
                 /\ committed c' = working c1)
     end.
Proof.
  apply (main_commits_all_answers_or_nothing
           nat Trial.answers NoConfig Trial.one_by_one true
           (Ok [10%nat; 20%nat]) (Ok Sample.fresh_conn)).
  vm_compute. reflexivity.
Defined.

(** The links of the pizza after a run for the basil item. *)
Lemma pizza_links_untouched_by_basil :
  links_of 1
    (menu_item_ingredients
       (working (snd (write_run NoConfig [Sample.basil_item] Sample.gpt None
                                None Trial.after_pizza))))
  = links_of 1 (menu_item_ingredients (working Trial.after_pizza)).
Proof.
  apply (links_outside_batch_untouched
           NoConfig [Sample.basil_item] Sample.gpt None None
           Trial.after_pizza
           (fst (write_run NoConfig [Sample.basil_item] Sample.gpt None None
                           Trial.after_pizza))).
  - constructor; [vm_compute; discriminate|constructor].
  - vm_compute. reflexivity.
Defined.

(** The pizza on the empty store of a server that refuses nothing. *)
Lemma pizza_completes :
  ((exists run c', write_run NoConfig [Sample.pizza] Sample.gpt None None
                             Sample.fresh_conn = (Ok run, c'))
   <-> Forall storable [Sample.pizza])
  /\ ((exists run c', run_with_transaction NoConfig [Sample.pizza] Sample.gpt
                                           None None None Sample.fresh_conn
                      = (Ok run, c'))
      <-> Forall storable [Sample.pizza]).
Proof.
  apply (run_completes_iff_storable
           NoConfig [Sample.pizza] Sample.gpt None None None
           Sample.fresh_conn).
  - apply sound_fresh_conn.
  - intros n _. reflexivity.
Defined.
